(** * thermotools: WHAM kernels and the direct MBAR driver

    A shallow embedding of
      - [src/ext/wham/_wham.c]
        ([rc_wham_fi], [rc_wham_fk], [rc_wham_normalize]), and
      - [src/ext/mbar_direct/mbar_direct.pyx]
        ([update_therm_weights], [estimate]).

    The C kernels work on caller-supplied [double*] buffers, which are
    distinct memory regions here: each buffer is a [list D], the kernels run
    in the option monad, and [None] stands for undefined behaviour (an access
    outside a buffer, an [int] overflow in an index).

    The Python driver runs in a state-and-exception monad over a store of
    numpy arrays, so that aliasing and in-place updates are visible.  Arrays
    of integers and of float64 are told apart; a float64 array carries its
    shape and its data in C order.  The observer is a function of the keyword
    arguments it is called with.

    The arithmetic [D] of the [double]s is a parameter ([FloatOps]), and
    everything that only concerns control flow and data flow is proved for
    any [D].  The instance [dbl] idealises IEEE doubles: a finite value is an
    exact real number, next to the two infinities and NaN; what is proved on
    [dbl] holds in exact real arithmetic.

    Where the embedding follows the program: the integers of an array have
    no width, so [1 + max] of line 102 is exact, as it is in the program
    when the largest label is below the maximum of the array's dtype; an
    array has one axis or more (numpy turns the exponential of lines 108
    and 109 of an array without axes into a scalar, which is no array); and
    the compiled functions write the buffers they are handed in full, as
    they do when the sizes of the buffers agree with the dimensions that
    are passed beside them.

    Not among the sources, and taken as parameters: [rc_logsumexp]
    ([lse/_lse.c]), [_update_therm_weights] ([_mbar_direct.c]), and
    [get_conf_energies] and [normalize] of [thermotools.mbar].

    The main results come first, kernel by kernel and then for the driver;
    the sections headed "More on ..." add what the same embeddings show
    besides: the bounds the kernels need, the cells they leave alone, the
    gauge of the free energies, the inputs the driver refuses, the
    bookkeeping of its loop, and two inputs on which its convergence test
    fails. *)

From Stdlib Require Import Reals Lra List ZArith Lia Bool Arith.
Import ListNotations.

Set Implicit Arguments.

(* ================================================================== *)
(** * Arithmetic interface *)

(** The operations on [double] used by the kernels and by the numpy
    expressions of the driver. *)
Class FloatOps (D : Type) : Type := {
  fzero : D;
  fone : D;
  fadd : D -> D -> D;
  fsub : D -> D -> D;
  fmul : D -> D -> D;
  fdiv : D -> D -> D;
  fneg : D -> D;
  fabs : D -> D;
  fexp : D -> D;
  flog : D -> D;
  fltb : D -> D -> bool;       (* [a < b] *)
  fmax : D -> D -> D;          (* one step of numpy's maximum reduction *)
  f_of_int : Z -> D            (* conversion of a C int *)
}.

(** [rc_logsumexp] is declared in [../lse/_lse.h]; its definition is not part
    of these sources.  The kernels take it as a parameter: a function of the
    [length] first cells of the array it is handed.  The array is not
    [const]: the function may leave these cells in another order.  The
    kernels write them again before they read them, and the embedding keeps
    them as the kernel wrote them; a statement about these cells after the
    call holds for a function that leaves them alone. *)
Class LogSumExp (D : Type) : Type := rc_logsumexp : list D -> D.

(* ================================================================== *)
(** * C buffers *)

Notation "x <- c1 ;; c2" :=
  (match c1 with Some x => c2 | None => None end)
  (at level 61, c1 at next level, right associativity).

Section Buffers.
Context {A : Type}.

(** [a[i]] read; [None] outside the buffer. *)
Definition load (a : list A) (i : nat) : option A := nth_error a i.

(** [a[i] = v]; [None] outside the buffer. *)
Definition store (a : list A) (i : nat) (v : A) : option (list A) :=
  if i <? length a then Some (firstn i a ++ v :: skipn (S i) a) else None.

(** [for (i = start; i < start + count; ++i) body], threading the state. *)
Fixpoint for_up {St : Type} (count start : nat)
    (body : nat -> St -> option St) (s : St) : option St :=
  match count with
  | O => Some s
  | S c =>
      match body start s with
      | Some s' => for_up c (S start) body s'
      | None => None
      end
  end.

(** A loop counter [i] with [0 <= i < n] for an [int n] never overflows;
    other [int] arithmetic does when it leaves the 32 bits of a C [int],
    and then the behaviour is undefined. *)
Definition INT_MAX : Z := 2147483647.

Definition c_int (z : Z) : option Z :=
  if ((- INT_MAX - 1 <=? z) && (z <=? INT_MAX))%Z then Some z else None.

(** Two results that are both absent, or both present and related. *)
Definition orel {X Y : Type} (R : X -> Y -> Prop)
    (x : option X) (y : option Y) : Prop :=
  match x, y with
  | Some a, Some b => R a b
  | None, None => True
  | _, _ => False
  end.

End Buffers.

(* ================================================================== *)
(** * The WHAM kernels ([_wham.c]) *)

Section Wham.
Context {D : Type} {ops : FloatOps D} {lse : LogSumExp D}.

(** [rc_logsumexp(array, length)]: reads [array[0 .. length)]. *)
Definition call_logsumexp (array : list D) (length_ : Z) : option D :=
  let n := Z.to_nat length_ in
  if n <=? length array then Some (rc_logsumexp (firstn n array)) else None.

(** The inner loop of [rc_wham_fi], for a fixed [i]. *)
Definition rc_wham_fi_row (log_N_K f_K b_K_i : list D)
    (n_therm_states n_markov_states : Z) (i : nat) (scratch : list D)
    : option (list D) :=
  for_up (Z.to_nat n_therm_states) 0
    (fun K scratch =>
       a <- load log_N_K K ;;
       KM <- c_int (Z.of_nat K * n_markov_states) ;;
       j <- c_int (KM + Z.of_nat i) ;;
       b <- load b_K_i (Z.to_nat j) ;;
       c <- load f_K K ;;
       store scratch K (fadd (fsub a b) c))
    scratch.

(** [rc_wham_fi]; the result is the final [(scratch, f_i)]. *)
Definition rc_wham_fi (log_N_K log_N_i f_K b_K_i : list D)
    (n_therm_states n_markov_states : Z) (scratch f_i : list D)
    : option (list D * list D) :=
  for_up (Z.to_nat n_markov_states) 0
    (fun i st =>
       scratch <- rc_wham_fi_row log_N_K f_K b_K_i
                    n_therm_states n_markov_states i (fst st) ;;
       l <- call_logsumexp scratch n_therm_states ;;
       n <- load log_N_i i ;;
       f_i <- store (snd st) i (fsub l n) ;;
       Some (scratch, f_i))
    (scratch, f_i).

(** The inner loop of [rc_wham_fk], for a fixed [K], after
    [KM = K*n_markov_states]. *)
Definition rc_wham_fk_row (f_i b_K_i : list D)
    (n_markov_states : Z) (K : nat) (scratch : list D) : option (list D) :=
  KM <- c_int (Z.of_nat K * n_markov_states) ;;
  for_up (Z.to_nat n_markov_states) 0
    (fun i scratch =>
       j <- c_int (KM + Z.of_nat i) ;;
       b <- load b_K_i (Z.to_nat j) ;;
       f <- load f_i i ;;
       store scratch i (fneg (fadd b f)))
    scratch.

(** [rc_wham_fk]; the result is the final [(scratch, f_K)]. *)
Definition rc_wham_fk (f_i b_K_i : list D)
    (n_therm_states n_markov_states : Z) (scratch f_K : list D)
    : option (list D * list D) :=
  for_up (Z.to_nat n_therm_states) 0
    (fun K st =>
       scratch <- rc_wham_fk_row f_i b_K_i n_markov_states K (fst st) ;;
       l <- call_logsumexp scratch n_markov_states ;;
       f_K <- store (snd st) K (fneg l) ;;
       Some (scratch, f_K))
    (scratch, f_K).

(** [rc_wham_normalize]; the result is the final [(f_i, scratch)]. *)
Definition rc_wham_normalize (f_i : list D) (n_markov_states : Z)
    (scratch : list D) : option (list D * list D) :=
  scratch <- for_up (Z.to_nat n_markov_states) 0
               (fun i scratch => x <- load f_i i ;; store scratch i (fneg x))
               scratch ;;
  shift <- call_logsumexp scratch n_markov_states ;;
  f_i <- for_up (Z.to_nat n_markov_states) 0
           (fun i f_i => x <- load f_i i ;; store f_i i (fadd x shift))
           f_i ;;
  Some (f_i, scratch).

End Wham.

(* ================================================================== *)
(** * Idealised doubles *)

(** IEEE doubles without rounding: a finite value is a real number; the
    infinities and NaN behave as in IEEE 754 (signed zeros are not
    distinguished). *)
Inductive dbl : Type :=
| NaN
| NInf
| PInf
| Fin (r : R).

Definition Rltb (a b : R) : bool := if Rlt_dec a b then true else false.

Definition dneg (x : dbl) : dbl :=
  match x with
  | NaN => NaN
  | NInf => PInf
  | PInf => NInf
  | Fin r => Fin (- r)
  end.

Definition dadd (x y : dbl) : dbl :=
  match x, y with
  | NaN, _ | _, NaN => NaN
  | PInf, NInf | NInf, PInf => NaN
  | PInf, _ | _, PInf => PInf
  | NInf, _ | _, NInf => NInf
  | Fin a, Fin b => Fin (a + b)
  end.

Definition dsub (x y : dbl) : dbl := dadd x (dneg y).

(** The infinity with the sign of [a], NaN for [a = 0]. *)
Definition signed_inf (a : R) (positive : bool) : dbl :=
  if Rltb 0 a then (if positive then PInf else NInf)
  else if Rltb a 0 then (if positive then NInf else PInf)
  else NaN.

Definition dmul (x y : dbl) : dbl :=
  match x, y with
  | NaN, _ | _, NaN => NaN
  | Fin a, Fin b => Fin (a * b)
  | Fin a, PInf | PInf, Fin a => signed_inf a true
  | Fin a, NInf | NInf, Fin a => signed_inf a false
  | PInf, PInf | NInf, NInf => PInf
  | PInf, NInf | NInf, PInf => NInf
  end.

Definition ddiv (x y : dbl) : dbl :=
  match x, y with
  | NaN, _ | _, NaN => NaN
  | Fin a, Fin b =>
      if Rltb 0 b then Fin (a / b)
      else if Rltb b 0 then Fin (a / b)
      else signed_inf a true
  | Fin _, (PInf | NInf) => Fin 0
  | PInf, Fin b => if Rltb b 0 then NInf else PInf
  | NInf, Fin b => if Rltb b 0 then PInf else NInf
  | (PInf | NInf), (PInf | NInf) => NaN
  end.

Definition dabs (x : dbl) : dbl :=
  match x with
  | NaN => NaN
  | NInf | PInf => PInf
  | Fin r => Fin (Rabs r)
  end.

Definition dexp (x : dbl) : dbl :=
  match x with
  | NaN => NaN
  | NInf => Fin 0
  | PInf => PInf
  | Fin r => Fin (exp r)
  end.

Definition dlog (x : dbl) : dbl :=
  match x with
  | NaN | NInf => NaN
  | PInf => PInf
  | Fin r => if Rltb 0 r then Fin (ln r) else if Rltb r 0 then NaN else NInf
  end.

Definition dltb (x y : dbl) : bool :=
  match x, y with
  | NaN, _ | _, NaN => false
  | _, NInf => false
  | NInf, _ => true
  | PInf, _ => false
  | _, PInf => true
  | Fin a, Fin b => Rltb a b
  end.

(** numpy's [maximum]: NaN wins, otherwise the larger operand. *)
Definition dmax (x y : dbl) : dbl :=
  match x, y with
  | NaN, _ | _, NaN => NaN
  | _, _ => if dltb x y then y else x
  end.

#[export] Instance dbl_ops : FloatOps dbl := {|
  fzero := Fin 0;
  fone := Fin 1;
  fadd := dadd;
  fsub := dsub;
  fmul := dmul;
  fdiv := ddiv;
  fneg := dneg;
  fabs := dabs;
  fexp := dexp;
  flog := dlog;
  fltb := dltb;
  fmax := dmax;
  f_of_int := fun z => Fin (IZR z)
|}.

(* ================================================================== *)
(** * The log-sum-exp primitive *)

Definition is_ninf (x : dbl) : bool :=
  match x with NInf => true | _ => false end.

(** The largest finite entry, if there is one. *)
Fixpoint max_finite (v : list dbl) : option R :=
  match v with
  | [] => None
  | Fin r :: v' =>
      match max_finite v' with
      | Some m => Some (Rmax r m)
      | None => Some r
      end
  | _ :: v' => max_finite v'
  end.

(** [sum = 0; for (...) sum += x]. *)
Definition dsum (v : list dbl) : dbl := fold_left dadd v (Fin 0).

(** Modelled from the spec: the definition of [rc_logsumexp] ([../lse/_lse.c])
    is missing from the sources.  Spec 4.1: given N values, possibly negative
    infinity, it "returns log(sum(exp(values))) computed without
    overflow/underflow, by subtracting the maximum finite value before
    exponentiating and adding it back.  If all entries are negative infinity,
    returns negative infinity".  Without a finite entry nothing is
    subtracted. *)
Definition lse_spec (v : list dbl) : dbl :=
  if forallb is_ninf v then NInf
  else
    let m := Fin (match max_finite v with Some m => m | None => 0%R end) in
    dadd m (dlog (dsum (map (fun x => dexp (dsub x m)) v))).

#[export] Instance dbl_lse : LogSumExp dbl := lse_spec.

(** ** Real-valued readings of a vector of log-weights *)

(** [exp x] as a real number; an excluded entry weighs nothing. *)
Definition ew (x : dbl) : R :=
  match x with
  | Fin r => exp r
  | _ => 0
  end.

Fixpoint Rsum (l : list R) : R :=
  match l with
  | [] => 0
  | x :: l' => x + Rsum l'
  end.

(** The largest of [x :: rs]. *)
Definition Rlist_max (x : R) (rs : list R) : R := fold_right Rmax x rs.

(** A log-weight: finite, or negative infinity. *)
Definition log_weight (x : dbl) : Prop := x = NInf \/ exists r, x = Fin r.

(** The sum of the weights [exp (- f)] over a free-energy vector, in the
    arithmetic of [dbl]. *)
Definition total_weight (f : list dbl) : dbl :=
  dsum (map (fun x => dexp (dneg x)) f).

(* ================================================================== *)
(** * What the kernels are expected to compute *)

Section WhamValues.
Context {D : Type} {ops : FloatOps D} {lse : LogSumExp D}.

(** The term of [rc_wham_fi] for the pair [(i, K)], in the order the C
    expression is evaluated. *)
Definition fi_term (log_N_K f_K b_K_i : list D) (n_markov_states i K : nat) : D :=
  fadd (fsub (nth K log_N_K fzero) (nth (K * n_markov_states + i) b_K_i fzero))
       (nth K f_K fzero).

(** The term of [rc_wham_fk] for the pair [(K, i)]. *)
Definition fk_term (f_i b_K_i : list D) (n_markov_states K i : nat) : D :=
  fneg (fadd (nth (K * n_markov_states + i) b_K_i fzero) (nth i f_i fzero)).

(** The cell [j] of a buffer [s0] whose first [i] cells were overwritten with
    [g 0 .. g (i-1)]. *)
Definition filled (g : nat -> D) (s0 : list D) (i : nat) (s : list D) : Prop :=
  length s = length s0 /\
  forall j, nth_error s j = if j <? i then Some (g j) else nth_error s0 j.

(** The value [rc_wham_fk] assigns to [f_K[K]]. *)
Definition fk_value (f_i b_K_i : list D) (n_markov_states K : nat) : D :=
  fneg (rc_logsumexp (map (fk_term f_i b_K_i n_markov_states K)
                          (seq 0 n_markov_states))).

(** The value [rc_wham_fi] assigns to [f_i[i]]. *)
Definition fi_value (log_N_K log_N_i f_K b_K_i : list D)
    (n_therm_states n_markov_states i : nat) : D :=
  fsub (rc_logsumexp (map (fi_term log_N_K f_K b_K_i n_markov_states i)
                          (seq 0 n_therm_states)))
       (nth i log_N_i fzero).

(** The shift [rc_wham_normalize] adds to [f_i[0 .. n)]. *)
Definition normalize_shift (f_i : list D) (n_markov_states : nat) : D :=
  rc_logsumexp (map fneg (firstn n_markov_states f_i)).

(** Two scratch buffers of one length that agree on their first [n] cells. *)
Definition same_prefix (n : nat) (s1 s2 : list D) : Prop :=
  length s1 = length s2 /\ firstn n s1 = firstn n s2.

(** The scratch buffer keeps its length and its cells from [n] on. *)
Definition scratch_kept (n : nat) (s0 s : list D) : Prop :=
  length s = length s0 /\ forall j, n <= j -> nth_error s j = nth_error s0 j.

(** Same output buffer, scratch buffers of one length. *)
Definition same_output (st1 st2 : list D * list D) : Prop :=
  length (fst st1) = length (fst st2) /\ snd st1 = snd st2.

End WhamValues.

(* ================================================================== *)
(** * numpy arrays, the store and Python control flow *)

(** The exceptions that matter to [estimate]: the distinguished
    [CallbackInterrupt] of [.callback], numpy's and Cython's [ValueError], and
    any other exception a callback may raise. *)
Inductive exn : Type :=
| CallbackInterrupt
| ValueError
| OtherException (id : nat).

Definition is_interrupt (e : exn) : bool :=
  match e with CallbackInterrupt => true | _ => false end.

Section Store.
Context {D : Type}.

(** An ndarray: a 1-d integer array, or a float64 array in C order with its
    shape. *)
Inductive ndarray : Type :=
| IntArray (data : list Z)
| FloatArray (shape : list nat) (data : list D).

(** Arrays live in a store and a variable holds a reference into it, so two
    variables may name one array.  The store keeps apart the arrays that exist
    when [estimate] is entered ([caller]) and those allocated since
    ([locals]). *)
Inductive loc : Type :=
| Caller (n : nat)
| Local (n : nat).

Record heap : Type := {
  caller : list ndarray;
  locals : list ndarray
}.

Definition lookup (h : heap) (l : loc) : option ndarray :=
  match l with
  | Caller n => nth_error (caller h) n
  | Local n => nth_error (locals h) n
  end.

Definition replace_at (n : nat) (a : ndarray) (r : list ndarray)
    : list ndarray :=
  firstn n r ++ a :: skipn (S n) r.

Definition update (h : heap) (l : loc) (a : ndarray) : heap :=
  match l with
  | Caller n => {| caller := replace_at n a (caller h); locals := locals h |}
  | Local n => {| caller := caller h; locals := replace_at n a (locals h) |}
  end.

(** How a statement ends: normally, with an exception, or outside the model
    (a reference that names no array of the expected dtype). *)
Inductive outcome (A : Type) : Type :=
| Return (a : A) (h : heap)
| Raise (e : exn) (h : heap)
| Fault.

Definition M (A : Type) : Type := heap -> outcome A.

Definition ret {A : Type} (a : A) : M A := fun h => Return a h.

Definition raise {A : Type} (e : exn) : M A := fun h => Raise A e h.

Definition bind {A B : Type} (m : M A) (k : A -> M B) : M B :=
  fun h =>
    match m h with
    | Return a h' => k a h'
    | Raise _ e h' => Raise B e h'
    | Fault _ => Fault B
    end.

(** A new array object: the next free reference, and the store with the
    array added. *)
Definition fresh (h : heap) : loc := Local (length (locals h)).

Definition extend (h : heap) (a : ndarray) : heap :=
  {| caller := caller h; locals := locals h ++ [a] |}.

Definition new_array (a : ndarray) : M loc :=
  fun h => Return (fresh h) (extend h a).

Definition get_int (l : loc) : M (list Z) :=
  fun h =>
    match lookup h l with
    | Some (IntArray d) => Return d h
    | _ => Fault _
    end.

Definition get_float (l : loc) : M (list nat * list D) :=
  fun h =>
    match lookup h l with
    | Some (FloatArray sh d) => Return (sh, d) h
    | _ => Fault _
    end.

(** A typed Cython buffer argument [_np.ndarray[double, ndim=n, mode="c"]]:
    an array of another rank is refused with [ValueError]. *)
Definition get_buffer (ndim : nat) (l : loc) : M (list nat * list D) :=
  bind (get_float l) (fun a =>
    if length (fst a) =? ndim then ret a else raise ValueError).

(** Writing [new] over the cells of a buffer: the buffer keeps its length. *)
Definition blit (buf new : list D) : list D :=
  firstn (length buf) new ++ skipn (length new) buf.

(** In-place update of the data of the array at [l]; this is what
    [a[:] = b[:]] and a C function writing through [PyArray_DATA(a)] do. *)
Definition set_data (l : loc) (new : list D) : M unit :=
  fun h =>
    match lookup h l with
    | Some (FloatArray sh d) =>
        Return tt (update h l (FloatArray sh (blit d new)))
    | _ => Fault _
    end.

(** [for i in range(start, start + count): body], where the body says
    whether it ended in [break]. *)
Fixpoint for_range {St : Type} (count start : nat)
    (body : nat -> St -> M (St * bool)) (st : St) : M St :=
  match count with
  | O => ret st
  | S c =>
      bind (body start st) (fun r =>
        if snd r then ret (fst r) else for_range c (S start) body (fst r))
  end.

(** The states at the end of each completed pass of that loop. *)
Fixpoint for_range_trace {St : Type} (count start : nat)
    (body : nat -> St -> M (St * bool)) (st : St) (h : heap) : list St :=
  match count with
  | O => []
  | S c =>
      match body start st h with
      | Return r h' =>
          fst r :: (if snd r then []
                    else for_range_trace c (S start) body (fst r) h')
      | _ => []
      end
  end.

(** The store in which each completed pass of that loop started, beside the
    state at its end. *)
Fixpoint for_range_log {St : Type} (count start : nat)
    (body : nat -> St -> M (St * bool)) (st : St) (h : heap)
    : list (heap * St) :=
  match count with
  | O => []
  | S c =>
      match body start st h with
      | Return r h' =>
          (h, fst r) :: (if snd r then []
                         else for_range_log c (S start) body (fst r) h')
      | _ => []
      end
  end.

(** A reference to an array allocated since [estimate] was entered. *)
Definition is_local (l : loc) : Prop :=
  match l with Local _ => True | Caller _ => False end.

(** A computation that, however it ends, leaves every array of the caller as
    it was, and whose result satisfies [Q]. *)
Definition keeps {A : Type} (m : M A) (Q : A -> Prop) : Prop :=
  forall h,
    match m h with
    | Return a h' => caller h' = caller h /\ Q a
    | Raise _ _ h' => caller h' = caller h
    | Fault _ => True
    end.

(** A reference that names an integer array, and one that names a float
    array. *)
Definition is_int (h : heap) (l : loc) : Prop :=
  exists d, lookup h l = Some (IntArray d).

Definition is_float (h : heap) (l : loc) : Prop :=
  exists sh d, lookup h l = Some (FloatArray sh d).

(** A later store: every reference still names an array of the dtype it
    named. *)
Definition stable (h h' : heap) : Prop :=
  (forall l, is_int h l -> is_int h' l) /\
  (forall l, is_float h l -> is_float h' l).

(** A computation that, started in [h], stays inside the model: it raises,
    or it returns in a later store in which [Q] holds. *)
Definition runs {A : Type} (m : M A) (h : heap) (Q : A -> heap -> Prop)
    : Prop :=
  match m h with
  | Return a h' => stable h h' /\ Q a h'
  | Raise _ _ _ => True
  | Fault _ => False
  end.

End Store.

Arguments ndarray D : clear implicits.
Arguments heap D : clear implicits.
Arguments Build_heap {D} caller locals.
Arguments outcome D A : clear implicits.
Arguments M D A : clear implicits.
Arguments Fault {D A}.
Arguments Raise {D A} e h.

Notation "x <-- c1 ;;; c2" := (bind c1 (fun x => c2))
  (at level 61, c1 at next level, right associativity).
Notation "c1 ;;; c2" := (bind c1 (fun _ => c2))
  (at level 61, right associativity).

(* ================================================================== *)
(** * The direct MBAR driver ([mbar_direct.pyx]) *)

(** The compiled collaborators of the driver.  Their definitions
    ([_mbar_direct.c] and the module [thermotools.mbar]) are not among the
    sources; the driver takes them as parameters.  Each is a function of the
    contents of the arrays it is handed and yields the new contents of the
    arrays it writes: [_update_therm_weights] writes [scratch_T] and
    [new_therm_weights]; [get_conf_energies] writes [scratch_T] and returns
    two new arrays; [normalize] writes [scratch_M], [therm_energies],
    [conf_energies] and [biased_conf_energies]. *)
Class Services (D : Type) : Type := {
  c_update_therm_weights :
    list Z -> list D -> list D -> nat -> nat -> list D -> list D ->
    list D * list D;
  mbar_get_conf_energies :
    list D -> list D -> list nat * list D -> list Z -> list D -> Z ->
    list D * ((list nat * list D) * (list nat * list D));
  mbar_normalize :
    list D -> list nat * list D -> list D -> list D -> list D -> list D ->
    list D * (list D * (list D * list D))
}.

(** The keyword arguments of the observer, arrays by their contents. *)
Record callback_args (D : Type) : Type := {
  iteration_step : nat;
  cb_therm_weights : list D;
  cb_old_therm_weights : list D;
  cb_delta_relative_therm_weights : list D;
  cb_err : D;
  cb_maxerr : D;
  cb_maxiter : Z
}.

Inductive callback_result : Type :=
| CallbackReturns
| CallbackRaises (e : exn).

Section Driver.
Context {D : Type} {ops : FloatOps D} {srv : Services D}.

(** The observer: what it answers to the keyword arguments of a call. *)
Definition callback : Type := callback_args D -> callback_result.

(** [.astype(_np.intc)] on one entry: a C [int] of 32 bits. *)
Definition intc (z : Z) : Z := ((z + 2 ^ 31) mod 2 ^ 32 - 2 ^ 31)%Z.

(** An elementwise operation on two arrays of one shape.  The arrays
    [estimate] combines are [therm_weights] and [old_therm_weights]: the
    second starts as a copy of the first and both are only written in place,
    so that their shapes agree throughout. *)
Fixpoint zip_with {X Y W : Type} (f : X -> Y -> W)
    (a : list X) (b : list Y) : list W :=
  match a, b with
  | x :: a', y :: b' => f x y :: zip_with f a' b'
  | _, _ => []
  end.

(** [_np.max] of a float array; an empty array has no maximum. *)
Definition np_max (v : list D) : M D D :=
  match v with
  | [] => raise ValueError
  | x :: v' => ret (fold_left fmax v' x)
  end.

(** [_np.max] of an integer array. *)
Definition np_max_int (v : list Z) : M D Z :=
  match v with
  | [] => raise ValueError
  | x :: v' => ret (fold_left Z.max v' x)
  end.

(** [_np.zeros(shape=(n,))]; a negative dimension is refused. *)
Definition np_zeros (n : Z) : M D loc :=
  if (n <? 0)%Z then raise ValueError
  else new_array (FloatArray [Z.to_nat n] (repeat fzero (Z.to_nat n))).

(** [_np.ones(shape=(n,))] for the length [n] of an array. *)
Definition np_ones (n : nat) : M D loc :=
  new_array (FloatArray [n] (repeat fone n)).

(** [_np.abs(new - old) / _np.abs(new)] (line 120). *)
Definition relative_change (new old : list D) : list D :=
  zip_with fdiv (map fabs (zip_with fsub new old)) (map fabs new).

(** [_np.abs(new - old) - maxerr * _np.abs(new)] (line 136). *)
Definition convergence_margin (maxerr : D) (new old : list D) : list D :=
  zip_with fsub (map fabs (zip_with fsub new old))
                (map (fun x => fmul maxerr x) (map fabs new)).

(** [update_therm_weights] (lines 34-63): the typed buffers are checked,
    then [_update_therm_weights] works on their data in place.  The compiled
    function is told the shape of the bias matrix and no other size: it is
    undefined on buffers of fewer cells than that shape asks for, which the
    embedding does not show (a buffer keeps its length whatever is written
    to it). *)
Definition update_therm_weights
    (therm_state_counts therm_weights bias_weight_sequence
     scratch_T new_therm_weights : loc) : M D unit :=
  c <-- get_int therm_state_counts ;;;
  w <-- get_buffer 1 therm_weights ;;;
  b <-- get_buffer 2 bias_weight_sequence ;;;
  s <-- get_buffer 1 scratch_T ;;;
  n <-- get_buffer 1 new_therm_weights ;;;
  let r := c_update_therm_weights c (snd w) (snd b)
             (nth 0 (fst b) O) (nth 1 (fst b) O) (snd s) (snd n) in
  set_data scratch_T (fst r) ;;;
  set_data new_therm_weights (snd r).

(** The local variables of [estimate] that are bound once, before the
    loop. *)
Record frame : Type := {
  fr_T : nat;
  fr_M : Z;
  therm_state_counts : loc;
  log_therm_state_counts : loc;
  therm_energies : loc;
  therm_weights : loc;
  bias_weight_sequence : loc;
  old_therm_energies : loc;
  old_therm_weights : loc;
  scratch_M : loc;
  scratch_T : loc
}.

(** The local variables the loop assigns. *)
Record loop_state : Type := {
  err_traj : list D;
  err_count : Z;
  stop : bool;
  err : option D;
  delta_relative_therm_weights : option loc
}.

(** The arrays of a frame that the loop and the last lines write. *)
Definition writes_locals (fr : frame) : Prop :=
  is_local (therm_weights fr) /\ is_local (old_therm_weights fr) /\
  is_local (scratch_T fr) /\ is_local (scratch_M fr).

(** The arrays of a frame that [estimate] has allocated itself: the
    converted counts, the bias weights, and every array it writes. *)
Definition frame_locals (fr : frame) : Prop :=
  is_local (therm_state_counts fr) /\ is_local (bias_weight_sequence fr) /\
  writes_locals fr.

(** The arrays of a frame that the loop and the last lines use have the
    dtypes they are used at. *)
Definition frame_typed (fr : frame) (h : heap D) : Prop :=
  is_int h (therm_state_counts fr) /\
  is_float h (log_therm_state_counts fr) /\
  is_float h (therm_weights fr) /\
  is_float h (bias_weight_sequence fr) /\
  is_float h (old_therm_weights fr) /\
  is_float h (scratch_M fr) /\
  is_float h (scratch_T fr).

(** The arguments of a call name arrays of the dtypes of the signature:
    integer counts and configurational states, float energies. *)
Definition well_typed_call (h : heap D) (therm_state_counts
    bias_energy_sequence conf_state_sequence : loc)
    (therm_energies : option loc) : Prop :=
  is_int h therm_state_counts /\
  is_float h bias_energy_sequence /\
  is_int h conf_state_sequence /\
  match therm_energies with
  | Some e => is_float h e
  | None => True
  end.

(** Lines 100-116.  [M_] is exact: the labels have no width here.  The
    exponentials of lines 108 and 109 are arrays of the shape of their
    argument, as numpy has them for an argument with an axis. *)
Definition estimate_setup
    (therm_state_counts bias_energy_sequence conf_state_sequence : loc)
    (therm_energies : option loc) : M D frame :=
  c0 <-- get_int therm_state_counts ;;;
  let T := length c0 in
  counts <-- new_array (IntArray (map intc c0)) ;;;
  cs <-- get_int conf_state_sequence ;;;
  mx <-- np_max_int cs ;;;
  let M_ := (1 + mx)%Z in
  c <-- get_int counts ;;;
  log_counts <--
    new_array (FloatArray [length c] (map (fun n => flog (f_of_int n)) c)) ;;;
  ew_ <--
    match therm_energies with
    | None =>
        e <-- np_zeros (Z.of_nat T) ;;;
        w <-- np_ones T ;;;
        ret (e, w)
    | Some e =>
        a <-- get_float e ;;;
        w <-- new_array
                (FloatArray (fst a) (map (fun x => fexp (fneg x)) (snd a))) ;;;
        ret (e, w)
    end ;;;
  be <-- get_float bias_energy_sequence ;;;
  bw <-- new_array
           (FloatArray (fst be) (map (fun x => fexp (fneg x)) (snd be))) ;;;
  e <-- get_float (fst ew_) ;;;
  old_e <-- new_array (FloatArray (fst e) (snd e)) ;;;
  w <-- get_float (snd ew_) ;;;
  old_w <-- new_array (FloatArray (fst w) (snd w)) ;;;
  sM <-- np_zeros M_ ;;;
  sT <-- np_zeros (Z.of_nat T) ;;;
  ret {| fr_T := T; fr_M := M_;
         therm_state_counts := counts;
         log_therm_state_counts := log_counts;
         therm_energies := fst ew_;
         therm_weights := snd ew_;
         bias_weight_sequence := bw;
         old_therm_energies := old_e;
         old_therm_weights := old_w;
         scratch_M := sM;
         scratch_T := sT |}.

(** Lines 112, 113 and 116. *)
Definition loop_entry : loop_state :=
  {| err_traj := []; err_count := 0; stop := false; err := None;
     delta_relative_therm_weights := None |}.

(** Lines 125-135: the observer is told about the pass; [CallbackInterrupt]
    sets [stop], any other exception leaves [estimate]. *)
Definition notify (cb : option callback) (args : callback_args D)
    (stop_ : bool) : M D bool :=
  match cb with
  | None => ret stop_
  | Some f =>
      match f args with
      | CallbackReturns => ret stop_
      | CallbackRaises e => if is_interrupt e then ret true else raise e
      end
  end.

(** Lines 136-139: the convergence test; the result is the new [stop]. *)
Definition convergence_check (fr : frame) (maxerr : D) (stop_ : bool)
    : M D bool :=
  tw <-- get_float (therm_weights fr) ;;;
  otw <-- get_float (old_therm_weights fr) ;;;
  m <-- np_max (convergence_margin maxerr (snd tw) (snd otw)) ;;;
  if fltb m fzero then ret true
  else set_data (old_therm_weights fr) (snd tw) ;;; ret stop_.

(** One pass of the loop, lines 118-141; the boolean is [break]. *)
Definition estimate_iteration (fr : frame) (maxiter : Z) (maxerr : D)
    (err_out : Z) (cb : option callback) (_m : nat) (st : loop_state)
    : M D (loop_state * bool) :=
  let count1 := (err_count st + 1)%Z in
  update_therm_weights (therm_state_counts fr) (old_therm_weights fr)
    (bias_weight_sequence fr) (scratch_T fr) (therm_weights fr) ;;;
  tw <-- get_float (therm_weights fr) ;;;
  otw <-- get_float (old_therm_weights fr) ;;;
  let delta := relative_change (snd tw) (snd otw) in
  dl <-- new_array (FloatArray (fst tw) delta) ;;;
  e <-- np_max delta ;;;
  let hit := (count1 =? err_out)%Z in
  let count2 := if hit then 0%Z else count1 in
  let traj := if hit then err_traj st ++ [e] else err_traj st in
  stop1 <-- notify cb
              {| iteration_step := _m;
                 cb_therm_weights := snd tw;
                 cb_old_therm_weights := snd otw;
                 cb_delta_relative_therm_weights := delta;
                 cb_err := e;
                 cb_maxerr := maxerr;
                 cb_maxiter := maxiter |}
              (stop st) ;;;
  stop2 <-- convergence_check fr maxerr stop1 ;;;
  ret ({| err_traj := traj; err_count := count2; stop := stop2;
          err := Some e; delta_relative_therm_weights := Some dl |},
       stop2).

(** Lines 142-151. *)
Definition estimate_finish (fr : frame)
    (bias_energy_sequence conf_state_sequence : loc) (err_out : Z)
    (st : loop_state) : M D (loc * loc * loc * option loc) :=
  tw <-- get_float (therm_weights fr) ;;;
  te <-- new_array
           (FloatArray (fst tw) (map (fun x => fneg (flog x)) (snd tw))) ;;;
  lc <-- get_float (log_therm_state_counts fr) ;;;
  ted <-- get_float te ;;;
  be <-- get_float bias_energy_sequence ;;;
  cs <-- get_int conf_state_sequence ;;;
  sT <-- get_float (scratch_T fr) ;;;
  let g := mbar_get_conf_energies (snd lc) (snd ted) be cs (snd sT) (fr_M fr) in
  set_data (scratch_T fr) (fst g) ;;;
  ce <-- new_array (FloatArray (fst (fst (snd g))) (snd (fst (snd g)))) ;;;
  bce <-- new_array (FloatArray (fst (snd (snd g))) (snd (snd (snd g)))) ;;;
  sM <-- get_float (scratch_M fr) ;;;
  ted <-- get_float te ;;;
  ced <-- get_float ce ;;;
  bced <-- get_float bce ;;;
  let n := mbar_normalize (snd lc) be (snd sM) (snd ted) (snd ced) (snd bced) in
  set_data (scratch_M fr) (fst n) ;;;
  set_data te (fst (snd n)) ;;;
  set_data ce (fst (snd (snd n))) ;;;
  set_data bce (snd (snd (snd n))) ;;;
  traj <-- (if (err_out =? 0)%Z then ret None
            else l <-- new_array
                         (FloatArray [length (err_traj st)] (err_traj st)) ;;;
                 ret (Some l)) ;;;
  ret (te, ce, bce, traj).

(** [estimate]; the result is
    [(therm_energies, conf_energies, biased_conf_energies, err_traj)]. *)
Definition estimate
    (therm_state_counts bias_energy_sequence conf_state_sequence : loc)
    (maxiter : Z) (maxerr : D) (therm_energies : option loc) (err_out : Z)
    (cb : option callback) : M D (loc * loc * loc * option loc) :=
  fr <-- estimate_setup therm_state_counts bias_energy_sequence
           conf_state_sequence therm_energies ;;;
  st <-- for_range (Z.to_nat maxiter) 0
           (estimate_iteration fr maxiter maxerr err_out cb) loop_entry ;;;
  estimate_finish fr bias_energy_sequence conf_state_sequence err_out st.

(** The loop states at the end of each completed pass of a call. *)
Definition estimate_passes
    (therm_state_counts bias_energy_sequence conf_state_sequence : loc)
    (maxiter : Z) (maxerr : D) (therm_energies : option loc) (err_out : Z)
    (cb : option callback) (h : heap D) : list loop_state :=
  match estimate_setup therm_state_counts bias_energy_sequence
          conf_state_sequence therm_energies h with
  | Return fr h1 =>
      for_range_trace (Z.to_nat maxiter) 0
        (estimate_iteration fr maxiter maxerr err_out cb) loop_entry h1
  | _ => []
  end.

(** The completed passes of a call: the store each one started in, and the
    loop state at its end. *)
Definition estimate_log
    (therm_state_counts bias_energy_sequence conf_state_sequence : loc)
    (maxiter : Z) (maxerr : D) (therm_energies : option loc) (err_out : Z)
    (cb : option callback) (h : heap D) : list (heap D * loop_state) :=
  match estimate_setup therm_state_counts bias_energy_sequence
          conf_state_sequence therm_energies h with
  | Return fr h1 =>
      for_range_log (Z.to_nat maxiter) 0
        (estimate_iteration fr maxiter maxerr err_out cb) loop_entry h1
  | _ => []
  end.

(** The error of the pass that starts in the store [h] is [e]: once line 119
    has updated the weights, [new] and [old] are what [therm_weights] and
    [old_therm_weights] hold, and [e] is the largest entry of
    [|new - old| / |new|] (lines 120 and 121). *)
Definition pass_error (fr : frame) (h : heap D) (e : D) : Prop :=
  exists h1 shn new sho old d ds,
    update_therm_weights (therm_state_counts fr) (old_therm_weights fr)
      (bias_weight_sequence fr) (scratch_T fr) (therm_weights fr) h
      = Return tt h1 /\
    lookup h1 (therm_weights fr) = Some (FloatArray shn new) /\
    lookup h1 (old_therm_weights fr) = Some (FloatArray sho old) /\
    zip_with fdiv (map fabs (zip_with fsub new old)) (map fabs new)
      = d :: ds /\
    e = fold_left fmax ds d.

(** The entries of [l] at the positions [k], [2 k], [3 k], ... counted
    from one. *)
Definition every_nth (k : Z) (l : list D) : list D :=
  map snd
    (filter (fun p => (fst p mod k =? 0)%Z)
       (combine (map Z.of_nat (seq 1 (length l))) l)).

(** The values of [err] over a list of loop states. *)
Definition errors_of (passes : list loop_state) : list D :=
  flat_map (fun st => match err st with Some e => [e] | None => [] end) passes.

(** The maximum [_np.max] returns for a non-empty array. *)
Definition np_max_value (v : list D) : D :=
  match v with
  | [] => fzero
  | x :: v' => fold_left fmax v' x
  end.

(** What the observer is told in pass [_m], for the weights [new] that
    [update_therm_weights] produced from [old]. *)
Definition pass_args (maxiter : Z) (maxerr : D) (_m : nat) (new old : list D)
    : callback_args D :=
  {| iteration_step := _m;
     cb_therm_weights := new;
     cb_old_therm_weights := old;
     cb_delta_relative_therm_weights := relative_change new old;
     cb_err := np_max_value (relative_change new old);
     cb_maxerr := maxerr;
     cb_maxiter := maxiter |}.

(** The observer answers with [CallbackInterrupt]. *)
Definition interrupts (cb : option callback) (args : callback_args D) : bool :=
  match cb with
  | Some f =>
      match f args with
      | CallbackRaises e => is_interrupt e
      | CallbackReturns => false
      end
  | None => false
  end.

(** The observer answers with another exception. *)
Definition aborts (cb : option callback) (args : callback_args D)
    : option exn :=
  match cb with
  | Some f =>
      match f args with
      | CallbackRaises e => if is_interrupt e then None else Some e
      | CallbackReturns => None
      end
  | None => None
  end.

(** The test of line 136 on the weights [new] and [old]. *)
Definition converged (maxerr : D) (new old : list D) : bool :=
  fltb (np_max_value (convergence_margin maxerr new old)) fzero.

(** The arrays a pass works on, as the store [h] has them on entry: the
    counts [c], the bias weights [b], the scratch buffer [s], and the
    one-dimensional weight vectors [w] (new) and [o] (old), which are
    distinct arrays of one length, not empty. *)
Record pass_ready (fr : frame) (h : heap D) (c : list Z)
    (shb : list nat) (b : list D) (shs : list nat) (s : list D)
    (shw : list nat) (w : list D) (sho : list nat) (o : list D) : Prop := {
  ready_counts : lookup h (therm_state_counts fr) = Some (IntArray c);
  ready_bias : lookup h (bias_weight_sequence fr) = Some (FloatArray shb b);
  ready_scratch : lookup h (scratch_T fr) = Some (FloatArray shs s);
  ready_new : lookup h (therm_weights fr) = Some (FloatArray shw w);
  ready_old : lookup h (old_therm_weights fr) = Some (FloatArray sho o);
  ready_bias_rank : length shb = 2;
  ready_scratch_rank : length shs = 1;
  ready_new_rank : length shw = 1;
  ready_old_rank : length sho = 1;
  ready_length : length w = length o;
  ready_nonempty : o <> [];
  ready_new_old : therm_weights fr <> old_therm_weights fr;
  ready_scratch_new : scratch_T fr <> therm_weights fr;
  ready_scratch_old : scratch_T fr <> old_therm_weights fr
}.

(** The weights [_update_therm_weights] leaves in the buffer that held [w],
    from the old weights [o]. *)
Definition updated_weights (c : list Z) (shb : list nat) (b s w o : list D)
    : list D :=
  blit w (snd (c_update_therm_weights c o b (nth 0 shb O) (nth 1 shb O) s w)).

(** The scratch contents [_update_therm_weights] leaves. *)
Definition updated_scratch (c : list Z) (shb : list nat) (b s w o : list D)
    : list D :=
  blit s (fst (c_update_therm_weights c o b (nth 0 shb O) (nth 1 shb O) s w)).

(** The store after [update_therm_weights] in a pass that starts in [h]. *)
Definition updated_heap (fr : frame) (h : heap D) (c : list Z)
    (shb : list nat) (b : list D) (shs : list nat) (s : list D)
    (shw : list nat) (w o : list D) : heap D :=
  update (update h (scratch_T fr)
            (FloatArray shs (updated_scratch c shb b s w o)))
         (therm_weights fr) (FloatArray shw (updated_weights c shb b s w o)).

(** The loop variables at the end of a pass that produced the weights [new]
    from [old], bound [delta_relative_therm_weights] to [dl] and ends with
    [stop2]. *)
Definition pass_state (err_out : Z) (st : loop_state) (new old : list D)
    (dl : loc) (stop2 : bool) : loop_state :=
  let e := np_max_value (relative_change new old) in
  let hit := (err_count st + 1 =? err_out)%Z in
  {| err_traj := if hit then err_traj st ++ [e] else err_traj st;
     err_count := if hit then 0%Z else (err_count st + 1)%Z;
     stop := stop2;
     err := Some e;
     delta_relative_therm_weights := Some dl |}.

(** Line 142: the free energies of the final weights. *)
Definition energies_of (weights : list D) : list D :=
  map (fun x => fneg (flog x)) weights.

(** The inputs as the loop sees them: the counts as C ints (line 101). *)
Definition counts_of (c0 : list Z) : list Z := map intc c0.

(** Line 103. *)
Definition log_counts_of (c0 : list Z) : list D :=
  map (fun n => flog (f_of_int n)) (counts_of c0).

(** Line 109. *)
Definition bias_weights_of (bd : list D) : list D :=
  map (fun x => fexp (fneg x)) bd.

(** The weights after the first pass, from the initial weights [w0]. *)
Definition first_weights (c0 : list Z) (shb : list nat) (bd w0 : list D)
    : list D :=
  updated_weights (counts_of c0) shb (bias_weights_of bd)
    (repeat fzero (length c0)) w0 w0.

(** The thermodynamic free energies [estimate] returns when it leaves the
    loop after the first pass: the energies of the first weights, handed to
    [get_conf_energies] and then to [normalize], which writes them. *)
Definition first_pass_energies (c0 : list Z) (shb : list nat) (bd : list D)
    (cs : list Z) (M_ : Z) (w0 : list D) : list D :=
  let lc := log_counts_of c0 in
  let te1 := energies_of (first_weights c0 shb bd w0) in
  let sT := updated_scratch (counts_of c0) shb (bias_weights_of bd)
              (repeat fzero (length c0)) w0 w0 in
  let g := mbar_get_conf_energies lc te1 (shb, bd) cs sT M_ in
  let n := mbar_normalize lc (shb, bd) (repeat fzero (Z.to_nat M_)) te1
             (snd (fst (snd g))) (snd (snd (snd g))) in
  blit te1 (fst (snd n)).

(** The initial weights and their shape: ones, or [exp (- therm_energies)]
    for a warm start from an array of the caller. *)
Definition starts_from (C : list (ndarray D)) (T : nat) (te : option loc)
    (shw : list nat) (w0 : list D) : Prop :=
  match te with
  | None => shw = [T] /\ w0 = repeat fone T
  | Some l =>
      exists n ed, l = Caller n /\
        nth_error C n = Some (FloatArray shw ed) /\
        w0 = map (fun x => fexp (fneg x)) ed
  end.

(** The trajectory holds every [k]-th of the errors seen so far, and the
    counter is the number of passes since the last one recorded. *)
Definition sampled (k : Z) (errs : list D) (st : loop_state) : Prop :=
  err_traj st = every_nth k errs /\
  err_count st = (Z.of_nat (length errs) mod k)%Z.

End Driver.

(* ================================================================== *)
(** * Notions for the further properties *)

(** Not a negative number: NaN, positive infinity, or a number from zero
    up. *)
Definition not_negative (x : dbl) : Prop :=
  x = NaN \/ x = PInf \/ exists r, x = Fin r /\ (0 <= r)%R.

(** A computation that raises no exception but those in [P]. *)
Definition raises_only {D A : Type} (P : exn -> Prop) (m : M D A) : Prop :=
  forall h, match m h with Raise e _ => P e | _ => True end.

(** An exception other than [CallbackInterrupt]. *)
Definition passed_on (e : exn) : Prop := is_interrupt e = false.

(** Two outcomes of one kind: both outside the model, both raising the same
    exception in the same store, or both returning, with [Q] between the
    results and the stores. *)
Definition outcome_rel {D A B : Type}
    (Q : A -> heap D -> B -> heap D -> Prop)
    (o1 : outcome D A) (o2 : outcome D B) : Prop :=
  match o1, o2 with
  | Return a h1, Return b h2 => Q a h1 b h2
  | Raise e1 h1, Raise e2 h2 => e1 = e2 /\ h1 = h2
  | Fault, Fault => True
  | _, _ => False
  end.

(** Loop states that agree on [stop], in one store. *)
Definition same_stop {D : Type} (s1 : @loop_state D) (h1 : heap D)
    (s2 : @loop_state D) (h2 : heap D) : Prop :=
  h1 = h2 /\ stop s1 = stop s2.

(** Results of [estimate] that name the same three arrays of free energies,
    with the same contents. *)
Definition same_energies {D : Type}
    (r1 : loc * loc * loc * option loc) (h1 : heap D)
    (r2 : loc * loc * loc * option loc) (h2 : heap D) : Prop :=
  fst r1 = fst r2 /\
  forall l, In l [fst (fst (fst r1)); snd (fst (fst r1)); snd (fst r1)] ->
    is_float h1 l /\ lookup h1 l = lookup h2 l.

(** A later store in which every float array has kept its shape and the
    length of its data. *)
Definition same_shapes {D : Type} (h h' : heap D) : Prop :=
  forall l sh d, lookup h l = Some (FloatArray sh d) ->
    exists d', lookup h' l = Some (FloatArray sh d') /\ length d' = length d.

(** A computation that, when it returns, has kept the shapes, with [Q] for
    its result. *)
Definition keeps_shapes {D A : Type} (m : M D A) (Q : A -> heap D -> Prop)
    : Prop :=
  forall h,
    match m h with
    | Return a h' => same_shapes h h' /\ Q a h'
    | _ => True
    end.

(** The thermodynamic free energies [estimate] returns when no pass runs:
    the energies of the initial weights [w0], handed to [get_conf_energies]
    and then to [normalize], which writes them. *)
Definition initial_energies {D : Type} {ops : FloatOps D} {srv : Services D}
    (c0 : list Z) (shb : list nat) (bd : list D)
    (cs : list Z) (M_ : Z) (w0 : list D) : list D :=
  let lc := log_counts_of c0 in
  let te1 := energies_of w0 in
  let g := mbar_get_conf_energies lc te1 (shb, bd) cs
             (repeat fzero (length c0)) M_ in
  let n := mbar_normalize lc (shb, bd) (repeat fzero (Z.to_nat M_)) te1
             (snd (fst (snd g))) (snd (snd (snd g))) in
  blit te1 (fst (snd n)).

(* ================================================================== *)
(** * Sample collaborators and inputs *)

(** A stand-in for [_update_therm_weights], to run the driver on examples:
    every new weight is twice the old one, and the scratch buffer is left
    alone. *)
Definition sample_update_therm_weights
    (therm_state_counts : list Z) (therm_weights bias_weight_sequence : list dbl)
    (n_therm_states seq_length : nat) (scratch_T new_therm_weights : list dbl)
    : list dbl * list dbl :=
  (scratch_T, map (fun x => dadd x x) therm_weights).

(** A stand-in for [get_conf_energies]: all configurational free energies
    are zero. *)
Definition sample_get_conf_energies
    (log_therm_state_counts therm_energies : list dbl)
    (bias_energy_sequence : list nat * list dbl) (conf_state_sequence : list Z)
    (scratch_T : list dbl) (M_ : Z)
    : list dbl * ((list nat * list dbl) * (list nat * list dbl)) :=
  let T := length therm_energies in
  let m := Z.to_nat M_ in
  (scratch_T, (([m], repeat (Fin 0) m), ([T; m], repeat (Fin 0) (T * m)))).

(** Modelled from the spec: [thermotools.mbar.normalize], whose definition is
    missing from the sources.  Spec 6: "a paired normalize operation consumes
    and mutates all three free-energy artifacts consistently using one shared
    shift"; spec 4.4: the shift is the log-sum-exp of the negated
    configurational free energies, added to every entry. *)
Definition spec_normalize
    (log_therm_state_counts : list dbl)
    (bias_energy_sequence : list nat * list dbl)
    (scratch_M therm_energies conf_energies biased_conf_energies : list dbl)
    : list dbl * (list dbl * (list dbl * list dbl)) :=
  let shift := lse_spec (map dneg conf_energies) in
  (map dneg conf_energies,
   (map (fun x => dadd x shift) therm_energies,
    (map (fun x => dadd x shift) conf_energies,
     map (fun x => dadd x shift) biased_conf_energies))).

#[export] Instance sample_services : Services dbl := {|
  c_update_therm_weights := sample_update_therm_weights;
  mbar_get_conf_energies := sample_get_conf_energies;
  mbar_normalize := spec_normalize
|}.

(** An observer that answers every call with [CallbackInterrupt], and one
    that answers with the exception [e]. *)
Definition always_raises {D : Type} (e : exn) : @callback D :=
  fun _ => CallbackRaises e.

(** One thermodynamic state, its two samples falling into two
    configurational states, no bias. *)
Definition sample_caller : list (ndarray dbl) :=
  [IntArray [2%Z]; FloatArray [1; 2] [Fin 0; Fin 0]; IntArray [0%Z; 1%Z]].

Definition sample_heap : heap dbl := Build_heap sample_caller [].

Definition sample_maxerr : dbl := Fin (1 / 100000000).

(* ================================================================== *)
(** * Running the embeddings *)

Example rc_wham_normalize_runs :
  rc_wham_normalize [Fin 1; PInf; Fin 3] 2%Z [NaN; NaN] =
  Some ([dadd (Fin 1) (lse_spec [Fin (- (1)); NInf]);
         dadd PInf (lse_spec [Fin (- (1)); NInf]); Fin 3],
        [Fin (- (1)); NInf]).
Proof. reflexivity. Qed.

Example rc_wham_normalize_short_buffer :
  rc_wham_normalize [Fin 1] 2%Z [NaN; NaN] = None.
Proof. reflexivity. Qed.

Example rc_wham_fk_runs :
  rc_wham_fk [Fin 1; Fin 2] [Fin 3; Fin 4] 1%Z 2%Z [NaN; NaN] [NaN] =
  Some ([dneg (dadd (Fin 3) (Fin 1)); dneg (dadd (Fin 4) (Fin 2))],
        [dneg (lse_spec [dneg (dadd (Fin 3) (Fin 1));
                         dneg (dadd (Fin 4) (Fin 2))])]).
Proof. reflexivity. Qed.

Example rc_wham_fk_negative_count :
  rc_wham_fk [Fin 1] [Fin 3] (-1)%Z 1%Z [NaN] [NaN] = Some ([NaN], [NaN]).
Proof. reflexivity. Qed.

Example rc_wham_fk_index_overflow :
  rc_wham_fk (D := dbl) [] [] 65536%Z 65536%Z [] [] = None.
Proof. vm_compute. reflexivity. Qed.

(** No sample at all: [_np.max(conf_state_sequence)] has nothing to reduce. *)
Example estimate_no_samples :
  exists h',
    estimate (Caller 0) (Caller 1) (Caller 2) 1 sample_maxerr None 0 None
      (Build_heap [IntArray [1%Z]; FloatArray [1; 0] []; IntArray []] [])
    = Raise ValueError h'.
Proof. eexists. reflexivity. Qed.

(** No thermodynamic state: the first pass has no relative change to take
    the maximum of. *)
Example estimate_no_states :
  exists h',
    estimate (Caller 0) (Caller 1) (Caller 2) 1 sample_maxerr None 0 None
      (Build_heap [IntArray []; FloatArray [0; 1] []; IntArray [0%Z]] [])
    = Raise ValueError h'.
Proof. eexists. reflexivity. Qed.

(** A bias matrix of rank one is refused by [update_therm_weights]. *)
Example estimate_wrong_rank :
  exists h',
    estimate (Caller 0) (Caller 1) (Caller 2) 1 sample_maxerr None 0 None
      (Build_heap [IntArray [1%Z]; FloatArray [1] [Fin 0]; IntArray [0%Z]] [])
    = Raise ValueError h'.
Proof. eexists. reflexivity. Qed.

(** A reference that names no array is outside the model. *)
Example estimate_not_an_array :
  estimate (Caller 0) (Caller 1) (Caller 5) 1 sample_maxerr None 0 None
    (Build_heap [IntArray [1%Z]; FloatArray [1] [Fin 0]; IntArray [0%Z]] [])
  = Fault.
Proof. reflexivity. Qed.

(* ================================================================== *)
(** * Properties: buffers and loops *)

Unset Implicit Arguments.

Section BufferFacts.
Context {A : Type}.

Lemma store_length (a a' : list A) i v :
  store a i v = Some a' -> length a' = length a.
Proof.
  unfold store. destruct (Nat.ltb_spec i (length a)) as [Hi|Hi]; [|discriminate].
  intros E.
  assert (a' = firstn i a ++ v :: skipn (S i) a) as -> by congruence. clear E.
  rewrite length_app. cbn [length]. rewrite length_firstn, length_skipn. lia.
Qed.

Lemma store_lookup (a a' : list A) i v j :
  store a i v = Some a' ->
  nth_error a' j = if j =? i then Some v else nth_error a j.
Proof.
  unfold store. destruct (Nat.ltb_spec i (length a)) as [Hi|Hi]; [|discriminate].
  intros E.
  assert (a' = firstn i a ++ v :: skipn (S i) a) as -> by congruence. clear E.
  assert (Hl : length (firstn i a) = i) by (rewrite length_firstn; lia).
  destruct (Nat.eqb_spec j i) as [->|Hne].
  - rewrite nth_error_app2 by lia. rewrite Hl, Nat.sub_diag. reflexivity.
  - destruct (Nat.lt_ge_cases j i) as [Hlt|Hge].
    + rewrite nth_error_app1 by lia. rewrite nth_error_firstn.
      destruct (Nat.ltb_spec j i); [reflexivity|lia].
    + rewrite nth_error_app2 by lia. rewrite Hl.
      destruct (j - i) as [|k] eqn:Ek; [lia|]. cbn [nth_error].
      rewrite nth_error_skipn. f_equal. lia.
Qed.

Lemma store_in_range (a : list A) i v :
  i < length a -> exists a', store a i v = Some a'.
Proof.
  intros Hi. unfold store. destruct (Nat.ltb_spec i (length a)); [eauto|lia].
Qed.

Lemma load_in_range (a : list A) i d :
  i < length a -> load a i = Some (nth i a d).
Proof. intros Hi. unfold load. now apply nth_error_nth'. Qed.

(** A loop invariant carries through [for_up]. *)
Lemma for_up_inv {St : Type} (P : nat -> St -> Prop)
    (body : nat -> St -> option St) n : forall start s,
  P start s ->
  (forall i t, start <= i < start + n -> P i t ->
     exists t', body i t = Some t' /\ P (S i) t') ->
  exists s', for_up n start body s = Some s' /\ P (start + n) s'.
Proof.
  induction n as [|n IH]; intros start s H0 Hstep; cbn [for_up].
  - exists s. rewrite Nat.add_0_r. auto.
  - destruct (Hstep start s) as (t & -> & Ht); [lia|assumption|].
    destruct (IH (S start) t Ht) as (s' & E & Hs').
    + intros i u Hi. apply Hstep. lia.
    + exists s'. split; [assumption|]. now rewrite Nat.add_succ_r.
Qed.

(** Two loops running in lockstep keep a relation between their states. *)
Lemma for_up_rel {S1 S2 : Type} (R : nat -> S1 -> S2 -> Prop)
    (body1 : nat -> S1 -> option S1) (body2 : nat -> S2 -> option S2) n :
  forall start s1 s2,
  R start s1 s2 ->
  (forall i a b, start <= i < start + n -> R i a b ->
     orel (R (S i)) (body1 i a) (body2 i b)) ->
  orel (R (start + n)) (for_up n start body1 s1) (for_up n start body2 s2).
Proof.
  induction n as [|n IH]; intros start s1 s2 H0 Hstep; cbn [for_up].
  - rewrite Nat.add_0_r. exact H0.
  - assert (Hb := Hstep start s1 s2 ltac:(lia) H0).
    destruct (body1 start s1) as [t1|], (body2 start s2) as [t2|];
      cbn in Hb; try contradiction; [|exact I].
    rewrite <- Nat.add_succ_comm. apply IH; [assumption|].
    intros i a b Hi. apply Hstep. lia.
Qed.

(** A buffer whose first [n] cells are known pointwise. *)
Lemma firstn_pointwise (g : nat -> A) n (s : list A) :
  (forall j, j < n -> nth_error s j = Some (g j)) ->
  firstn n s = map g (seq 0 n).
Proof.
  intros H. apply nth_error_ext. intros j.
  rewrite nth_error_firstn, nth_error_map, nth_error_seq.
  destruct (Nat.ltb_spec j n); [|reflexivity].
  rewrite H by assumption. reflexivity.
Qed.

End BufferFacts.

(* ================================================================== *)
(** * Properties: the WHAM kernels *)

Section WhamFacts.
Context {D : Type} {ops : FloatOps D} {lse : LogSumExp D}.

Lemma filled_start (g : nat -> D) s0 : filled g s0 0 s0.
Proof. split; [reflexivity|]. intros j. reflexivity. Qed.

Lemma filled_step (g : nat -> D) s0 i s :
  filled g s0 i s -> i < length s0 ->
  exists s', store s i (g i) = Some s' /\ filled g s0 (S i) s'.
Proof.
  intros [Hl Hp] Hi.
  destruct (store_in_range s i (g i)) as [s' E]; [lia|].
  exists s'. split; [assumption|]. split.
  - rewrite (store_length _ _ _ _ E). assumption.
  - intros j. rewrite (store_lookup _ _ _ _ j E), Hp.
    destruct (Nat.eqb_spec j i) as [->|Hne].
    + destruct (Nat.ltb_spec i (S i)); [reflexivity|lia].
    + destruct (Nat.ltb_spec j i), (Nat.ltb_spec j (S i)); try reflexivity; lia.
Qed.

Lemma filled_firstn (g : nat -> D) s0 n s :
  filled g s0 n s -> firstn n s = map g (seq 0 n).
Proof.
  intros [_ Hp]. apply firstn_pointwise. intros j Hj. rewrite Hp.
  destruct (Nat.ltb_spec j n); [reflexivity|lia].
Qed.

Lemma call_logsumexp_in_range (a : list D) n :
  n <= length a ->
  call_logsumexp a (Z.of_nat n) = Some (rc_logsumexp (firstn n a)).
Proof.
  intros Hn. unfold call_logsumexp. cbv zeta. rewrite Nat2Z.id.
  destruct (Nat.leb_spec n (length a)); [reflexivity|lia].
Qed.

Lemma c_int_in_range z :
  (0 <= z <= INT_MAX)%Z -> c_int z = Some z.
Proof.
  intros Hz. unfold c_int.
  destruct (Z.leb_spec (- INT_MAX - 1) z), (Z.leb_spec z INT_MAX);
    try reflexivity; unfold INT_MAX in *; lia.
Qed.

(** The index [K*M + i] of a [T x M] table, computed in [int]. *)
Lemma table_index T M K i :
  (Z.of_nat T * Z.of_nat M <= INT_MAX)%Z -> K < T -> i < M ->
  c_int (Z.of_nat K * Z.of_nat M) = Some (Z.of_nat (K * M)) /\
  c_int (Z.of_nat (K * M) + Z.of_nat i) = Some (Z.of_nat (K * M + i)) /\
  K * M + i < T * M.
Proof.
  intros Hmax HK Hi. assert (Hlt : K * M + i < T * M) by nia.
  assert (Hz : (Z.of_nat (T * M) <= INT_MAX)%Z) by (rewrite Nat2Z.inj_mul; exact Hmax).
  rewrite <- Nat2Z.inj_mul, <- Nat2Z.inj_add.
  repeat split; [apply c_int_in_range|apply c_int_in_range|exact Hlt]; lia.
Qed.

(** The inner loop of [rc_wham_fk] fills [scratch[0 .. M)]. *)
Lemma rc_wham_fk_row_filled f_i b_K_i T M K scratch :
  (Z.of_nat T * Z.of_nat M <= INT_MAX)%Z ->
  M <= length f_i -> T * M <= length b_K_i -> M <= length scratch -> K < T ->
  exists s', rc_wham_fk_row f_i b_K_i (Z.of_nat M) K scratch = Some s' /\
             filled (fk_term f_i b_K_i M K) scratch M s'.
Proof.
  intros Hmax Hf Hb Hs HK. unfold rc_wham_fk_row.
  destruct M as [|M'].
  { rewrite Z.mul_0_r. cbn. eexists. split; [reflexivity|apply filled_start]. }
  set (M := S M') in *.
  destruct (table_index T M K 0 Hmax HK ltac:(lia)) as (-> & _ & _).
  rewrite Nat2Z.id.
  apply (for_up_inv (filled (fk_term f_i b_K_i M K) scratch)).
  - apply filled_start.
  - intros i t Hi Ht.
    destruct (table_index T M K i Hmax HK ltac:(lia)) as (_ & -> & Hlt).
    rewrite Nat2Z.id.
    rewrite (load_in_range b_K_i (K * M + i) fzero) by lia.
    rewrite (load_in_range f_i i fzero) by lia.
    apply (filled_step _ _ _ _ Ht). lia.
Qed.

(** The inner loop of [rc_wham_fi] fills [scratch[0 .. T)]. *)
Lemma rc_wham_fi_row_filled log_N_K f_K b_K_i T M i scratch :
  (Z.of_nat T * Z.of_nat M <= INT_MAX)%Z ->
  T <= length log_N_K -> T <= length f_K -> T * M <= length b_K_i ->
  T <= length scratch -> i < M ->
  exists s', rc_wham_fi_row log_N_K f_K b_K_i (Z.of_nat T) (Z.of_nat M) i
               scratch = Some s' /\
             filled (fi_term log_N_K f_K b_K_i M i) scratch T s'.
Proof.
  intros Hmax HN Hf Hb Hs Hi. unfold rc_wham_fi_row. rewrite Nat2Z.id.
  apply (for_up_inv (filled (fi_term log_N_K f_K b_K_i M i) scratch)).
  - apply filled_start.
  - intros K t HK Ht.
    destruct (table_index T M K i Hmax ltac:(lia) Hi) as (-> & -> & Hlt).
    rewrite Nat2Z.id.
    rewrite (load_in_range log_N_K K fzero) by lia.
    rewrite (load_in_range b_K_i (K * M + i) fzero) by lia.
    rewrite (load_in_range f_K K fzero) by lia.
    apply (filled_step _ _ _ _ Ht). lia.
Qed.

Lemma filled_scratch_kept (g : nat -> D) s0 n s :
  filled g s0 n s -> scratch_kept n s0 s.
Proof.
  intros [Hl Hp]. split; [assumption|]. intros j Hj. rewrite Hp.
  destruct (Nat.ltb_spec j n); [lia|reflexivity].
Qed.

Lemma scratch_kept_trans n (s0 s1 s2 : list D) :
  scratch_kept n s0 s1 -> scratch_kept n s1 s2 -> scratch_kept n s0 s2.
Proof.
  intros [L1 P1] [L2 P2]. split; [congruence|].
  intros j Hj. rewrite P2, P1 by assumption. reflexivity.
Qed.

Lemma rc_wham_fk_filled f_i b_K_i T M scratch f_K :
  (Z.of_nat T * Z.of_nat M <= INT_MAX)%Z ->
  M <= length f_i -> T * M <= length b_K_i ->
  M <= length scratch -> T <= length f_K ->
  exists st, rc_wham_fk f_i b_K_i (Z.of_nat T) (Z.of_nat M) scratch f_K
             = Some st /\
    scratch_kept M scratch (fst st) /\
    filled (fk_value f_i b_K_i M) f_K T (snd st).
Proof.
  intros Hmax Hf Hb Hs HK. unfold rc_wham_fk. rewrite Nat2Z.id.
  apply (for_up_inv (fun K st =>
           scratch_kept M scratch (fst st) /\
           filled (fk_value f_i b_K_i M) f_K K (snd st))).
  - split; [split; auto|apply filled_start].
  - intros K [s f] HKr [Hk Hfl]. cbn [fst snd] in *.
    destruct (rc_wham_fk_row_filled f_i b_K_i T M K s Hmax)
      as (s' & -> & Hs'); try assumption; try lia.
    { destruct Hk as [-> _]. assumption. }
    rewrite call_logsumexp_in_range by (destruct Hs' as [-> _], Hk as [-> _]; lia).
    rewrite (filled_firstn _ _ _ _ Hs').
    destruct (filled_step _ _ _ _ Hfl) as (f' & E & Hf'); [lia|].
    unfold fk_value in E at 1. rewrite E.
    eexists. split; [reflexivity|]. cbn [fst snd]. split; [|assumption].
    eapply scratch_kept_trans; [eassumption|].
    eapply filled_scratch_kept; eassumption.
Qed.

Lemma rc_wham_fi_filled log_N_K log_N_i f_K b_K_i T M scratch f_i :
  (Z.of_nat T * Z.of_nat M <= INT_MAX)%Z ->
  T <= length log_N_K -> M <= length log_N_i -> T <= length f_K ->
  T * M <= length b_K_i -> T <= length scratch -> M <= length f_i ->
  exists st, rc_wham_fi log_N_K log_N_i f_K b_K_i (Z.of_nat T) (Z.of_nat M)
               scratch f_i = Some st /\
    scratch_kept T scratch (fst st) /\
    filled (fi_value log_N_K log_N_i f_K b_K_i T M) f_i M (snd st).
Proof.
  intros Hmax HN Hn Hf Hb Hs Hi. unfold rc_wham_fi. rewrite Nat2Z.id.
  apply (for_up_inv (fun i st =>
           scratch_kept T scratch (fst st) /\
           filled (fi_value log_N_K log_N_i f_K b_K_i T M) f_i i (snd st))).
  - split; [split; auto|apply filled_start].
  - intros i [s f] Hir [Hk Hfl]. cbn [fst snd] in *.
    destruct (rc_wham_fi_row_filled log_N_K f_K b_K_i T M i s Hmax)
      as (s' & -> & Hs'); try assumption; try lia.
    { destruct Hk as [-> _]. assumption. }
    rewrite call_logsumexp_in_range by (destruct Hs' as [-> _], Hk as [-> _]; lia).
    rewrite (filled_firstn _ _ _ _ Hs').
    rewrite (load_in_range log_N_i i fzero) by lia.
    destruct (filled_step _ _ _ _ Hfl) as (f' & E & Hf'); [lia|].
    unfold fi_value in E at 1. rewrite E.
    eexists. split; [reflexivity|]. cbn [fst snd]. split; [|assumption].
    eapply scratch_kept_trans; [eassumption|].
    eapply filled_scratch_kept; eassumption.
Qed.

Lemma filled_list (g : nat -> D) s0 n s :
  filled g s0 n s -> n <= length s0 -> s = map g (seq 0 n) ++ skipn n s0.
Proof.
  intros [Hl Hp] Hn. apply nth_error_ext. intros j. rewrite Hp.
  destruct (Nat.ltb_spec j n) as [Hj|Hj].
  - rewrite nth_error_app1 by (rewrite length_map, length_seq; assumption).
    rewrite nth_error_map, nth_error_seq.
    destruct (Nat.ltb_spec j n); [reflexivity|lia].
  - rewrite nth_error_app2 by (rewrite length_map, length_seq; assumption).
    rewrite length_map, length_seq, nth_error_skipn. f_equal. lia.
Qed.

Lemma map_seq_nth {B : Type} (h : D -> B) (l : list D) n :
  n <= length l ->
  map (fun i => h (nth i l fzero)) (seq 0 n) = map h (firstn n l).
Proof.
  intros Hn. apply nth_error_ext. intros j.
  rewrite !nth_error_map, nth_error_seq, nth_error_firstn.
  destruct (Nat.ltb_spec j n) as [Hj|Hj]; [|reflexivity].
  rewrite (nth_error_nth' l fzero) by lia. reflexivity.
Qed.

(** [rc_wham_normalize] in closed form. *)
Lemma rc_wham_normalize_eq f_i n scratch :
  n <= length f_i -> n <= length scratch ->
  rc_wham_normalize f_i (Z.of_nat n) scratch =
  Some (map (fun x => fadd x (normalize_shift f_i n)) (firstn n f_i)
          ++ skipn n f_i,
        map fneg (firstn n f_i) ++ skipn n scratch).
Proof.
  intros Hf Hs. unfold rc_wham_normalize. rewrite Nat2Z.id.
  destruct (for_up_inv (filled (fun i => fneg (nth i f_i fzero)) scratch)
              (fun i scratch => x <- load f_i i ;; store scratch i (fneg x))
              n 0 scratch) as (s' & -> & Hs').
  { apply filled_start. }
  { intros i t Hi Ht. rewrite (load_in_range f_i i fzero) by lia.
    apply (filled_step _ _ _ _ Ht). lia. }
  cbn [Nat.add] in Hs'.
  rewrite call_logsumexp_in_range by (destruct Hs' as [-> _]; lia).
  rewrite (filled_firstn _ _ _ _ Hs'), (map_seq_nth fneg f_i n Hf).
  fold (normalize_shift f_i n).
  destruct (for_up_inv
              (filled (fun i => fadd (nth i f_i fzero) (normalize_shift f_i n)) f_i)
              (fun i t => x <- load t i ;;
                          store t i (fadd x (normalize_shift f_i n)))
              n 0 f_i) as (f' & -> & Hf').
  { apply filled_start. }
  { intros i t Hi Ht. unfold load. destruct Ht as [Hl Hp]. rewrite Hp.
    destruct (Nat.ltb_spec i i); [lia|].
    rewrite (nth_error_nth' f_i fzero) by lia.
    apply (filled_step _ _ _ _ (conj Hl Hp)). lia. }
  cbn [Nat.add] in Hf'.
  rewrite (filled_list _ _ _ _ Hs' Hs), (filled_list _ _ _ _ Hf' Hf).
  rewrite (map_seq_nth fneg f_i n Hf).
  rewrite (map_seq_nth (fun x => fadd x (normalize_shift f_i n)) f_i n Hf).
  reflexivity.
Qed.

(** ** Lockstep runs on two scratch buffers *)

Lemma same_prefix_start (s1 s2 : list D) :
  length s1 = length s2 -> same_prefix 0 s1 s2.
Proof. intros H. split; [assumption|reflexivity]. Qed.

Lemma store_same_prefix (s1 s2 : list D) i v :
  same_prefix i s1 s2 ->
  orel (same_prefix (S i)) (store s1 i v) (store s2 i v).
Proof.
  intros [Hl Hp]. unfold store. rewrite <- Hl.
  destruct (Nat.ltb_spec i (length s1)) as [Hi|Hi]; [|exact I].
  cbn [orel]. split.
  - rewrite !length_app. cbn [length].
    rewrite !length_firstn, !length_skipn. lia.
  - rewrite !firstn_app, !length_firstn.
    replace (S i - Nat.min i (length s1)) with 1 by lia.
    replace (S i - Nat.min i (length s2)) with 1 by lia.
    rewrite !firstn_firstn. replace (Nat.min (S i) i) with i by lia.
    rewrite Hp.
    change (firstn 1 (v :: ?l)) with (v :: firstn 0 l). reflexivity.
Qed.

Lemma call_logsumexp_same_prefix (s1 s2 : list D) n :
  same_prefix (Z.to_nat n) s1 s2 -> call_logsumexp s1 n = call_logsumexp s2 n.
Proof.
  intros [Hl Hp]. unfold call_logsumexp. cbv zeta. rewrite Hl, Hp. reflexivity.
Qed.

Lemma rc_wham_fi_row_rel log_N_K f_K b_K_i T M i (s1 s2 : list D) :
  length s1 = length s2 ->
  orel (same_prefix (Z.to_nat T))
    (rc_wham_fi_row log_N_K f_K b_K_i T M i s1)
    (rc_wham_fi_row log_N_K f_K b_K_i T M i s2).
Proof.
  intros Hl. unfold rc_wham_fi_row.
  apply (for_up_rel same_prefix); [now apply same_prefix_start|].
  intros K a b _ Hab.
  destruct (load log_N_K K); [|exact I].
  destruct (c_int (Z.of_nat K * M)) as [KM|]; [|exact I].
  destruct (c_int (KM + Z.of_nat i)) as [j|]; [|exact I].
  destruct (load b_K_i (Z.to_nat j)); [|exact I].
  destruct (load f_K K); [|exact I].
  now apply store_same_prefix.
Qed.

Lemma rc_wham_fk_row_rel f_i b_K_i M K (s1 s2 : list D) :
  length s1 = length s2 ->
  orel (same_prefix (Z.to_nat M))
    (rc_wham_fk_row f_i b_K_i M K s1) (rc_wham_fk_row f_i b_K_i M K s2).
Proof.
  intros Hl. unfold rc_wham_fk_row.
  destruct (c_int (Z.of_nat K * M)) as [KM|]; [|exact I].
  apply (for_up_rel same_prefix); [now apply same_prefix_start|].
  intros i a b _ Hab.
  destruct (c_int (KM + Z.of_nat i)) as [j|]; [|exact I].
  destruct (load b_K_i (Z.to_nat j)); [|exact I].
  destruct (load f_i i); [|exact I].
  now apply store_same_prefix.
Qed.

Lemma same_output_snd (r1 r2 : option (list D * list D)) :
  orel same_output r1 r2 -> option_map snd r1 = option_map snd r2.
Proof.
  destruct r1 as [[a b]|], r2 as [[c d]|]; cbn; try contradiction; try reflexivity.
  intros [_ E]. cbn in E. congruence.
Qed.

Lemma rc_wham_fi_rel log_N_K log_N_i f_K b_K_i T M (s1 s2 f_i : list D) :
  length s1 = length s2 ->
  orel same_output
    (rc_wham_fi log_N_K log_N_i f_K b_K_i T M s1 f_i)
    (rc_wham_fi log_N_K log_N_i f_K b_K_i T M s2 f_i).
Proof.
  intros Hl. unfold rc_wham_fi.
  apply (for_up_rel (fun _ => same_output)); [split; [assumption|reflexivity]|].
  intros i [a f] [b g] _ [Hab Hfg]. cbn [fst snd] in *. subst g.
  assert (Hrow := rc_wham_fi_row_rel log_N_K f_K b_K_i T M i a b Hab).
  destruct (rc_wham_fi_row log_N_K f_K b_K_i T M i a) as [a'|],
           (rc_wham_fi_row log_N_K f_K b_K_i T M i b) as [b'|];
    cbn in Hrow; try contradiction; [|exact I].
  rewrite (call_logsumexp_same_prefix a' b' T Hrow).
  destruct (call_logsumexp b' T) as [l|]; [|exact I].
  destruct (load log_N_i i) as [c|]; [|exact I].
  destruct (store f i (fsub l c)); [|exact I].
  split; [apply Hrow|reflexivity].
Qed.

Lemma rc_wham_fk_rel f_i b_K_i T M (s1 s2 f_K : list D) :
  length s1 = length s2 ->
  orel same_output
    (rc_wham_fk f_i b_K_i T M s1 f_K) (rc_wham_fk f_i b_K_i T M s2 f_K).
Proof.
  intros Hl. unfold rc_wham_fk.
  apply (for_up_rel (fun _ => same_output)); [split; [assumption|reflexivity]|].
  intros K [a f] [b g] _ [Hab Hfg]. cbn [fst snd] in *. subst g.
  assert (Hrow := rc_wham_fk_row_rel f_i b_K_i M K a b Hab).
  destruct (rc_wham_fk_row f_i b_K_i M K a) as [a'|],
           (rc_wham_fk_row f_i b_K_i M K b) as [b'|];
    cbn in Hrow; try contradiction; [|exact I].
  rewrite (call_logsumexp_same_prefix a' b' M Hrow).
  destruct (call_logsumexp b' M) as [l|]; [|exact I].
  destruct (store f K (fneg l)); [|exact I].
  split; [apply Hrow|reflexivity].
Qed.

Lemma rc_wham_normalize_rel f_i n (s1 s2 : list D) :
  length s1 = length s2 ->
  option_map fst (rc_wham_normalize f_i n s1) =
  option_map fst (rc_wham_normalize f_i n s2).
Proof.
  intros Hl. unfold rc_wham_normalize.
  assert (Hrow : orel (same_prefix (Z.to_nat n))
            (for_up (Z.to_nat n) 0
               (fun i s => x <- load f_i i ;; store s i (fneg x)) s1)
            (for_up (Z.to_nat n) 0
               (fun i s => x <- load f_i i ;; store s i (fneg x)) s2)).
  { apply (for_up_rel same_prefix); [now apply same_prefix_start|].
    intros i a b _ Hab. destruct (load f_i i); [|exact I].
    now apply store_same_prefix. }
  destruct (for_up (Z.to_nat n) 0 _ s1) as [a'|],
           (for_up (Z.to_nat n) 0 _ s2) as [b'|];
    cbn in Hrow; try contradiction; [|reflexivity].
  rewrite (call_logsumexp_same_prefix a' b' n Hrow).
  destruct (call_logsumexp b' n); [|reflexivity].
  destruct (for_up (Z.to_nat n) 0 _ f_i); reflexivity.
Qed.

End WhamFacts.

(* ================================================================== *)
(** * Properties: the log-sum-exp model on idealised doubles *)

Section LogSumExpFacts.
Local Open Scope R_scope.

Lemma Rltb_true a b : a < b -> Rltb a b = true.
Proof. intros H. unfold Rltb. destruct (Rlt_dec a b); [reflexivity|contradiction]. Qed.

Lemma Rltb_false a b : ~ a < b -> Rltb a b = false.
Proof. intros H. unfold Rltb. destruct (Rlt_dec a b); [contradiction|reflexivity]. Qed.

Lemma dsum_Fin (es : list R) : dsum (map Fin es) = Fin (Rsum es).
Proof.
  unfold dsum. assert (H : forall a, fold_left dadd (map Fin es) (Fin a) = Fin (a + Rsum es)).
  { induction es as [|e es IH]; intros a; cbn [map fold_left Rsum].
    - f_equal. lra.
    - cbn [dadd]. rewrite IH. f_equal. lra. }
  rewrite H. f_equal. lra.
Qed.

Lemma Rsum_scal {X : Type} c (f : X -> R) l :
  Rsum (map (fun x => c * f x) l) = c * Rsum (map f l).
Proof. induction l as [|x l IH]; cbn [map Rsum]; [lra|rewrite IH; lra]. Qed.

Lemma Rsum_nonneg l : Forall (fun x => 0 <= x) l -> 0 <= Rsum l.
Proof. induction 1; cbn [Rsum]; lra. Qed.

Lemma ew_nonneg x : 0 <= ew x.
Proof. destruct x; cbn; try lra. left. apply exp_pos. Qed.

Lemma Rsum_ew_nonneg v : 0 <= Rsum (map ew v).
Proof.
  apply Rsum_nonneg. apply Forall_forall. intros y Hy.
  apply in_map_iff in Hy as (x & <- & _). apply ew_nonneg.
Qed.

Lemma fold_dadd_NaN w : fold_left dadd w NaN = NaN.
Proof.
  induction w as [|y w IH]; [reflexivity|]. cbn [fold_left].
  replace (dadd NaN y) with NaN by (destruct y; reflexivity). exact IH.
Qed.

Lemma fold_dadd_PInf w :
  Forall (fun y => y <> NInf) w ->
  fold_left dadd w PInf = NaN \/ fold_left dadd w PInf = PInf.
Proof.
  induction 1 as [|y w Hy _ IH]; [now right|]. cbn [fold_left].
  destruct y; cbn [dadd]; try congruence; try exact IH.
  left. apply fold_dadd_NaN.
Qed.

(** A sum that comes out finite had only finite summands, none of them
    negative infinity. *)
Lemma fold_dadd_finite w : forall acc t,
  Forall (fun y => y <> NInf) w -> acc <> NInf ->
  fold_left dadd w acc = Fin t ->
  Forall (fun y => exists e, y = Fin e) w.
Proof.
  induction w as [|y w IH]; intros acc t Hw Hacc E; [constructor|].
  inversion Hw as [|? ? Hy Hw']; subst. cbn [fold_left] in E.
  assert (Hay : dadd acc y <> NInf) by (destruct acc, y; cbn; congruence).
  constructor; [|exact (IH _ _ Hw' Hay E)].
  destruct y as [| | |e]; [| congruence | |eauto]; exfalso.
  - replace (dadd acc NaN) with NaN in E by (destruct acc; reflexivity).
    rewrite fold_dadd_NaN in E. discriminate.
  - destruct acc; cbn [dadd] in E; try congruence.
    + rewrite fold_dadd_NaN in E. discriminate.
    + destruct (fold_dadd_PInf w Hw'); congruence.
    + destruct (fold_dadd_PInf w Hw'); congruence.
Qed.

Lemma dexp_not_ninf x : dexp x <> NInf.
Proof. destruct x; cbn; congruence. Qed.

(** The shifted exponentials of a vector of log-weights. *)
Lemma shifted_exps (m : R) (v : list dbl) :
  Forall log_weight v ->
  map (fun x => dexp (dsub x (Fin m))) v =
  map Fin (map (fun x => exp (- m) * ew x) v).
Proof.
  induction 1 as [|x v Hx _ IH]; [reflexivity|].
  cbn [map]. rewrite IH. f_equal.
  destruct Hx as [-> | [r ->]]; cbn.
  - f_equal. lra.
  - f_equal. rewrite <- exp_plus. f_equal. lra.
Qed.

Lemma forallb_is_ninf_false v :
  Forall log_weight v -> 0 < Rsum (map ew v) -> forallb is_ninf v = false.
Proof.
  induction 1 as [|x v Hx _ IH]; cbn [map Rsum forallb]; [lra|].
  intros Hpos. destruct Hx as [-> | [r ->]]; cbn [is_ninf ew andb] in *.
  - apply IH. lra.
  - reflexivity.
Qed.

(** On log-weights that are not all excluded, the primitive is finite and
    is the logarithm of the total weight. *)
Lemma lse_spec_log_weights v :
  Forall log_weight v -> 0 < Rsum (map ew v) ->
  lse_spec v = Fin (ln (Rsum (map ew v))).
Proof.
  intros Hv Hpos. unfold lse_spec.
  rewrite (forallb_is_ninf_false v Hv Hpos).
  set (m := match max_finite v with Some m => m | None => 0 end).
  cbv zeta. rewrite (shifted_exps m v Hv), dsum_Fin, Rsum_scal.
  assert (He : 0 < exp (- m)) by apply exp_pos.
  assert (Hprod : 0 < exp (- m) * Rsum (map ew v))
    by (apply Rmult_lt_0_compat; assumption).
  cbn [dlog]. rewrite (Rltb_true _ _ Hprod). cbn [dadd]. f_equal.
  rewrite ln_mult by assumption. rewrite ln_exp. lra.
Qed.

(** Conversely, a finite result was computed from log-weights, not all of
    them excluded. *)
Lemma lse_spec_finite_inv v s :
  lse_spec v = Fin s ->
  Forall log_weight v /\ 0 < Rsum (map ew v) /\ s = ln (Rsum (map ew v)).
Proof.
  intros E. assert (Hv : Forall log_weight v).
  { unfold lse_spec in E. destruct (forallb is_ninf v); [discriminate|].
    set (m := match max_finite v with Some m => m | None => 0 end) in E.
    cbv zeta in E.
    destruct (dsum (map (fun x => dexp (dsub x (Fin m))) v)) as [| | |t] eqn:Es;
      try discriminate E.
    unfold dsum in Es. apply fold_dadd_finite in Es; [|
      apply Forall_forall; intros y Hy; apply in_map_iff in Hy as (x & <- & _);
      apply dexp_not_ninf | discriminate].
    apply Forall_forall. intros x Hx.
    rewrite Forall_forall in Es.
    destruct (Es (dexp (dsub x (Fin m)))) as [e He].
    { apply in_map_iff. eauto. }
    destruct x as [| | |r]; cbn in He; try discriminate; [left|right]; eauto. }
  assert (Hpos : 0 < Rsum (map ew v)).
  { destruct (Rsum_ew_nonneg v) as [H|H]; [assumption|exfalso].
    assert (Hall : forallb is_ninf v = true).
    { clear E. induction Hv as [|x v Hx _ IH]; [reflexivity|].
      cbn [map Rsum forallb] in *.
      assert (0 <= Rsum (map ew v)) by apply Rsum_ew_nonneg.
      destruct Hx as [-> | [r ->]]; cbn [is_ninf ew andb] in *.
      - apply IH. lra.
      - assert (0 < exp r) by apply exp_pos. lra. }
    unfold lse_spec in E. rewrite Hall in E. discriminate. }
  rewrite (lse_spec_log_weights v Hv Hpos) in E.
  repeat split; try assumption. congruence.
Qed.

End LogSumExpFacts.

Section NormalizeFacts.
Local Open Scope R_scope.

Lemma log_weights_exp w :
  Forall log_weight w -> map dexp w = map Fin (map ew w).
Proof.
  induction 1 as [|x w Hx _ IH]; [reflexivity|]. cbn [map]. rewrite IH.
  destruct Hx as [-> | [r ->]]; reflexivity.
Qed.

Lemma total_weight_log_weights f :
  Forall log_weight (map dneg f) ->
  total_weight f = Fin (Rsum (map ew (map dneg f))).
Proof.
  intros H. unfold total_weight. rewrite <- (map_map dneg dexp).
  rewrite (log_weights_exp _ H). apply dsum_Fin.
Qed.

(** Shifting free energies by a finite [s] keeps their negations
    log-weights and scales every weight by [exp (- s)]. *)
Lemma shift_log_weights (s : R) (u : list dbl) :
  Forall log_weight (map dneg u) ->
  Forall log_weight (map dneg (map (fun x => dadd x (Fin s)) u)) /\
  map ew (map dneg (map (fun x => dadd x (Fin s)) u)) =
  map (fun y => exp (- s) * ew y) (map dneg u).
Proof.
  induction u as [|x u IH]; cbn [map]; intros H; [split; [constructor|reflexivity]|].
  inversion H as [|? ? Hx Hu]; subst. destruct (IH Hu) as [IH1 IH2].
  split.
  - constructor; [|assumption].
    destruct x as [| | |a]; destruct Hx as [Hx | [r Hx]]; cbn in *;
      try discriminate; [left|right]; eauto.
  - rewrite IH2. f_equal.
    destruct x as [| | |a]; destruct Hx as [Hx | [r Hx]]; cbn in *;
      try discriminate; try lra.
    rewrite <- exp_plus. f_equal. lra.
Qed.


(** After the shift by [ln] of the total weight, the total weight is one. *)
Lemma shifted_total_weight (u : list dbl) s :
  lse_spec (map dneg u) = Fin s ->
  let u' := map (fun x => dadd x (Fin s)) u in
  Forall log_weight (map dneg u') /\ Rsum (map ew (map dneg u')) = 1.
Proof.
  intros E u'. apply lse_spec_finite_inv in E as (Hv & Hpos & ->).
  destruct (shift_log_weights (ln (Rsum (map ew (map dneg u)))) u Hv) as [H1 H2].
  split; [exact H1|]. unfold u'. rewrite H2, map_map, Rsum_scal.
  rewrite <- (map_map dneg ew), exp_Ropp, exp_ln by assumption.
  apply Rinv_l. lra.
Qed.

Lemma firstn_app_exact {X : Type} (a b : list X) n :
  length a = n -> firstn n (a ++ b) = a.
Proof.
  intros <-. rewrite firstn_app, Nat.sub_diag, firstn_all. cbn [firstn].
  apply app_nil_r.
Qed.

Lemma length_map_firstn {X Y : Type} (g : X -> Y) (l : list X) n :
  (n <= length l)%nat -> length (map g (firstn n l)) = n.
Proof. intros H. rewrite length_map, length_firstn. lia. Qed.

(** ** Finite vectors *)

Lemma ew_Fin l : map ew (map Fin l) = map exp l.
Proof. rewrite map_map. reflexivity. Qed.

Lemma Fin_log_weights l : Forall log_weight (map Fin l).
Proof.
  apply Forall_forall. intros y Hy. apply in_map_iff in Hy as (r & <- & _).
  right. eauto.
Qed.

Lemma Rsum_exp_pos x rs : 0 < Rsum (map exp (x :: rs)).
Proof.
  cbn [map Rsum]. assert (0 < exp x) by apply exp_pos.
  assert (0 <= Rsum (map exp rs)).
  { apply Rsum_nonneg, Forall_forall. intros y Hy.
    apply in_map_iff in Hy as (r & <- & _). left. apply exp_pos. }
  lra.
Qed.

Lemma exp_max_le_sum x rs : exp (Rlist_max x rs) <= Rsum (map exp (x :: rs)).
Proof.
  unfold Rlist_max. induction rs as [|r rs IH]; cbn [fold_right map Rsum] in *.
  - lra.
  - assert (0 < exp r) by apply exp_pos. assert (0 < exp x) by apply exp_pos.
    assert (0 <= Rsum (map exp rs)).
    { apply Rsum_nonneg, Forall_forall. intros y Hy.
      apply in_map_iff in Hy as (z & <- & _). left. apply exp_pos. }
    apply Rmax_case_strong; intros _; lra.
Qed.

Lemma lse_spec_Fin x rs :
  lse_spec (map Fin (x :: rs)) = Fin (ln (Rsum (map exp (x :: rs)))).
Proof.
  rewrite lse_spec_log_weights; rewrite ?ew_Fin;
    [reflexivity|apply Fin_log_weights|apply Rsum_exp_pos].
Qed.

Lemma max_le_ln_sum x rs : Rlist_max x rs <= ln (Rsum (map exp (x :: rs))).
Proof.
  rewrite <- (ln_exp (Rlist_max x rs)) at 1.
  destruct (exp_max_le_sum x rs) as [Hlt|Heq].
  - left. apply ln_increasing; [apply exp_pos|assumption].
  - rewrite Heq. right. reflexivity.
Qed.

Lemma all_equal_sum x rs :
  (forall r, In r rs -> r = x) ->
  Rlist_max x rs = x /\
  Rsum (map exp (x :: rs)) = INR (length (x :: rs)) * exp x.
Proof.
  unfold Rlist_max. induction rs as [|r rs IH]; intros Hall.
  - cbn. split; lra.
  - destruct IH as [IH1 IH2]; [intros; apply Hall; now right|].
    rewrite (Hall r) by now left. split.
    + cbn [fold_right]. rewrite IH1. apply Rmax_left. lra.
    + change (length (x :: x :: rs)) with (S (length (x :: rs))).
      rewrite S_INR. cbn [map Rsum] in *. lra.
Qed.

Lemma lse_spec_all_ninf N : lse_spec (repeat NInf N) = NInf.
Proof.
  unfold lse_spec.
  assert (H : forallb is_ninf (repeat NInf N) = true)
    by (induction N; [reflexivity|assumption]).
  rewrite H. reflexivity.
Qed.

(** One call of [rc_wham_normalize] on idealised doubles, for a finite shift. *)
Lemma normalize_once (f_i scratch : list dbl) n s :
  (n <= length f_i)%nat -> (n <= length scratch)%nat ->
  lse_spec (map dneg (firstn n f_i)) = Fin s ->
  let f' := map (fun x => dadd x (Fin s)) (firstn n f_i) ++ skipn n f_i in
  let s' := map dneg (firstn n f_i) ++ skipn n scratch in
  rc_wham_normalize f_i (Z.of_nat n) scratch = Some (f', s') /\
  firstn n f' = map (fun x => dadd x (Fin s)) (firstn n f_i) /\
  length f' = length f_i /\ length s' = length scratch.
Proof.
  intros Hf Hs E f' s'. split; [|split; [|split]].
  - rewrite (rc_wham_normalize_eq f_i n scratch Hf Hs).
    unfold normalize_shift. change (@rc_logsumexp dbl dbl_lse) with lse_spec.
    change (@fneg dbl dbl_ops) with dneg. change (@fadd dbl dbl_ops) with dadd.
    rewrite E. reflexivity.
  - apply firstn_app_exact, length_map_firstn. assumption.
  - unfold f'. rewrite length_app, length_map, length_firstn, length_skipn. lia.
  - unfold s'. rewrite length_app, length_map, length_firstn, length_skipn. lia.
Qed.

End NormalizeFacts.

(* ================================================================== *)
(** * The WHAM kernels: main results *)

(** C2.  For sizes that fit the buffers, [rc_wham_fk] returns, and for every
    thermodynamic state [K < n_therm_states] the cell [f_K[K]] holds the
    negated log-sum-exp, over the configurational states
    [i < n_markov_states], of [-(b_K_i[K * n_markov_states + i] + f_i[i])];
    the other cells of [f_K] are untouched, and of [scratch] only the first
    [n_markov_states] cells are written. *)
Theorem rc_wham_fk_correct {D : Type} {ops : FloatOps D} {lse : LogSumExp D}
    (f_i b_K_i : list D) (n_therm_states n_markov_states : nat)
    (scratch f_K : list D) :
  (Z.of_nat n_therm_states * Z.of_nat n_markov_states <= INT_MAX)%Z ->
  n_markov_states <= length f_i ->
  n_therm_states * n_markov_states <= length b_K_i ->
  n_markov_states <= length scratch ->
  n_therm_states <= length f_K ->
  exists scratch' f_K',
    rc_wham_fk f_i b_K_i (Z.of_nat n_therm_states) (Z.of_nat n_markov_states)
               scratch f_K = Some (scratch', f_K') /\
    (forall K, K < n_therm_states ->
       nth_error f_K' K =
       Some (fneg (rc_logsumexp
                     (map (fun i => fneg (fadd (nth (K * n_markov_states + i)
                                                     b_K_i fzero)
                                               (nth i f_i fzero)))
                          (seq 0 n_markov_states))))) /\
    (forall K, n_therm_states <= K -> nth_error f_K' K = nth_error f_K K) /\
    length f_K' = length f_K /\
    length scratch' = length scratch /\
    (forall j, n_markov_states <= j -> nth_error scratch' j = nth_error scratch j).
Proof.
  intros Hmax Hf Hb Hs HK.
  destruct (rc_wham_fk_filled f_i b_K_i n_therm_states n_markov_states
              scratch f_K Hmax Hf Hb Hs HK)
    as ([s' f'] & E & [Hl Hk] & [Hfl Hfp]).
  cbn [fst snd] in *. exists s', f'. repeat split; try assumption.
  - intros K HKlt. rewrite Hfp.
    destruct (Nat.ltb_spec K n_therm_states); [reflexivity|lia].
  - intros K HKge. rewrite Hfp.
    destruct (Nat.ltb_spec K n_therm_states); [lia|reflexivity].
Qed.

Lemma rc_wham_fk_correct_witness :
  exists scratch' f_K',
    rc_wham_fk [Fin 0; Fin 1] [Fin 0; Fin 0; Fin 2; Fin 3] 2%Z 2%Z
               [NaN; NaN; NaN] [NaN; NaN; Fin 7] = Some (scratch', f_K') /\
    nth_error f_K' 1 =
      Some (dneg (lse_spec [dneg (dadd (Fin 2) (Fin 0));
                            dneg (dadd (Fin 3) (Fin 1))])) /\
    nth_error f_K' 2 = Some (Fin 7).
Proof.
  destruct (rc_wham_fk_correct [Fin 0; Fin 1] [Fin 0; Fin 0; Fin 2; Fin 3] 2 2
              [NaN; NaN; NaN] [NaN; NaN; Fin 7] ltac:(cbv; discriminate)
              ltac:(cbn; lia) ltac:(cbn; lia) ltac:(cbn; lia) ltac:(cbn; lia))
    as (s' & f' & E & Hin & Hout & _).
  exists s', f'. split; [exact E|]. split.
  - apply (Hin 1%nat). lia.
  - rewrite (Hout 2%nat) by lia. reflexivity.
Defined.

(** C3, as the code has it.  For sizes that fit the buffers, [rc_wham_fi]
    returns, and for every configurational state [i < n_markov_states] the
    cell [f_i[i]] holds the log-sum-exp, over the thermodynamic states
    [K < n_therm_states], of
    [log_N_K[K] - b_K_i[K * n_markov_states + i] + f_K[K]], minus
    [log_N_i[i]]. *)
Theorem rc_wham_fi_correct {D : Type} {ops : FloatOps D} {lse : LogSumExp D}
    (log_N_K log_N_i f_K b_K_i : list D) (n_therm_states n_markov_states : nat)
    (scratch f_i : list D) :
  (Z.of_nat n_therm_states * Z.of_nat n_markov_states <= INT_MAX)%Z ->
  n_therm_states <= length log_N_K ->
  n_markov_states <= length log_N_i ->
  n_therm_states <= length f_K ->
  n_therm_states * n_markov_states <= length b_K_i ->
  n_therm_states <= length scratch ->
  n_markov_states <= length f_i ->
  exists scratch' f_i',
    rc_wham_fi log_N_K log_N_i f_K b_K_i
               (Z.of_nat n_therm_states) (Z.of_nat n_markov_states)
               scratch f_i = Some (scratch', f_i') /\
    (forall i, i < n_markov_states ->
       nth_error f_i' i =
       Some (fsub (rc_logsumexp
                     (map (fun K => fadd (fsub (nth K log_N_K fzero)
                                               (nth (K * n_markov_states + i)
                                                    b_K_i fzero))
                                         (nth K f_K fzero))
                          (seq 0 n_therm_states)))
                  (nth i log_N_i fzero))) /\
    (forall i, n_markov_states <= i -> nth_error f_i' i = nth_error f_i i) /\
    length f_i' = length f_i.
Proof.
  intros Hmax HN Hn Hf Hb Hs Hi.
  destruct (rc_wham_fi_filled log_N_K log_N_i f_K b_K_i n_therm_states
              n_markov_states scratch f_i Hmax HN Hn Hf Hb Hs Hi)
    as ([s' f'] & E & _ & [Hfl Hfp]).
  cbn [fst snd] in *. exists s', f'. repeat split; try assumption.
  - intros i Hlt. rewrite Hfp.
    destruct (Nat.ltb_spec i n_markov_states); [reflexivity|lia].
  - intros i Hge. rewrite Hfp.
    destruct (Nat.ltb_spec i n_markov_states); [lia|reflexivity].
Qed.

Lemma rc_wham_fi_correct_witness :
  exists scratch' f_i',
    rc_wham_fi [Fin 0] [Fin 1] [Fin 0] [Fin 0] 1%Z 1%Z [NaN] [NaN]
      = Some (scratch', f_i') /\
    nth_error f_i' 0 =
      Some (dsub (lse_spec [dadd (dsub (Fin 0) (Fin 0)) (Fin 0)]) (Fin 1)).
Proof.
  destruct (rc_wham_fi_correct [Fin 0] [Fin 1] [Fin 0] [Fin 0] 1 1 [NaN] [NaN]
              ltac:(cbv; discriminate)
              ltac:(cbn; lia) ltac:(cbn; lia) ltac:(cbn; lia)
              ltac:(cbn; lia) ltac:(cbn; lia) ltac:(cbn; lia))
    as (s' & f' & E & Hin & _).
  exists s', f'. split; [exact E|]. apply (Hin 0%nat). lia.
Defined.

(** C3, as stated, fails: with one thermodynamic and one configurational
    state, [log_N_i = [1]] and all other inputs zero, the cell [f_i[0]] is
    not the log-sum-exp of the single term [log_N_K[0] + f_K[0] - b_K_i[0]]. *)
Lemma rc_wham_fi_not_plain_logsumexp :
  exists scratch' f_i',
    rc_wham_fi [Fin 0] [Fin 1] [Fin 0] [Fin 0] 1%Z 1%Z [NaN] [NaN]
      = Some (scratch', f_i') /\
    nth_error f_i' 0 <>
      Some (lse_spec [dsub (dadd (Fin 0) (Fin 0)) (Fin 0)]).
Proof.
  destruct (rc_wham_fi_filled [Fin 0] [Fin 1] [Fin 0] [Fin 0] 1 1 [NaN] [NaN]
              ltac:(cbv; discriminate)
              ltac:(cbn; lia) ltac:(cbn; lia) ltac:(cbn; lia)
              ltac:(cbn; lia) ltac:(cbn; lia) ltac:(cbn; lia))
    as ([s' f'] & E & _ & [_ Hp]).
  exists s', f'. split; [exact E|]. cbn [snd] in Hp. rewrite Hp.
  change (0 <? 1) with true. cbv iota.
  unfold fi_value, fi_term. cbn [map seq nth Nat.mul Nat.add].
  change (@rc_logsumexp dbl dbl_lse) with lse_spec.
  change (@fsub dbl dbl_ops) with dsub. change (@fadd dbl dbl_ops) with dadd.
  change (@fzero dbl dbl_ops) with (Fin 0). cbn [dsub dadd dneg].
  assert (L : forall a, lse_spec [Fin a] = Fin (ln (exp a + 0)))
    by (intros a; exact (lse_spec_Fin a [])).
  rewrite !L. cbn [dadd]. intros H. injection H as H.
  replace (0 + - 0 + 0)%R with 0%R in H by lra.
  replace (0 + 0 + - 0)%R with 0%R in H by lra.
  lra.
Qed.

(** C4.  On idealised doubles, when the log-sum-exp of [- f_i[0 .. n)] is a
    finite [s], [rc_wham_normalize] returns, having added the one value [s] to
    each of the first [n] cells of [f_i] and left the others alone; the
    weights [exp (- f_i[i])] of the result then add up to one. *)
Theorem rc_wham_normalize_sums_to_one
    (f_i scratch : list dbl) (n_markov_states : nat) (s : R) :
  n_markov_states <= length f_i ->
  n_markov_states <= length scratch ->
  lse_spec (map dneg (firstn n_markov_states f_i)) = Fin s ->
  exists f_i' scratch',
    rc_wham_normalize f_i (Z.of_nat n_markov_states) scratch
      = Some (f_i', scratch') /\
    f_i' = map (fun x => dadd x (Fin s)) (firstn n_markov_states f_i)
             ++ skipn n_markov_states f_i /\
    total_weight (firstn n_markov_states f_i') = Fin 1.
Proof.
  intros Hf Hs E.
  destruct (normalize_once f_i scratch n_markov_states s Hf Hs E)
    as (E1 & Hfirst & _ & _).
  eexists. eexists. split; [exact E1|]. split; [reflexivity|].
  rewrite Hfirst.
  destruct (shifted_total_weight _ _ E) as [Hlw Hsum]. cbv zeta in Hlw, Hsum.
  rewrite (total_weight_log_weights _ Hlw), Hsum. reflexivity.
Qed.

Lemma rc_wham_normalize_sums_to_one_witness :
  exists f_i' scratch',
    rc_wham_normalize [Fin 0; PInf; Fin 5] 2%Z [NaN; NaN]
      = Some (f_i', scratch') /\
    f_i' = map (fun x => dadd x (Fin (ln (Rsum (map ew [Fin (- 0); NInf])))))
               [Fin 0; PInf] ++ [Fin 5] /\
    total_weight (firstn 2 f_i') = Fin 1.
Proof.
  apply (rc_wham_normalize_sums_to_one [Fin 0; PInf; Fin 5] [NaN; NaN] 2
           (ln (Rsum (map ew [Fin (- 0); NInf])))).
  - cbn. lia.
  - cbn. lia.
  - apply (lse_spec_log_weights [Fin (- 0); NInf]).
    + constructor; [right; eauto|constructor; [left; reflexivity|constructor]].
    + cbn. assert (H := exp_pos (- 0)). lra.
Defined.



(** C8.  The log-sum-exp primitive, on a vector [v] of [N >= 1] finite
    values: the result is finite and at least [max v]; when all entries are
    equal it is [max v + ln N], so [[-1; -1; -1]] gives [-1 + ln 3]; and a
    vector of negative infinities gives negative infinity. *)
Theorem lse_spec_bounds (x : R) (rs : list R) :
  let v := map Fin (x :: rs) in
  (exists s, lse_spec v = Fin s /\ (Rlist_max x rs <= s)%R) /\
  ((forall r, In r rs -> r = x) ->
     lse_spec v = Fin (Rlist_max x rs + ln (INR (length v)))) /\
  lse_spec [Fin (-1); Fin (-1); Fin (-1)] = Fin (-1 + ln 3) /\
  (forall N, lse_spec (repeat NInf N) = NInf).
Proof.
  intros v. unfold v. split; [|split; [|split]].
  - exists (ln (Rsum (map exp (x :: rs)))).
    split; [apply lse_spec_Fin|apply max_le_ln_sum].
  - intros Hall. destruct (all_equal_sum x rs Hall) as [Hmax Hsum].
    rewrite lse_spec_Fin, Hsum, Hmax, length_map. f_equal.
    rewrite ln_mult; [rewrite ln_exp; lra| |apply exp_pos].
    apply lt_0_INR. cbn. lia.
  - change [Fin (-1); Fin (-1); Fin (-1)] with (map Fin [-1; -1; -1]%R).
    rewrite lse_spec_Fin. f_equal. cbn [map Rsum].
    replace (exp (-1) + (exp (-1) + (exp (-1) + 0)))%R with (3 * exp (-1))%R by lra.
    rewrite ln_mult; [rewrite ln_exp; lra|lra|apply exp_pos].
  - apply lse_spec_all_ninf.
Qed.

Lemma lse_spec_bounds_witness :
  lse_spec (map Fin [2; 2]%R) = Fin (Rlist_max 2 [2%R] + ln (INR 2)).
Proof.
  apply (proj1 (proj2 (lse_spec_bounds 2 [2%R]))).
  intros r [<-|[]]. reflexivity.
Defined.

(** C9.  For each of the three kernels, two calls that differ only in the
    initial contents of the scratch buffer end alike (both outside a buffer,
    or both returning) and return the same output array. *)
Theorem scratch_independence {D : Type} {ops : FloatOps D} {lse : LogSumExp D}
    (log_N_K log_N_i f_K b_K_i f_i : list D)
    (n_therm_states n_markov_states : Z) (scratch1 scratch2 : list D) :
  length scratch1 = length scratch2 ->
  option_map snd (rc_wham_fi log_N_K log_N_i f_K b_K_i
                    n_therm_states n_markov_states scratch1 f_i) =
  option_map snd (rc_wham_fi log_N_K log_N_i f_K b_K_i
                    n_therm_states n_markov_states scratch2 f_i) /\
  option_map snd (rc_wham_fk f_i b_K_i
                    n_therm_states n_markov_states scratch1 f_K) =
  option_map snd (rc_wham_fk f_i b_K_i
                    n_therm_states n_markov_states scratch2 f_K) /\
  option_map fst (rc_wham_normalize f_i n_markov_states scratch1) =
  option_map fst (rc_wham_normalize f_i n_markov_states scratch2).
Proof.
  intros Hl. split; [|split].
  - apply same_output_snd, rc_wham_fi_rel, Hl.
  - apply same_output_snd, rc_wham_fk_rel, Hl.
  - apply rc_wham_normalize_rel, Hl.
Qed.

Lemma scratch_independence_witness :
  option_map snd (rc_wham_fi [Fin 0] [Fin 1; Fin 2] [Fin 3] [Fin 4; Fin 5]
                    1%Z 2%Z [NaN] [Fin 0; Fin 0]) =
  option_map snd (rc_wham_fi [Fin 0] [Fin 1; Fin 2] [Fin 3] [Fin 4; Fin 5]
                    1%Z 2%Z [Fin 9] [Fin 0; Fin 0]).
Proof.
  apply (scratch_independence [Fin 0] [Fin 1; Fin 2] [Fin 3] [Fin 4; Fin 5]
           [Fin 0; Fin 0] 1%Z 2%Z [NaN] [Fin 9]).
  reflexivity.
Defined.

(* ================================================================== *)
(** * Properties: the store *)

Section StoreFacts.
Context {D : Type}.

Implicit Types (h : heap D) (l : loc).

Lemma replace_at_lookup (r : list (ndarray D)) n (a : ndarray D) j :
  n < length r ->
  nth_error (replace_at n a r) j = if j =? n then Some a else nth_error r j.
Proof.
  intros Hn. apply (store_lookup r (replace_at n a r) n a j).
  unfold store, replace_at. destruct (Nat.ltb_spec n (length r)); [reflexivity|lia].
Qed.

Lemma lookup_update_eq h l (a a0 : ndarray D) :
  lookup h l = Some a0 -> lookup (update h l a) l = Some a.
Proof.
  destruct l as [n|n]; cbn [lookup update caller locals]; intros H;
    (rewrite replace_at_lookup, Nat.eqb_refl;
     [reflexivity|apply nth_error_Some; congruence]).
Qed.

Lemma lookup_update_neq h l l' (a a0 : ndarray D) :
  lookup h l = Some a0 -> l <> l' -> lookup (update h l a) l' = lookup h l'.
Proof.
  destruct l as [n|n], l' as [m|m]; cbn [lookup update caller locals];
    intros H Hne; try reflexivity;
    (rewrite replace_at_lookup by (apply nth_error_Some; congruence);
     destruct (Nat.eqb_spec m n); [congruence|reflexivity]).
Qed.

Lemma lookup_extend h l (a a' : ndarray D) :
  lookup h l = Some a -> lookup (extend h a') l = Some a.
Proof.
  destruct l as [n|n]; cbn [lookup extend caller locals]; intros H; [exact H|].
  rewrite nth_error_app1; [exact H|apply nth_error_Some; congruence].
Qed.

Lemma lookup_extend_fresh h (a : ndarray D) : lookup (extend h a) (fresh h) = Some a.
Proof.
  unfold fresh. cbn [lookup extend locals].
  rewrite nth_error_app2, Nat.sub_diag by lia. reflexivity.
Qed.

(** ** Running the primitives *)

Lemma bind_run {A B : Type} (m : M D A) (k : A -> M D B) h a h' :
  m h = Return a h' -> bind m k h = k a h'.
Proof. unfold bind. intros ->. reflexivity. Qed.

Lemma bind_raise {A B : Type} (m : M D A) (k : A -> M D B) h e h' :
  m h = Raise e h' -> bind m k h = Raise e h'.
Proof. unfold bind. intros ->. reflexivity. Qed.

Lemma bind_return_inv {A B : Type} (m : M D A) (k : A -> M D B) h b h' :
  bind m k h = Return b h' ->
  exists a h1, m h = Return a h1 /\ k a h1 = Return b h'.
Proof.
  unfold bind. destruct (m h) as [a h1| |]; try discriminate. eauto.
Qed.

Lemma run_get_int h l d :
  lookup h l = Some (IntArray d) -> get_int l h = Return d h.
Proof. unfold get_int. intros ->. reflexivity. Qed.

Lemma run_get_float h l sh d :
  lookup h l = Some (FloatArray sh d) -> get_float l h = Return (sh, d) h.
Proof. unfold get_float. intros ->. reflexivity. Qed.

Lemma run_get_buffer h l n sh d :
  lookup h l = Some (FloatArray sh d) -> length sh = n ->
  get_buffer n l h = Return (sh, d) h.
Proof.
  intros H <-. unfold get_buffer. rewrite (bind_run _ _ _ _ _ (run_get_float _ _ _ _ H)).
  cbn [fst]. rewrite Nat.eqb_refl. reflexivity.
Qed.

Lemma run_set_data h l sh d new :
  lookup h l = Some (FloatArray sh d) ->
  set_data l new h = Return tt (update h l (FloatArray sh (blit d new))).
Proof. unfold set_data. intros ->. reflexivity. Qed.

Lemma run_new_array h (a : ndarray D) : new_array a h = Return (fresh h) (extend h a).
Proof. reflexivity. Qed.

Lemma blit_length (buf new : list D) : length (blit buf new) = length buf.
Proof.
  unfold blit. rewrite length_app, length_firstn, length_skipn. lia.
Qed.

Lemma blit_same_length (buf new : list D) :
  length new = length buf -> blit buf new = new.
Proof.
  intros H. unfold blit. rewrite <- H, firstn_all. rewrite H, skipn_all.
  apply app_nil_r.
Qed.

End StoreFacts.

(* ================================================================== *)
(** * Properties: what [estimate] leaves alone *)

Section Frame.
Context {D : Type} {ops : FloatOps D} {srv : Services D}.

Lemma keeps_ret {A : Type} (a : A) (Q : A -> Prop) :
  Q a -> keeps (D := D) (ret a) Q.
Proof. intros H h. cbn. auto. Qed.

Lemma keeps_raise {A : Type} e (Q : A -> Prop) : keeps (D := D) (raise e) Q.
Proof. intros h. reflexivity. Qed.

Lemma keeps_bind {A B : Type} (m : M D A) (k : A -> M D B)
    (Q : A -> Prop) (R : B -> Prop) :
  keeps m Q -> (forall a, Q a -> keeps (k a) R) -> keeps (bind m k) R.
Proof.
  intros Hm Hk h. unfold bind. specialize (Hm h).
  destruct (m h) as [a h1|e h1|]; [|exact Hm|exact I].
  destruct Hm as [Hc Ha]. specialize (Hk a Ha h1).
  destruct (k a h1) as [b h2|e h2|]; [|congruence|exact I].
  destruct Hk as [Hc' Hb]. split; [congruence|assumption].
Qed.

Lemma keeps_new_array (a : ndarray D) : keeps (new_array a) is_local.
Proof. intros h. cbn. auto. Qed.

Lemma keeps_get_int l : keeps (D := D) (get_int l) (fun _ => True).
Proof.
  intros h. unfold get_int. destruct (lookup h l) as [[d|sh d]|]; cbn; auto.
Qed.

Lemma keeps_get_float l : keeps (D := D) (get_float l) (fun _ => True).
Proof.
  intros h. unfold get_float. destruct (lookup h l) as [[d|sh d]|]; cbn; auto.
Qed.

Lemma keeps_get_buffer n l : keeps (D := D) (get_buffer n l) (fun _ => True).
Proof.
  unfold get_buffer. apply (keeps_bind _ _ _ _ (keeps_get_float l)).
  intros a _. destruct (length (fst a) =? n);
    [now apply keeps_ret|apply keeps_raise].
Qed.

Lemma keeps_set_data l (new : list D) :
  is_local l -> keeps (set_data l new) (fun _ => True).
Proof.
  intros Hl h. unfold set_data.
  destruct (lookup h l) as [[d|sh d]|]; try exact I.
  destruct l as [n|n]; [contradiction|]. cbn. auto.
Qed.

Lemma keeps_np_max (v : list D) : keeps (np_max v) (fun _ => True).
Proof. destruct v; [apply keeps_raise|now apply keeps_ret]. Qed.

Lemma keeps_np_max_int (v : list Z) : keeps (D := D) (np_max_int v) (fun _ => True).
Proof. destruct v; [apply keeps_raise|now apply keeps_ret]. Qed.

Lemma keeps_np_zeros n : keeps (np_zeros n) is_local.
Proof.
  unfold np_zeros. destruct (n <? 0)%Z; [apply keeps_raise|apply keeps_new_array].
Qed.

Lemma keeps_np_ones n : keeps (np_ones n) is_local.
Proof. apply keeps_new_array. Qed.

Lemma keeps_for_range {St : Type} (body : nat -> St -> M D (St * bool)) n :
  (forall i st, keeps (body i st) (fun _ => True)) ->
  forall start st, keeps (for_range n start body st) (fun _ => True).
Proof.
  intros Hb. induction n as [|n IH]; intros start st; cbn [for_range].
  - now apply keeps_ret.
  - apply (keeps_bind _ _ _ _ (Hb start st)). intros r _.
    destruct (snd r); [now apply keeps_ret|apply IH].
Qed.

(** One more primitive step of a computation that keeps the caller's
    arrays. *)
Ltac keeps_step :=
  lazymatch goal with
  | |- @keeps _ _ (@ret _ _ _) _ => apply keeps_ret
  | |- @keeps _ _ (@raise _ _ _) _ => apply keeps_raise
  | |- @keeps _ _ (@bind _ _ _ (@get_int _ _) _) _ =>
      eapply keeps_bind; [apply keeps_get_int|intros ? _]
  | |- @keeps _ _ (@bind _ _ _ (@get_float _ _) _) _ =>
      eapply keeps_bind; [apply keeps_get_float|intros ? _]
  | |- @keeps _ _ (@bind _ _ _ (@get_buffer _ _ _) _) _ =>
      eapply keeps_bind; [apply keeps_get_buffer|intros ? _]
  | |- @keeps _ _ (@bind _ _ _ (@np_max _ _ _) _) _ =>
      eapply keeps_bind; [apply keeps_np_max|intros ? _]
  | |- @keeps _ _ (@bind _ _ _ (@np_max_int _ _) _) _ =>
      eapply keeps_bind; [apply keeps_np_max_int|intros ? _]
  | |- @keeps _ _ (@bind _ _ _ (@set_data _ _ _) _) _ =>
      eapply keeps_bind; [apply keeps_set_data; assumption|intros ? _]
  | |- @keeps _ _ (@bind _ _ _ (@new_array _ _) _) _ =>
      eapply keeps_bind; [apply keeps_new_array|intros ? ?]
  | |- @keeps _ _ (@bind _ _ _ (@np_zeros _ _ _) _) _ =>
      eapply keeps_bind; [apply keeps_np_zeros|intros ? ?]
  | |- @keeps _ _ (@bind _ _ _ (@np_ones _ _ _) _) _ =>
      eapply keeps_bind; [apply keeps_np_ones|intros ? ?]
  end.

Lemma keeps_update_therm_weights c w b s n :
  is_local s -> is_local n ->
  keeps (update_therm_weights c w b s n) (fun _ => True).
Proof.
  intros Hs Hn. unfold update_therm_weights. cbv zeta.
  do 6 keeps_step. apply keeps_set_data. assumption.
Qed.

Lemma keeps_notify (cb : option (@callback D)) args stop_ :
  keeps (D := D) (notify cb args stop_) (fun _ => True).
Proof.
  unfold notify. destruct cb as [f|]; [|now apply keeps_ret].
  destruct (f args) as [|e]; [now apply keeps_ret|].
  destruct (is_interrupt e); [now apply keeps_ret|apply keeps_raise].
Qed.

Lemma keeps_convergence_check fr maxerr stop_ :
  is_local (old_therm_weights fr) ->
  keeps (convergence_check fr maxerr stop_) (fun _ => True).
Proof.
  intros Ho. unfold convergence_check. do 3 keeps_step.
  destruct (fltb _ fzero); [now apply keeps_ret|].
  keeps_step. now apply keeps_ret.
Qed.

Lemma keeps_estimate_iteration fr maxiter maxerr err_out cb i st :
  writes_locals fr ->
  keeps (estimate_iteration fr maxiter maxerr err_out cb i st) (fun _ => True).
Proof.
  intros (Hw & Ho & HT & HM). unfold estimate_iteration. cbv zeta.
  eapply keeps_bind; [apply keeps_update_therm_weights; assumption|intros _ _].
  do 4 keeps_step.
  eapply keeps_bind; [apply keeps_notify|intros ? _].
  eapply keeps_bind; [apply keeps_convergence_check; assumption|intros ? _].
  now apply keeps_ret.
Qed.

Lemma keeps_estimate_setup tsc bes css te :
  keeps (estimate_setup tsc bes css te) frame_locals.
Proof.
  unfold estimate_setup. cbv zeta. do 6 keeps_step.
  eapply keeps_bind with (Q := fun p => is_local (snd p)).
  { destruct te as [e|]; do 2 keeps_step; apply keeps_ret; assumption. }
  intros ew_ Hw. do 8 keeps_step. apply keeps_ret.
  repeat split; assumption.
Qed.

Lemma keeps_estimate_finish fr bes css err_out st :
  writes_locals fr ->
  keeps (estimate_finish fr bes css err_out st)
        (fun r => is_local (fst (fst (fst r))) /\
                  is_local (snd (fst (fst r))) /\ is_local (snd (fst r))).
Proof.
  intros (Hw & Ho & HT & HM). unfold estimate_finish. cbv zeta.
  do 18 keeps_step.
  eapply keeps_bind with (Q := fun _ => True).
  { destruct (err_out =? 0)%Z; [now apply keeps_ret|].
    keeps_step. now apply keeps_ret. }
  intros traj _. apply keeps_ret. cbn. auto.
Qed.

End Frame.

(* ================================================================== *)
(** * Properties: [estimate] stays inside the model *)

Section Typing.
Context {D : Type} {ops : FloatOps D} {srv : Services D}.

Implicit Types (h : heap D) (l : loc).

Lemma stable_refl h : stable h h.
Proof. split; auto. Qed.

Lemma stable_trans h1 h2 h3 : stable h1 h2 -> stable h2 h3 -> stable h1 h3.
Proof. intros [A1 B1] [A2 B2]. split; auto. Qed.

Lemma stable_extend h (a : ndarray D) : stable h (extend h a).
Proof.
  split.
  - intros l [d H]. exists d. apply lookup_extend, H.
  - intros l (sh & d & H). exists sh, d. apply lookup_extend, H.
Qed.

Lemma loc_eq_dec l l' : l = l' \/ l <> l'.
Proof.
  destruct l as [n|n], l' as [m|m]; try (right; discriminate);
    (destruct (Nat.eq_dec n m) as [->|Hne]; [left; reflexivity|right; congruence]).
Qed.

Lemma stable_update h l sh d (new : list D) :
  lookup h l = Some (FloatArray sh d) ->
  stable h (update h l (FloatArray sh new)).
Proof.
  intros H. split.
  - intros l' [d' H']. exists d'.
    destruct (loc_eq_dec l l') as [<-|Hne]; [congruence|].
    rewrite (lookup_update_neq _ _ _ _ _ H Hne). exact H'.
  - intros l' (sh' & d' & H').
    destruct (loc_eq_dec l l') as [<-|Hne].
    + exists sh, new. apply (lookup_update_eq _ _ _ _ H).
    + exists sh', d'. rewrite (lookup_update_neq _ _ _ _ _ H Hne). exact H'.
Qed.

Lemma runs_ret {A : Type} (a : A) h (Q : A -> heap D -> Prop) :
  Q a h -> runs (ret a) h Q.
Proof. intros H. split; [apply stable_refl|exact H]. Qed.

Lemma runs_raise {A : Type} e h (Q : A -> heap D -> Prop) :
  runs (raise e) h Q.
Proof. exact I. Qed.

Lemma runs_bind {A B : Type} (m : M D A) (k : A -> M D B) h
    (Q : A -> heap D -> Prop) (R : B -> heap D -> Prop) :
  runs m h Q ->
  (forall a h', stable h h' -> Q a h' -> runs (k a) h' R) ->
  runs (bind m k) h R.
Proof.
  unfold runs, bind. intros Hm Hk.
  destruct (m h) as [a h1|e h1|]; [|exact I|contradiction].
  destruct Hm as [S1 Ha]. specialize (Hk a h1 S1 Ha).
  destruct (k a h1) as [b h2|e h2|]; [|exact I|contradiction].
  destruct Hk as [S2 Hb]. split; [exact (stable_trans _ _ _ S1 S2)|exact Hb].
Qed.

Lemma runs_get_int l h : is_int h l -> runs (get_int l) h (fun _ _ => True).
Proof.
  intros [d H]. unfold runs. rewrite (run_get_int _ _ _ H).
  split; [apply stable_refl|exact I].
Qed.

Lemma runs_get_float l h :
  is_float h l -> runs (get_float l) h (fun _ _ => True).
Proof.
  intros (sh & d & H). unfold runs. rewrite (run_get_float _ _ _ _ H).
  split; [apply stable_refl|exact I].
Qed.

Lemma runs_get_buffer n l h :
  is_float h l -> runs (get_buffer n l) h (fun _ _ => True).
Proof.
  intros H. unfold get_buffer.
  apply (runs_bind _ _ _ _ _ (runs_get_float l h H)). intros a h' _ _.
  destruct (length (fst a) =? n); [now apply runs_ret|apply runs_raise].
Qed.

Lemma runs_set_data l (new : list D) h :
  is_float h l -> runs (set_data l new) h (fun _ _ => True).
Proof.
  intros (sh & d & H). unfold runs. rewrite (run_set_data _ _ _ _ _ H).
  split; [apply (stable_update _ _ _ _ _ H)|exact I].
Qed.

Lemma runs_new_int (d : list Z) h :
  runs (new_array (IntArray d)) h (fun l h' => is_int h' l).
Proof.
  split; [apply stable_extend|]. exists d. apply lookup_extend_fresh.
Qed.

Lemma runs_new_float sh (d : list D) h :
  runs (new_array (FloatArray sh d)) h (fun l h' => is_float h' l).
Proof.
  split; [apply stable_extend|]. exists sh, d. apply lookup_extend_fresh.
Qed.

Lemma runs_np_zeros n h : runs (np_zeros n) h (fun l h' => is_float h' l).
Proof.
  unfold np_zeros. destruct (n <? 0)%Z; [apply runs_raise|apply runs_new_float].
Qed.

Lemma runs_np_ones n h : runs (np_ones n) h (fun l h' => is_float h' l).
Proof. apply runs_new_float. Qed.

Lemma runs_np_max (v : list D) h : runs (np_max v) h (fun _ _ => True).
Proof. destruct v; [apply runs_raise|now apply runs_ret]. Qed.

Lemma runs_np_max_int (v : list Z) h :
  runs (D := D) (np_max_int v) h (fun _ _ => True).
Proof. destruct v; [apply runs_raise|now apply runs_ret]. Qed.

Lemma runs_notify (cb : option (@callback D)) args stop_ h :
  runs (notify cb args stop_) h (fun _ _ => True).
Proof.
  unfold notify. destruct cb as [f|]; [|now apply runs_ret].
  destruct (f args) as [|e]; [now apply runs_ret|].
  destruct (is_interrupt e); [now apply runs_ret|apply runs_raise].
Qed.

Lemma runs_for_range {St : Type} (body : nat -> St -> M D (St * bool))
    (I : heap D -> Prop) n :
  (forall h h', I h -> stable h h' -> I h') ->
  (forall i st h, I h -> runs (body i st) h (fun _ _ => True)) ->
  forall start st h,
    I h -> runs (for_range n start body st) h (fun _ h' => I h').
Proof.
  intros HI Hb. induction n as [|n IH]; intros start st h Hh; cbn [for_range].
  - now apply runs_ret.
  - apply (runs_bind _ _ _ _ _ (Hb start st h Hh)). intros r h' Hst _.
    assert (Hh' := HI _ _ Hh Hst).
    destruct (snd r); [now apply runs_ret|now apply IH].
Qed.

(** What is known of the dtypes, carried over to a later store. *)
Ltac carry St :=
  cbv beta in *;
  repeat match type of St with
         | stable ?h _ =>
             match goal with
             | H : is_int h _ |- _ => apply (proj1 St) in H
             | H : is_float h _ |- _ => apply (proj2 St) in H
             end
         end;
  clear St.

(** One more primitive step of a computation that stays inside the model. *)
Ltac runs_step :=
  let St := fresh "St" in
  lazymatch goal with
  | |- @runs _ _ (@bind _ _ _ (@get_int _ _) _) _ _ =>
      eapply runs_bind; [apply runs_get_int; assumption|intros ? ? St _]
  | |- @runs _ _ (@bind _ _ _ (@get_float _ _) _) _ _ =>
      eapply runs_bind; [apply runs_get_float; assumption|intros ? ? St _]
  | |- @runs _ _ (@bind _ _ _ (@get_buffer _ _ _) _) _ _ =>
      eapply runs_bind; [apply runs_get_buffer; assumption|intros ? ? St _]
  | |- @runs _ _ (@bind _ _ _ (@set_data _ _ _) _) _ _ =>
      eapply runs_bind; [apply runs_set_data; assumption|intros ? ? St _]
  | |- @runs _ _ (@bind _ _ _ (@np_max _ _ _) _) _ _ =>
      eapply runs_bind; [apply runs_np_max|intros ? ? St _]
  | |- @runs _ _ (@bind _ _ _ (@np_max_int _ _) _) _ _ =>
      eapply runs_bind; [apply runs_np_max_int|intros ? ? St _]
  | |- @runs _ _ (@bind _ _ _ (@notify _ _ _ _) _) _ _ =>
      eapply runs_bind; [apply runs_notify|intros ? ? St _]
  | |- @runs _ _ (@bind _ _ _ (@new_array _ (@IntArray _ _)) _) _ _ =>
      eapply runs_bind; [apply runs_new_int|intros ? ? St ?]
  | |- @runs _ _ (@bind _ _ _ (@new_array _ (@FloatArray _ _ _)) _) _ _ =>
      eapply runs_bind; [apply runs_new_float|intros ? ? St ?]
  | |- @runs _ _ (@bind _ _ _ (@np_zeros _ _ _) _) _ _ =>
      eapply runs_bind; [apply runs_np_zeros|intros ? ? St ?]
  | |- @runs _ _ (@bind _ _ _ (@np_ones _ _ _) _) _ _ =>
      eapply runs_bind; [apply runs_np_ones|intros ? ? St ?]
  end;
  carry St.

Lemma frame_typed_stable fr h h' :
  frame_typed fr h -> stable h h' -> frame_typed fr h'.
Proof.
  intros (H1 & H2 & H3 & H4 & H5 & H6 & H7) St. carry St.
  repeat split; assumption.
Qed.

Lemma runs_update_therm_weights c w b s n h :
  is_int h c -> is_float h w -> is_float h b -> is_float h s ->
  is_float h n ->
  runs (update_therm_weights c w b s n) h (fun _ _ => True).
Proof.
  intros Hc Hw Hb Hs Hn. unfold update_therm_weights. cbv zeta.
  do 6 runs_step. apply runs_set_data. assumption.
Qed.

Lemma runs_convergence_check fr maxerr stop_ h :
  frame_typed fr h ->
  runs (convergence_check fr maxerr stop_) h (fun _ _ => True).
Proof.
  intros (H1 & H2 & H3 & H4 & H5 & H6 & H7). unfold convergence_check.
  do 3 runs_step.
  destruct (fltb _ fzero); [now apply runs_ret|].
  runs_step. now apply runs_ret.
Qed.

Lemma runs_estimate_iteration fr maxiter maxerr err_out cb i st h :
  frame_typed fr h ->
  runs (estimate_iteration fr maxiter maxerr err_out cb i st) h
       (fun _ _ => True).
Proof.
  intros (H1 & H2 & H3 & H4 & H5 & H6 & H7).
  unfold estimate_iteration. cbv zeta.
  eapply runs_bind;
    [apply runs_update_therm_weights; assumption|intros _ h1 S1 _].
  carry S1. do 5 runs_step.
  eapply runs_bind;
    [apply runs_convergence_check; repeat split; assumption|intros ? ? _ _].
  now apply runs_ret.
Qed.

Lemma runs_estimate_setup tsc bes css te h :
  well_typed_call h tsc bes css te ->
  runs (estimate_setup tsc bes css te) h
       (fun fr h' => frame_typed fr h' /\ is_float h' bes /\ is_int h' css).
Proof.
  intros (Ha & Hb & Hc & He). unfold estimate_setup. cbv zeta.
  destruct te as [e|]; cbv iota;
    (do 6 runs_step;
     eapply runs_bind
       with (Q := fun p h' => is_float h' (fst p) /\ is_float h' (snd p));
     [do 2 runs_step; apply runs_ret; split; assumption
     |intros ew_ hw Sw [He1 He2]; carry Sw;
      do 8 runs_step; apply runs_ret; repeat split; assumption]).
Qed.

Lemma runs_estimate_finish fr bes css err_out st h :
  frame_typed fr h -> is_float h bes -> is_int h css ->
  runs (estimate_finish fr bes css err_out st) h (fun _ _ => True).
Proof.
  intros (H1 & H2 & H3 & H4 & H5 & H6 & H7) Hb Hc.
  unfold estimate_finish. cbv zeta.
  do 18 runs_step.
  eapply runs_bind with (Q := fun _ _ => True).
  { destruct (err_out =? 0)%Z; [now apply runs_ret|].
    runs_step. now apply runs_ret. }
  intros traj hf _ _. now apply runs_ret.
Qed.

(** Called on arrays of the dtypes of its signature, [estimate] returns or
    raises. *)
Lemma runs_estimate tsc bes css maxiter maxerr te err_out cb h :
  well_typed_call h tsc bes css te ->
  runs (estimate tsc bes css maxiter maxerr te err_out cb) h
       (fun _ _ => True).
Proof.
  intros W. unfold estimate.
  eapply runs_bind; [apply runs_estimate_setup, W|].
  intros fr h1 _ (T & Hb & Hc).
  eapply runs_bind.
  - apply (runs_for_range _
             (fun h' => frame_typed fr h' /\ is_float h' bes /\ is_int h' css)).
    + intros h2 h3 (T2 & Hb2 & Hc2) St.
      split; [exact (frame_typed_stable _ _ _ T2 St)|].
      split; [apply (proj2 St), Hb2|apply (proj1 St), Hc2].
    + intros i st h2 (T2 & _). apply runs_estimate_iteration, T2.
    + split; [exact T|split; assumption].
  - intros st h2 _ (T2 & Hb2 & Hc2). apply runs_estimate_finish; assumption.
Qed.

End Typing.

(* ================================================================== *)
(** * Properties: the error trajectory *)

Section Trajectory.
Context {D : Type} {ops : FloatOps D} {srv : Services D}.

(** Splitting a computation that returned at its first [bind]. *)
Ltac invert_bind H :=
  let a := fresh "a" in
  let h := fresh "h" in
  let E := fresh "E" in
  apply bind_return_inv in H; destruct H as (a & h & E & H).

Lemma combine_snoc {X Y : Type} (l1 : list X) (l2 : list Y) x y :
  length l1 = length l2 ->
  combine (l1 ++ [x]) (l2 ++ [y]) = combine l1 l2 ++ [(x, y)].
Proof.
  revert l2. induction l1 as [|a l1 IH]; intros [|b l2] Hl; cbn in *;
    try discriminate; [reflexivity|].
  rewrite IH by lia. reflexivity.
Qed.

Lemma every_nth_snoc k (l : list D) e :
  every_nth k (l ++ [e]) =
  every_nth k l ++
    (if (Z.of_nat (S (length l)) mod k =? 0)%Z then [e] else []).
Proof.
  unfold every_nth. rewrite length_app. cbn [length].
  rewrite Nat.add_1_r, seq_S, map_app. cbn [map].
  rewrite combine_snoc by (rewrite length_map, length_seq; reflexivity).
  rewrite filter_app, map_app. cbn [filter fst Nat.add].
  destruct (_ mod k =? 0)%Z; reflexivity.
Qed.

(** The counter after one more pass. *)
Lemma stride_count (k n : Z) :
  (0 < k)%Z -> (0 <= n)%Z ->
  ((n mod k + 1 =? k) = ((n + 1) mod k =? 0))%Z /\
  ((n + 1) mod k = if (n mod k + 1 =? k) then 0 else n mod k + 1)%Z.
Proof.
  intros Hk Hn.
  assert (Hb := Z.mod_pos_bound n k Hk).
  assert (Hd := Z.div_mod n k ltac:(lia)).
  destruct (Z.eqb_spec (n mod k + 1) k) as [E|E].
  - assert (Hm : ((n + 1) mod k = 0)%Z).
    { symmetry. apply (Z.mod_unique (n + 1) k (n / k + 1) 0); [lia|nia]. }
    rewrite Hm. split; reflexivity.
  - assert (Hm : ((n + 1) mod k = n mod k + 1)%Z).
    { symmetry. apply (Z.mod_unique (n + 1) k (n / k) (n mod k + 1)); [lia|nia]. }
    rewrite Hm. split; [|reflexivity].
    symmetry. apply Z.eqb_neq. lia.
Qed.

(** What one completed pass does to the trajectory and its counter. *)
Lemma iteration_bookkeeping fr maxiter maxerr err_out cb i st h st' brk h' :
  estimate_iteration fr maxiter maxerr err_out cb i st h = Return (st', brk) h' ->
  exists e,
    err st' = Some e /\ brk = stop st' /\
    err_count st' = (if (err_count st + 1 =? err_out)%Z then 0
                     else err_count st + 1)%Z /\
    err_traj st' = (if (err_count st + 1 =? err_out)%Z then err_traj st ++ [e]
                    else err_traj st).
Proof.
  unfold estimate_iteration. cbv zeta. intros H.
  do 7 invert_bind H. injection H as <- <- _.
  eexists. cbn [err stop err_count err_traj]. repeat split.
Qed.

Lemma sampled_pass k (errs : list D) st st' e :
  (0 < k)%Z -> sampled k errs st ->
  err_count st' = (if (err_count st + 1 =? k)%Z then 0
                   else err_count st + 1)%Z ->
  err_traj st' = (if (err_count st + 1 =? k)%Z then err_traj st ++ [e]
                  else err_traj st) ->
  sampled k (errs ++ [e]) st'.
Proof.
  intros Hk [Ht Hc] Hc' Ht'. unfold sampled.
  rewrite every_nth_snoc, length_app. cbn [length].
  replace (Z.of_nat (length errs + 1)) with (Z.of_nat (length errs) + 1)%Z by lia.
  replace (Z.of_nat (S (length errs))) with (Z.of_nat (length errs) + 1)%Z by lia.
  destruct (stride_count k (Z.of_nat (length errs)) Hk ltac:(lia)) as [E1 E2].
  rewrite Hc in Hc', Ht'. rewrite <- E1, E2, Hc', Ht', Ht.
  destruct (_ + 1 =? k)%Z; [split; reflexivity|].
  rewrite app_nil_r. split; reflexivity.
Qed.

Lemma errors_of_cons (st : loop_state) (e : D) rest :
  err st = Some e -> errors_of (st :: rest) = e :: errors_of rest.
Proof. intros H. unfold errors_of. cbn [flat_map]. rewrite H. reflexivity. Qed.

Lemma loop_bookkeeping fr maxiter maxerr err_out cb n :
  (0 < err_out)%Z ->
  forall start st h st' h' (errs : list D),
  let body := estimate_iteration fr maxiter maxerr err_out cb in
  for_range n start body st h = Return st' h' ->
  sampled err_out errs st ->
  sampled err_out (errs ++ errors_of (for_range_trace n start body st h)) st'.
Proof.
  intros Hk. induction n as [|n IH]; intros start st h st' h' errs body H Hs.
  - cbn in H. injection H as <- <-. cbn. rewrite app_nil_r. exact Hs.
  - cbn [for_range for_range_trace] in *. invert_bind H.
    fold body in E. rewrite E. destruct a as [st1 brk].
    destruct (iteration_bookkeeping _ _ _ _ _ _ _ _ _ _ _ E)
      as (e & He & _ & Hc & Ht).
    assert (Hs1 := sampled_pass err_out errs st st1 e Hk Hs Hc Ht).
    cbn [fst snd] in *. rewrite (errors_of_cons _ e _ He).
    destruct brk.
    + injection H as <- <-. exact Hs1.
    + specialize (IH _ _ _ _ _ (errs ++ [e]) H Hs1).
      rewrite <- app_assoc in IH. exact IH.
Qed.

(** Every pass state samples the errors of the passes up to it. *)
Lemma passes_sampled fr maxiter maxerr err_out cb n :
  (0 < err_out)%Z ->
  forall start st h (errs : list D) pre st' post,
  let body := estimate_iteration fr maxiter maxerr err_out cb in
  sampled err_out errs st ->
  for_range_trace n start body st h = pre ++ st' :: post ->
  sampled err_out (errs ++ errors_of (pre ++ [st'])) st'.
Proof.
  intros Hk. induction n as [|n IH];
    intros start st h errs pre st' post body Hs Ht.
  - cbn in Ht. destruct pre; discriminate.
  - cbn [for_range_trace] in Ht.
    destruct (body start st h) as [[st1 brk] h1| |] eqn:E;
      try (destruct pre; discriminate).
    destruct (iteration_bookkeeping _ _ _ _ _ _ _ _ _ _ _ E)
      as (e & He & _ & Hc & Ht').
    assert (Hs1 := sampled_pass err_out errs st st1 e Hk Hs Hc Ht').
    cbn [fst snd] in Ht. destruct pre as [|p pre].
    + injection Ht as <- _. cbn [app].
      rewrite (errors_of_cons _ e _ He). exact Hs1.
    + injection Ht as <- Ht. cbn [app].
      rewrite (errors_of_cons _ e _ He).
      destruct brk; [destruct pre; discriminate|].
      specialize (IH _ _ _ (errs ++ [e]) _ _ _ Hs1 Ht).
      rewrite <- app_assoc in IH. exact IH.
Qed.

(** With a stride of zero nothing is ever recorded. *)
Lemma passes_unsampled fr maxiter maxerr cb n :
  forall start st h,
  let body := estimate_iteration fr maxiter maxerr 0 cb in
  (0 <= err_count st)%Z -> err_traj st = [] ->
  Forall (fun st' => err_traj st' = [])
         (for_range_trace n start body st h).
Proof.
  induction n as [|n IH]; intros start st h body Hc Ht; [constructor|].
  cbn [for_range_trace].
  destruct (body start st h) as [[st1 brk] h1| |] eqn:E; try constructor.
  - destruct (iteration_bookkeeping _ _ _ _ _ _ _ _ _ _ _ E)
      as (e & _ & _ & Hc' & Ht').
    destruct (Z.eqb_spec (err_count st + 1) 0) as [F|_]; [lia|].
    cbn [fst]. congruence.
  - destruct (iteration_bookkeeping _ _ _ _ _ _ _ _ _ _ _ E)
      as (e & _ & _ & Hc' & Ht').
    destruct (Z.eqb_spec (err_count st + 1) 0) as [F|_]; [lia|].
    cbn [fst snd]. destruct brk; [constructor|].
    apply IH; [lia|congruence].
Qed.

(** Passes always leave an error behind, whatever the stride. *)
Lemma passes_have_errors fr maxiter maxerr err_out cb n :
  forall start st h,
  let body := estimate_iteration fr maxiter maxerr err_out cb in
  length (errors_of (for_range_trace n start body st h)) =
  length (for_range_trace n start body st h).
Proof.
  induction n as [|n IH]; intros start st h body; [reflexivity|].
  cbn [for_range_trace].
  destruct (body start st h) as [[st1 brk] h1| |] eqn:E; try reflexivity.
  destruct (iteration_bookkeeping _ _ _ _ _ _ _ _ _ _ _ E) as (e & He & _).
  cbn [fst snd] in *. rewrite (errors_of_cons _ e _ He). cbn [length]. f_equal.
  destruct brk; [reflexivity|]. apply IH.
Qed.

(** Reading an array and taking a maximum leave the store alone. *)
Lemma get_float_inv l (h : heap D) a h' :
  get_float l h = Return a h' ->
  h' = h /\ lookup h l = Some (FloatArray (fst a) (snd a)).
Proof.
  unfold get_float. destruct (lookup h l) as [[d|sh d]|]; try discriminate.
  intros H. injection H as <- <-. split; reflexivity.
Qed.

Lemma np_max_inv (v : list D) (h : heap D) e h' :
  np_max v h = Return e h' ->
  h' = h /\ exists d ds, v = d :: ds /\ e = fold_left fmax ds d.
Proof.
  destruct v as [|d ds]; cbn; [discriminate|].
  intros H. injection H as <- <-. split; [reflexivity|].
  exists d, ds. split; reflexivity.
Qed.

(** The error one completed pass leaves in [err] is the largest relative
    change of the weights that line 119 has just updated. *)
Lemma iteration_error fr maxiter maxerr err_out cb i st h st' brk h' :
  estimate_iteration fr maxiter maxerr err_out cb i st h = Return (st', brk) h' ->
  exists e, err st' = Some e /\ pass_error fr h e.
Proof.
  unfold estimate_iteration. cbv zeta. intros H.
  do 7 invert_bind H. injection H as <- <- _.
  destruct a. cbn [err].
  apply get_float_inv in E0. destruct E0 as [-> Hn].
  apply get_float_inv in E1. destruct E1 as [-> Ho].
  rewrite run_new_array in E2. injection E2 as <- <-.
  apply np_max_inv in E3. destruct E3 as (_ & d & ds & Hd & He).
  eexists. split; [reflexivity|].
  exists h0, (fst a0), (snd a0), (fst a1), (snd a1), d, ds.
  repeat split; assumption.
Qed.

(** The log of a loop holds the states of its trace. *)
Lemma log_states {St : Type} n (body : nat -> St -> M D (St * bool)) :
  forall start st h,
  map snd (for_range_log n start body st h) = for_range_trace n start body st h.
Proof.
  induction n as [|n IH]; intros start st h; [reflexivity|].
  cbn [for_range_log for_range_trace].
  destruct (body start st h) as [[st1 brk] h1| |]; try reflexivity.
  cbn [map fst snd]. f_equal. destruct brk; [reflexivity|]. apply IH.
Qed.

(** Every pass of the loop leaves the error of its own weights. *)
Lemma passes_errors fr maxiter maxerr err_out cb n :
  forall start st h,
  Forall (fun p => exists e, err (snd p) = Some e /\ pass_error fr (fst p) e)
    (for_range_log n start
       (estimate_iteration fr maxiter maxerr err_out cb) st h).
Proof.
  induction n as [|n IH]; intros start st h; [constructor|].
  cbn [for_range_log].
  destruct (estimate_iteration fr maxiter maxerr err_out cb start st h)
    as [[st1 brk] h1| |] eqn:E; try constructor.
  - exact (iteration_error _ _ _ _ _ _ _ _ _ _ _ E).
  - cbn [fst snd]. destruct brk; [constructor|]. apply IH.
Qed.

(** The last lines hand out the recorded trajectory, or nothing for a
    stride of zero. *)
Lemma finish_trajectory fr bes css err_out st h r h' :
  estimate_finish fr bes css err_out st h = Return r h' ->
  (err_out = 0%Z -> snd r = None) /\
  (err_out <> 0%Z ->
   exists l, snd r = Some l /\
     lookup h' l = Some (FloatArray [length (err_traj st)] (err_traj st))).
Proof.
  unfold estimate_finish. cbv zeta. intros H.
  do 19 invert_bind H. injection H as <- <-.
  destruct (Z.eqb_spec err_out 0) as [Hz|Hz].
  - injection E17 as <- _. split; [reflexivity|contradiction].
  - invert_bind E17. injection E17 as <- <-.
    rewrite run_new_array in E18. injection E18 as <- <-.
    split; [contradiction|]. intros _. eexists. split; [reflexivity|].
    apply lookup_extend_fresh.
Qed.

End Trajectory.

(* ================================================================== *)
(** * Properties: one pass of the loop *)

Section Pass.
Context {D : Type} {ops : FloatOps D} {srv : Services D}.

Lemma zip_with_length {X Y W : Type} (f : X -> Y -> W) a b :
  length (zip_with f a b) = Nat.min (length a) (length b).
Proof.
  revert b. induction a as [|x a IH]; intros [|y b]; cbn; try reflexivity.
  rewrite IH. reflexivity.
Qed.

Lemma run_np_max (v : list D) : v <> [] -> np_max v = ret (np_max_value v).
Proof. destruct v; [congruence|reflexivity]. Qed.

Lemma nonempty_length {X : Type} (v : list X) : v <> [] <-> 0 < length v.
Proof. destruct v; cbn; split; intros; try congruence; lia. Qed.

Lemma relative_change_nonempty (new old : list D) :
  length new = length old -> old <> [] -> relative_change new old <> [].
Proof.
  intros Hl Ho. apply nonempty_length in Ho. apply nonempty_length.
  unfold relative_change.
  rewrite zip_with_length, !length_map, zip_with_length. lia.
Qed.

Lemma convergence_margin_nonempty maxerr (new old : list D) :
  length new = length old -> old <> [] ->
  convergence_margin maxerr new old <> [].
Proof.
  intros Hl Ho. apply nonempty_length in Ho. apply nonempty_length.
  unfold convergence_margin.
  rewrite zip_with_length, !length_map, zip_with_length. lia.
Qed.

Lemma updated_weights_length c shb b s (w o : list D) :
  length (updated_weights c shb b s w o) = length w.
Proof. apply blit_length. Qed.

Lemma run_update_therm_weights h c w b s n cd shw wd shb bd shs sd shn nd :
  lookup h c = Some (IntArray cd) ->
  lookup h w = Some (FloatArray shw wd) -> length shw = 1 ->
  lookup h b = Some (FloatArray shb bd) -> length shb = 2 ->
  lookup h s = Some (FloatArray shs sd) -> length shs = 1 ->
  lookup h n = Some (FloatArray shn nd) -> length shn = 1 ->
  s <> n ->
  update_therm_weights c w b s n h =
  Return tt
    (update (update h s (FloatArray shs (updated_scratch cd shb bd sd nd wd)))
            n (FloatArray shn (updated_weights cd shb bd sd nd wd))).
Proof.
  intros Hc Hw Hw1 Hb Hb2 Hs Hs1 Hn Hn1 Hsn. unfold update_therm_weights.
  rewrite (bind_run _ _ _ _ _ (run_get_int _ _ _ Hc)).
  rewrite (bind_run _ _ _ _ _ (run_get_buffer _ _ _ _ _ Hw Hw1)).
  rewrite (bind_run _ _ _ _ _ (run_get_buffer _ _ _ _ _ Hb Hb2)).
  rewrite (bind_run _ _ _ _ _ (run_get_buffer _ _ _ _ _ Hs Hs1)).
  rewrite (bind_run _ _ _ _ _ (run_get_buffer _ _ _ _ _ Hn Hn1)).
  cbv zeta. cbn [fst snd].
  rewrite (bind_run _ _ _ _ _ (run_set_data _ _ _ _ _ Hs)).
  apply run_set_data. rewrite (lookup_update_neq _ _ _ _ _ Hs Hsn). exact Hn.
Qed.

(** The three arrays of the loop after [update_therm_weights]. *)
Lemma updated_heap_lookups fr h c shb b shs s shw w sho o :
  pass_ready fr h c shb b shs s shw w sho o ->
  let h1 := updated_heap fr h c shb b shs s shw w o in
  lookup h1 (therm_weights fr)
    = Some (FloatArray shw (updated_weights c shb b s w o)) /\
  lookup h1 (old_therm_weights fr) = Some (FloatArray sho o) /\
  lookup h1 (scratch_T fr)
    = Some (FloatArray shs (updated_scratch c shb b s w o)) /\
  (forall l, l <> therm_weights fr -> l <> scratch_T fr ->
     lookup h1 l = lookup h l).
Proof.
  intros R h1. unfold h1, updated_heap. destruct R.
  assert (Hs' : forall a, lookup (update h (scratch_T fr) a) (therm_weights fr)
                          = Some (FloatArray shw w)).
  { intros a. rewrite (lookup_update_neq _ _ _ _ _ ready_scratch0); assumption. }
  repeat split.
  - eapply lookup_update_eq. apply Hs'.
  - rewrite (lookup_update_neq _ _ _ _ _ (Hs' _)) by assumption.
    rewrite (lookup_update_neq _ _ _ _ _ ready_scratch0); assumption.
  - rewrite (lookup_update_neq _ _ _ _ _ (Hs' _)) by congruence.
    eapply lookup_update_eq. eassumption.
  - intros l Hl1 Hl2.
    rewrite (lookup_update_neq _ _ _ _ _ (Hs' _)) by congruence.
    rewrite (lookup_update_neq _ _ _ _ _ ready_scratch0) by congruence.
    reflexivity.
Qed.

Lemma run_notify (cb : option (@callback D)) args stop_ h :
  notify cb args stop_ h =
  match aborts cb args with
  | Some ex => Raise ex h
  | None => Return (interrupts cb args || stop_) h
  end.
Proof.
  unfold notify, aborts, interrupts. destruct cb as [f|]; [|reflexivity].
  destruct (f args) as [|e]; [reflexivity|].
  destruct (is_interrupt e); reflexivity.
Qed.

Lemma run_convergence_check fr maxerr stop_ h shw w sho o :
  lookup h (therm_weights fr) = Some (FloatArray shw w) ->
  lookup h (old_therm_weights fr) = Some (FloatArray sho o) ->
  length w = length o -> o <> [] ->
  convergence_check fr maxerr stop_ h =
  if converged maxerr w o then Return true h
  else Return stop_ (update h (old_therm_weights fr) (FloatArray sho (blit o w))).
Proof.
  intros Hw Ho Hl Hne. unfold convergence_check.
  rewrite (bind_run _ _ _ _ _ (run_get_float _ _ _ _ Hw)).
  rewrite (bind_run _ _ _ _ _ (run_get_float _ _ _ _ Ho)).
  cbn [fst snd].
  rewrite (run_np_max _ (convergence_margin_nonempty maxerr w o Hl Hne)).
  unfold bind at 1. unfold ret at 1. fold (converged maxerr w o).
  destruct (converged maxerr w o); [reflexivity|].
  rewrite (bind_run _ _ _ _ _ (run_set_data _ _ _ _ _ Ho)). reflexivity.
Qed.

(** The outcome of a pass, in full. *)
Lemma pass_outcome fr maxiter maxerr err_out cb i st h
    c shb b shs s shw w sho o :
  pass_ready fr h c shb b shs s shw w sho o ->
  let new := updated_weights c shb b s w o in
  let h1 := updated_heap fr h c shb b shs s shw w o in
  let h2 := extend h1 (FloatArray shw (relative_change new o)) in
  let args := pass_args maxiter maxerr i new o in
  let stop1 := interrupts cb args || stop st in
  estimate_iteration fr maxiter maxerr err_out cb i st h =
  match aborts cb args with
  | Some ex => Raise ex h2
  | None =>
      if converged maxerr new o
      then Return (pass_state err_out st new o (fresh h1) true, true) h2
      else Return (pass_state err_out st new o (fresh h1) stop1, stop1)
                  (update h2 (old_therm_weights fr)
                          (FloatArray sho (blit o new)))
  end.
Proof.
  intros R new h1 h2 args stop1.
  destruct (updated_heap_lookups fr h c shb b shs s shw w sho o R)
    as (Hw & Ho & Hs & _). fold h1 in Hw, Ho, Hs. fold new in Hw.
  assert (Hlen : length new = length o).
  { unfold new. rewrite updated_weights_length. apply (ready_length R). }
  unfold estimate_iteration. cbv zeta.
  rewrite (bind_run _ _ _ _ _
             (run_update_therm_weights _ _ _ _ _ _ _ _ _ _ _ _ _ _ _
                (ready_counts R) (ready_old R) (ready_old_rank R)
                (ready_bias R) (ready_bias_rank R)
                (ready_scratch R) (ready_scratch_rank R)
                (ready_new R) (ready_new_rank R) (ready_scratch_new R))).
  fold (updated_heap fr h c shb b shs s shw w o). fold h1.
  rewrite (bind_run _ _ _ _ _ (run_get_float _ _ _ _ Hw)).
  rewrite (bind_run _ _ _ _ _ (run_get_float _ _ _ _ Ho)).
  cbn [fst snd].
  rewrite (bind_run _ _ _ _ _ (run_new_array _ _)). fold h2.
  rewrite (run_np_max _ (relative_change_nonempty new o Hlen (ready_nonempty R))).
  unfold bind at 1. unfold ret at 1.
  fold (pass_args maxiter maxerr i new o). fold args.
  unfold bind at 1. rewrite run_notify.
  destruct (aborts cb args) as [ex|]; [reflexivity|]. fold stop1.
  unfold bind at 1.
  rewrite (run_convergence_check fr maxerr stop1 h2 shw new sho o
             (lookup_extend _ _ _ _ Hw) (lookup_extend _ _ _ _ Ho)
             Hlen (ready_nonempty R)).
  destruct (converged maxerr new o); reflexivity.
Qed.

End Pass.

(* ================================================================== *)
(** * Properties: a call that leaves the loop after its first pass *)

Section FirstPass.
Context {D : Type} {ops : FloatOps D} {srv : Services D}.

Lemma bind_assoc {A B C : Type} (m : M D A) (f : A -> M D B) (g : B -> M D C) h :
  bind (bind m f) g h = bind m (fun x => bind (f x) g) h.
Proof. unfold bind. destruct (m h); reflexivity. Qed.

Lemma bind_ret {A B : Type} (a : A) (k : A -> M D B) h : bind (ret a) k h = k a h.
Proof. reflexivity. Qed.

Lemma run_np_zeros n h :
  (0 <= n)%Z ->
  np_zeros n h = Return (fresh h) (extend h (FloatArray [Z.to_nat n] (repeat fzero (Z.to_nat n)))).
Proof.
  intros Hn. unfold np_zeros. destruct (Z.ltb_spec n 0); [lia|reflexivity].
Qed.

Ltac heap_simpl :=
  cbv beta delta [fresh extend];
  cbn [lookup update replace_at caller locals nth_error length app
       firstn skipn fst snd];
  rewrite ?Nat2Z.id, ?length_map.

Ltac heap_lookup := heap_simpl; first [eassumption | reflexivity].

Ltac run_step :=
  lazymatch goal with
  | |- context [@bind _ _ _ (@bind _ _ _ _ _) _ _] => rewrite bind_assoc
  | |- context [@bind _ _ _ (@ret _ _ _) _ _] => rewrite bind_ret
  | |- context [@bind _ _ _ (@get_int _ ?l) ?k ?h] =>
      erewrite (bind_run (get_int l) k h) by (apply run_get_int; heap_lookup)
  | |- context [@bind _ _ _ (@get_float _ ?l) ?k ?h] =>
      erewrite (bind_run (get_float l) k h) by (apply run_get_float; heap_lookup)
  | |- context [@bind _ _ _ (@new_array _ ?a) ?k ?h] =>
      rewrite (bind_run (new_array a) k h _ _ (run_new_array h a))
  | |- context [@bind _ _ _ (@np_zeros _ _ ?n) ?k ?h] =>
      erewrite (bind_run (np_zeros n) k h) by (apply run_np_zeros; lia)
  | |- context [@bind _ _ _ (@np_ones _ _ ?n) ?k ?h] =>
      unfold np_ones at 1
  | |- context [@bind _ _ _ (@set_data _ ?l ?d) ?k ?h] =>
      erewrite (bind_run (set_data l d) k h) by (apply run_set_data; heap_lookup)
  end; heap_simpl.


Lemma run_np_max_int x (cs : list Z) h :
  np_max_int (D := D) (x :: cs) h = Return (fold_left Z.max cs x) h.
Proof. reflexivity. Qed.

Ltac setup_script :=
  unfold estimate_setup; cbv zeta;
  do 3 run_step; rewrite (bind_run _ _ _ _ _ (run_np_max_int _ _ _));
  repeat run_step.

Lemma run_estimate_setup_warm (C : list (ndarray D)) a b c k c0 shb bd x cs shw ed :
  nth_error C a = Some (IntArray c0) ->
  nth_error C b = Some (FloatArray shb bd) ->
  nth_error C c = Some (IntArray (x :: cs)) ->
  nth_error C k = Some (FloatArray shw ed) ->
  (0 <= 1 + fold_left Z.max cs x)%Z ->
  estimate_setup (Caller a) (Caller b) (Caller c) (Some (Caller k))
    (Build_heap C []) =
  Return
    {| fr_T := length c0; fr_M := 1 + fold_left Z.max cs x;
       therm_state_counts := Local 0; log_therm_state_counts := Local 1;
       therm_energies := Caller k; therm_weights := Local 2;
       bias_weight_sequence := Local 3; old_therm_energies := Local 4;
       old_therm_weights := Local 5; scratch_M := Local 6;
       scratch_T := Local 7 |}
    (Build_heap C
       [IntArray (counts_of c0);
        FloatArray [length c0] (log_counts_of c0);
        FloatArray shw (map (fun x => fexp (fneg x)) ed);
        FloatArray shb (bias_weights_of bd);
        FloatArray shw ed;
        FloatArray shw (map (fun x => fexp (fneg x)) ed);
        FloatArray [Z.to_nat (1 + fold_left Z.max cs x)]
          (repeat fzero (Z.to_nat (1 + fold_left Z.max cs x)));
        FloatArray [length c0] (repeat fzero (length c0))]).
Proof.
  intros Ha Hb Hc Hk HM. setup_script. reflexivity.
Qed.

Lemma run_estimate_setup_cold (C : list (ndarray D)) a b c c0 shb bd x cs :
  nth_error C a = Some (IntArray c0) ->
  nth_error C b = Some (FloatArray shb bd) ->
  nth_error C c = Some (IntArray (x :: cs)) ->
  (0 <= 1 + fold_left Z.max cs x)%Z ->
  estimate_setup (Caller a) (Caller b) (Caller c) None (Build_heap C []) =
  Return
    {| fr_T := length c0; fr_M := 1 + fold_left Z.max cs x;
       therm_state_counts := Local 0; log_therm_state_counts := Local 1;
       therm_energies := Local 2; therm_weights := Local 3;
       bias_weight_sequence := Local 4; old_therm_energies := Local 5;
       old_therm_weights := Local 6; scratch_M := Local 7;
       scratch_T := Local 8 |}
    (Build_heap C
       [IntArray (counts_of c0);
        FloatArray [length c0] (log_counts_of c0);
        FloatArray [length c0] (repeat fzero (length c0));
        FloatArray [length c0] (repeat fone (length c0));
        FloatArray shb (bias_weights_of bd);
        FloatArray [length c0] (repeat fzero (length c0));
        FloatArray [length c0] (repeat fone (length c0));
        FloatArray [Z.to_nat (1 + fold_left Z.max cs x)]
          (repeat fzero (Z.to_nat (1 + fold_left Z.max cs x)));
        FloatArray [length c0] (repeat fzero (length c0))]).
Proof.
  intros Ha Hb Hc HM. setup_script. reflexivity.
Qed.


Lemma for_range_break {St : Type} (body : nat -> St -> M D (St * bool))
    n start st h st' h' :
  body start st h = Return (st', true) h' ->
  for_range (S n) start body st h = Return st' h' /\
  for_range_trace (S n) start body st h = [st'].
Proof.
  intros E. cbn [for_range for_range_trace].
  rewrite (bind_run _ _ _ _ _ E), E. split; reflexivity.
Qed.

Ltac finish_script :=
  unfold estimate_finish; cbv zeta; repeat run_step;
  match goal with
  | |- context [(?k =? 0)%Z] => destruct (k =? 0)%Z
  end; repeat run_step.

Lemma estimate_first_pass (C : list (ndarray D)) a b c c0 shb bd x cs te shw w0
    maxiter maxerr err_out cb :
  nth_error C a = Some (IntArray c0) ->
  nth_error C b = Some (FloatArray shb bd) -> length shb = 2 ->
  nth_error C c = Some (IntArray (x :: cs)) ->
  (0 <= 1 + fold_left Z.max cs x)%Z ->
  starts_from C (length c0) te shw w0 -> length shw = 1 -> w0 <> [] ->
  (1 <= maxiter)%Z ->
  let new := first_weights c0 shb bd w0 in
  let args := pass_args maxiter maxerr 0 new w0 in
  let run := estimate (Caller a) (Caller b) (Caller c) maxiter maxerr te
               err_out cb (Build_heap C []) in
  match aborts cb args with
  | Some ex => exists h', run = Raise ex h'
  | None =>
      converged maxerr new w0 || interrupts cb args = true ->
      exists r h',
        run = Return r h' /\
        lookup h' (fst (fst (fst r))) =
          Some (FloatArray shw
                  (first_pass_energies c0 shb bd (x :: cs)
                     (1 + fold_left Z.max cs x) w0)) /\
        length (estimate_passes (Caller a) (Caller b) (Caller c) maxiter
                  maxerr te err_out cb (Build_heap C [])) = 1
  end.
Proof.
  intros Ha Hb Hb2 Hc HM Hte Hw1 Hw0 Hmax new args run.
  destruct (Z.to_nat maxiter) as [|n] eqn:En; [lia|].
  unfold run, estimate, estimate_passes. rewrite En.
  destruct te as [l|].
  - destruct Hte as (k & ed & -> & Hk & Hed).
    rewrite (bind_run _ _ _ _ _
               (run_estimate_setup_warm C a b c k c0 shb bd x cs shw ed
                  Ha Hb Hc Hk HM)).
    rewrite (run_estimate_setup_warm C a b c k c0 shb bd x cs shw ed Ha Hb Hc Hk HM).
    rewrite <- Hed.
    match goal with
    | |- context [estimate_iteration ?fr _ _ _ _] => set (fr0 := fr)
    end.
    match goal with
    | |- context [for_range_trace _ _ _ _ ?h] => set (h1 := h)
    end.
    assert (R : pass_ready fr0 h1 (counts_of c0) shb (bias_weights_of bd)
                  [length c0] (repeat fzero (length c0)) shw w0 shw w0).
    { constructor; try reflexivity; try assumption; cbn; congruence. }
    pose proof (pass_outcome fr0 maxiter maxerr err_out cb 0 loop_entry h1
                  _ _ _ _ _ _ _ _ _ R) as P.
    cbv zeta in P. fold (first_weights c0 shb bd w0) in P. fold new in P.
    fold args in P.
    destruct (aborts cb args) as [ex|].
    + eexists.
      apply bind_raise. cbn [for_range]. apply bind_raise. exact P.
    + intros Hhalt.
      assert (P' : exists st1 old1,
                estimate_iteration fr0 maxiter maxerr err_out cb 0 loop_entry h1
                = Return (st1, true)
                    (Build_heap C
                       [IntArray (counts_of c0);
        FloatArray [length c0] (log_counts_of c0);
        FloatArray shw new;
        FloatArray shb (bias_weights_of bd);
        FloatArray shw ed;
        FloatArray shw old1;
        FloatArray [Z.to_nat (1 + fold_left Z.max cs x)]
          (repeat fzero (Z.to_nat (1 + fold_left Z.max cs x)));
        FloatArray [length c0] (updated_scratch (counts_of c0) shb (bias_weights_of bd) (repeat fzero (length c0)) w0 w0);
        FloatArray shw (relative_change new w0)])).
      { rewrite P. destruct (converged maxerr new w0).
        - eexists. eexists. reflexivity.
        - cbn [orb] in Hhalt. rewrite Hhalt. cbn [orb].
          eexists. eexists. reflexivity. }
      clear P. destruct P' as (st1 & old1 & P).
      destruct (for_range_break _ n _ _ _ _ _ P) as [F1 F2].
      rewrite (bind_run _ _ _ _ _ F1), F2.
      subst fr0. finish_script.
      all: eexists; eexists; (split; [reflexivity|split; [|reflexivity]]).
      all: heap_simpl; reflexivity.
  - destruct Hte as [-> ->].
    rewrite (bind_run _ _ _ _ _
               (run_estimate_setup_cold C a b c c0 shb bd x cs Ha Hb Hc HM)).
    rewrite (run_estimate_setup_cold C a b c c0 shb bd x cs Ha Hb Hc HM).
    set (w0 := repeat fone (length c0)) in *.
    match goal with
    | |- context [estimate_iteration ?fr _ _ _ _] => set (fr0 := fr)
    end.
    match goal with
    | |- context [for_range_trace _ _ _ _ ?h] => set (h1 := h)
    end.
    assert (R : pass_ready fr0 h1 (counts_of c0) shb (bias_weights_of bd)
                  [length c0] (repeat fzero (length c0))
                  [length c0] w0 [length c0] w0).
    { constructor; try reflexivity; try assumption; cbn; congruence. }
    pose proof (pass_outcome fr0 maxiter maxerr err_out cb 0 loop_entry h1
                  _ _ _ _ _ _ _ _ _ R) as P.
    cbv zeta in P. fold (first_weights c0 shb bd w0) in P. fold new in P.
    fold args in P.
    destruct (aborts cb args) as [ex|].
    + eexists.
      apply bind_raise. cbn [for_range]. apply bind_raise. exact P.
    + intros Hhalt.
      assert (P' : exists st1 old1,
                estimate_iteration fr0 maxiter maxerr err_out cb 0 loop_entry h1
                = Return (st1, true)
                    (Build_heap C
                       [IntArray (counts_of c0);
                        FloatArray [length c0] (log_counts_of c0);
                        FloatArray [length c0] (repeat fzero (length c0));
                        FloatArray [length c0] new;
                        FloatArray shb (bias_weights_of bd);
                        FloatArray [length c0] (repeat fzero (length c0));
                        FloatArray [length c0] old1;
                        FloatArray [Z.to_nat (1 + fold_left Z.max cs x)]
                          (repeat fzero (Z.to_nat (1 + fold_left Z.max cs x)));
                        FloatArray [length c0]
                          (updated_scratch (counts_of c0) shb
                             (bias_weights_of bd)
                             (repeat fzero (length c0)) w0 w0);
                        FloatArray [length c0] (relative_change new w0)])).
      { rewrite P. destruct (converged maxerr new w0).
        - eexists. eexists. reflexivity.
        - cbn [orb] in Hhalt. rewrite Hhalt. cbn [orb].
          eexists. eexists. reflexivity. }
      clear P. destruct P' as (st1 & old1 & P).
      destruct (for_range_break _ n _ _ _ _ _ P) as [F1 F2].
      rewrite (bind_run _ _ _ _ _ F1), F2.
      subst fr0. finish_script.
      all: eexists; eexists; (split; [reflexivity|split; [|reflexivity]]).
      all: heap_simpl; reflexivity.
Qed.
End FirstPass.

(* ================================================================== *)
(** * The driver: main results *)

(** C1, as the code has it.  In a pass that starts with the loop arrays in
    place and in which the observer raises nothing but, at most,
    [CallbackInterrupt]: the pass ends the loop exactly when the maximum over
    the entries of [|new - old| - maxerr * |new|] is below zero or the
    observer interrupted; when that test passes the old weights are left as
    they were, when it fails they are overwritten with the new weights; and
    the loop goes on with the next pass exactly when the test failed and the
    observer did not interrupt. *)
Theorem convergence_test_decides
    {D : Type} {ops : FloatOps D} {srv : Services D}
    fr maxiter maxerr err_out cb i st (h : heap D)
    c shb b shs s shw w sho o :
  pass_ready fr h c shb b shs s shw w sho o ->
  stop st = false ->
  let new := updated_weights c shb b s w o in
  let args := pass_args maxiter maxerr i new o in
  aborts cb args = None ->
  let halt := converged maxerr new o || interrupts cb args in
  let body := estimate_iteration fr maxiter maxerr err_out cb in
  exists st' h',
    body i st h = Return (st', halt) h' /\
    stop st' = halt /\
    lookup h' (therm_weights fr) = Some (FloatArray shw new) /\
    lookup h' (old_therm_weights fr)
      = Some (FloatArray sho (if converged maxerr new o then o else new)) /\
    forall n,
      for_range (S n) i body st h =
      if halt then Return st' h' else for_range n (S i) body st' h'.
Proof.
  intros R Hstop new args Hab halt body.
  assert (P := pass_outcome fr maxiter maxerr err_out cb i st h
                 c shb b shs s shw w sho o R).
  cbv zeta in P. fold new in P. fold args in P. rewrite Hab, Hstop in P.
  rewrite orb_false_r in P. fold body in P.
  destruct (updated_heap_lookups fr h c shb b shs s shw w sho o R)
    as (Hw & Ho & _). cbv zeta in Hw, Ho. fold new in Hw.
  assert (Hlen : length new = length o).
  { unfold new. rewrite updated_weights_length. apply (ready_length R). }
  unfold halt. destruct (converged maxerr new o); cbn [orb].
  - eexists. eexists. split; [exact P|]. split; [reflexivity|].
    split; [apply lookup_extend, Hw|]. split; [apply lookup_extend, Ho|].
    intros n. cbn [for_range]. rewrite (bind_run _ _ _ _ _ P). reflexivity.
  - eexists. eexists. split; [exact P|]. split; [reflexivity|].
    split; [|split].
    + rewrite (lookup_update_neq _ _ _ _ _ (lookup_extend _ _ _ _ Ho)).
      * apply lookup_extend, Hw.
      * intros E. apply (ready_new_old R). symmetry. exact E.
    + rewrite (blit_same_length o new Hlen).
      eapply lookup_update_eq. apply lookup_extend, Ho.
    + intros n. cbn [for_range]. rewrite (bind_run _ _ _ _ _ P).
      cbn [fst snd]. destruct (interrupts cb args); reflexivity.
Qed.

(** The loop arrays of the sample call, as [estimate] sets them up. *)
Lemma sample_pass_ready :
  pass_ready
    {| fr_T := 1; fr_M := 2;
       therm_state_counts := Local 0; log_therm_state_counts := Local 1;
       therm_energies := Local 2; therm_weights := Local 3;
       bias_weight_sequence := Local 4; old_therm_energies := Local 5;
       old_therm_weights := Local 6; scratch_M := Local 7;
       scratch_T := Local 8 |}
    (Build_heap sample_caller
       [IntArray [2%Z]; FloatArray [1] [Fin 0]; FloatArray [1] [Fin 0];
        FloatArray [1] [Fin 1]; FloatArray [1; 2] [Fin 1; Fin 1];
        FloatArray [1] [Fin 0]; FloatArray [1] [Fin 1];
        FloatArray [2] [Fin 0; Fin 0]; FloatArray [1] [Fin 0]])
    [2%Z] [1; 2] [Fin 1; Fin 1] [1] [Fin 0] [1] [Fin 1] [1] [Fin 1].
Proof. constructor; try reflexivity; cbn; congruence. Qed.

Lemma convergence_test_decides_witness :
  exists st' h',
    estimate_iteration
      {| fr_T := 1; fr_M := 2;
         therm_state_counts := Local 0; log_therm_state_counts := Local 1;
         therm_energies := Local 2; therm_weights := Local 3;
         bias_weight_sequence := Local 4; old_therm_energies := Local 5;
         old_therm_weights := Local 6; scratch_M := Local 7;
         scratch_T := Local 8 |}
      2 sample_maxerr 0 None 0 loop_entry
      (Build_heap sample_caller
         [IntArray [2%Z]; FloatArray [1] [Fin 0]; FloatArray [1] [Fin 0];
          FloatArray [1] [Fin 1]; FloatArray [1; 2] [Fin 1; Fin 1];
          FloatArray [1] [Fin 0]; FloatArray [1] [Fin 1];
          FloatArray [2] [Fin 0; Fin 0]; FloatArray [1] [Fin 0]])
    = Return (st', converged sample_maxerr
                     (updated_weights [2%Z] [1; 2] [Fin 1; Fin 1]
                        [Fin 0] [Fin 1] [Fin 1]) [Fin 1] || false) h'.
Proof.
  destruct (convergence_test_decides _ 2%Z sample_maxerr 0%Z None 0 loop_entry
              _ _ _ _ _ _ _ _ _ _ sample_pass_ready eq_refl eq_refl)
    as (st' & h' & E & _).
  exists st', h'. exact E.
Defined.

(** Evaluating the sample collaborators on idealised doubles. *)
Ltac dbl_eval :=
  cbv [first_weights updated_weights updated_scratch counts_of bias_weights_of
       log_counts_of energies_of first_pass_energies
       c_update_therm_weights mbar_get_conf_energies mbar_normalize
       sample_services sample_update_therm_weights sample_get_conf_energies
       spec_normalize blit converged convergence_margin relative_change
       np_max_value zip_with
       fltb fsub fabs fmul fadd fneg fdiv fexp flog fmax fzero fone f_of_int
       dbl_ops dsub dadd dneg dabs dmul
       map repeat length firstn skipn app fold_left fst snd nth
       sample_maxerr Z.to_nat Pos.to_nat Pos.iter_op Nat.add Nat.mul].

(** The facts about the sample call that [estimate_first_pass] asks for. *)
Lemma sample_first_pass maxiter err_out (cb : option (@callback dbl)) :
  (1 <= maxiter)%Z ->
  let new := first_weights [2%Z] [1; 2] [Fin 0; Fin 0] [Fin 1] in
  let args := pass_args maxiter sample_maxerr 0 new [Fin 1] in
  let run := estimate (Caller 0) (Caller 1) (Caller 2) maxiter sample_maxerr
               None err_out cb sample_heap in
  match aborts cb args with
  | Some ex => exists h', run = Raise ex h'
  | None =>
      converged sample_maxerr new [Fin 1] || interrupts cb args = true ->
      exists r h',
        run = Return r h' /\
        lookup h' (fst (fst (fst r))) =
          Some (FloatArray [1]
                  (first_pass_energies [2%Z] [1; 2] [Fin 0; Fin 0]
                     [0%Z; 1%Z] 2 [Fin 1])) /\
        length (estimate_passes (Caller 0) (Caller 1) (Caller 2) maxiter
                  sample_maxerr None err_out cb sample_heap) = 1
  end.
Proof.
  intros Hmax.
  apply (estimate_first_pass sample_caller 0 1 2 [2%Z] [1; 2] [Fin 0; Fin 0]
           0%Z [1%Z] None [1] [Fin 1] maxiter sample_maxerr err_out cb);
    try reflexivity; try assumption; try discriminate.
  split; reflexivity.
Qed.

Lemma sample_test_fails :
  converged sample_maxerr
    (first_weights [2%Z] [1; 2] [Fin 0; Fin 0] [Fin 1]) [Fin 1] = false.
Proof.
  dbl_eval. cbn [dltb]. apply Rltb_false.
  rewrite !Rabs_pos_eq by lra. lra.
Qed.

(** C1, as stated, fails: in the sample call, with two passes allowed and an
    observer that interrupts, the test fails in the first pass and yet the
    loop ends after it. *)
Lemma interrupted_pass_ends_loop :
  converged sample_maxerr
    (first_weights [2%Z] [1; 2] [Fin 0; Fin 0] [Fin 1]) [Fin 1] = false /\
  length (estimate_passes (Caller 0) (Caller 1) (Caller 2) 2 sample_maxerr
            None 0 (Some (always_raises CallbackInterrupt)) sample_heap) = 1.
Proof.
  split; [exact sample_test_fails|].
  destruct (sample_first_pass 2 0 (Some (always_raises CallbackInterrupt))
              ltac:(lia) (orb_true_r _)) as (r & h' & _ & _ & L).
  exact L.
Qed.

(** C5, as the code has it.  For inputs of the expected shapes and
    [maxiter >= 1]: with an observer that raises [CallbackInterrupt] whenever
    it is called, [estimate] returns after exactly one pass, and the
    thermodynamic free energies it returns are the elementwise negative
    logarithm of the weights of that pass as [normalize] has left them
    ([first_pass_energies]); when the observer raises any other exception
    in the first pass, [estimate] ends with that exception; and in any pass
    that starts with the loop arrays in place, such an exception ends the
    loop and whatever follows it. *)
Theorem estimate_interrupted
    {D : Type} {ops : FloatOps D} {srv : Services D}
    (C : list (ndarray D)) a b c c0 shb bd x cs te shw w0
    maxiter maxerr err_out :
  nth_error C a = Some (IntArray c0) ->
  nth_error C b = Some (FloatArray shb bd) -> length shb = 2 ->
  nth_error C c = Some (IntArray (x :: cs)) ->
  (0 <= 1 + fold_left Z.max cs x)%Z ->
  starts_from C (length c0) te shw w0 -> length shw = 1 -> w0 <> [] ->
  (1 <= maxiter)%Z ->
  let run cb := estimate (Caller a) (Caller b) (Caller c) maxiter maxerr te
                  err_out cb (Build_heap C []) in
  (exists r h',
     run (Some (always_raises CallbackInterrupt)) = Return r h' /\
     length (estimate_passes (Caller a) (Caller b) (Caller c) maxiter maxerr
               te err_out (Some (always_raises CallbackInterrupt))
               (Build_heap C [])) = 1 /\
     lookup h' (fst (fst (fst r))) =
       Some (FloatArray shw
               (first_pass_energies c0 shb bd (x :: cs)
                  (1 + fold_left Z.max cs x) w0))) /\
  (forall f e,
     f (pass_args maxiter maxerr 0 (first_weights c0 shb bd w0) w0)
       = CallbackRaises e ->
     is_interrupt e = false ->
     exists h', run (Some f) = Raise e h') /\
  (forall cb fr i st (h : heap D) c1 shb1 b1 shs1 s1 shw1 w1 sho1 o1 e n
          (rest : loop_state -> M D (loc * loc * loc * option loc)),
     pass_ready fr h c1 shb1 b1 shs1 s1 shw1 w1 sho1 o1 ->
     aborts cb (pass_args maxiter maxerr i
                  (updated_weights c1 shb1 b1 s1 w1 o1) o1) = Some e ->
     exists h',
       bind (for_range (S n) i
               (estimate_iteration fr maxiter maxerr err_out cb) st)
            rest h = Raise e h').
Proof.
  intros Ha Hb Hb2 Hc HM Hte Hw1 Hw0 Hmax run. split; [|split].
  3: { intros cb fr i st h c1 shb1 b1 shs1 s1 shw1 w1 sho1 o1 e n rest R Hab.
       assert (P := pass_outcome fr maxiter maxerr err_out cb i st h
                      c1 shb1 b1 shs1 s1 shw1 w1 sho1 o1 R).
       cbv zeta in P. rewrite Hab in P. eexists.
       apply bind_raise. cbn [for_range]. apply bind_raise. exact P. }
  - destruct (estimate_first_pass C a b c c0 shb bd x cs te shw w0 maxiter
                maxerr err_out (Some (always_raises CallbackInterrupt))
                Ha Hb Hb2 Hc HM Hte Hw1 Hw0 Hmax (orb_true_r _))
      as (r & h' & E & L & P).
    exists r, h'. auto.
  - intros f e Hf He.
    assert (P := estimate_first_pass C a b c c0 shb bd x cs te shw w0 maxiter
                   maxerr err_out (Some f) Ha Hb Hb2 Hc HM Hte Hw1 Hw0 Hmax).
    cbv zeta in P. unfold aborts in P. rewrite Hf, He in P. exact P.
Qed.

Lemma estimate_interrupted_witness :
  exists r h',
    estimate (Caller 0) (Caller 1) (Caller 2) 3 sample_maxerr None 0
      (Some (always_raises CallbackInterrupt)) sample_heap = Return r h' /\
    length (estimate_passes (Caller 0) (Caller 1) (Caller 2) 3 sample_maxerr
              None 0 (Some (always_raises CallbackInterrupt)) sample_heap) = 1.
Proof.
  destruct (estimate_interrupted sample_caller 0 1 2 [2%Z] [1; 2]
              [Fin 0; Fin 0] 0%Z [1%Z] None [1] [Fin 1] 3 sample_maxerr 0
              eq_refl eq_refl eq_refl eq_refl ltac:(cbn; lia)
              ltac:(split; reflexivity) eq_refl ltac:(discriminate) ltac:(lia))
    as [(r & h' & E & P & _) _].
  exists r, h'. split; [exact E|exact P].
Defined.

(** C5, as stated, fails: in the sample call the returned thermodynamic free
    energies are not the negative logarithm of the weights of the one pass;
    [normalize] has shifted them. *)
Lemma returned_energies_are_normalised :
  exists r h',
    estimate (Caller 0) (Caller 1) (Caller 2) 1 sample_maxerr None 0
      (Some (always_raises CallbackInterrupt)) sample_heap = Return r h' /\
    lookup h' (fst (fst (fst r))) <>
      Some (FloatArray [1]
              (energies_of
                 (first_weights [2%Z] [1; 2] [Fin 0; Fin 0] [Fin 1]))).
Proof.
  destruct (sample_first_pass 1 0 (Some (always_raises CallbackInterrupt))
              ltac:(lia) (orb_true_r _)) as (r & h' & E & L & _).
  exists r, h'. split; [exact E|]. rewrite L. intros H. injection H as H.
  revert H. dbl_eval. rewrite (Rltb_true 0 (1 + 1)) by lra.
  change [Fin (- 0); Fin (- 0)] with (map Fin [- 0; - 0]%R).
  rewrite lse_spec_Fin. cbn [map Rsum]. intros H. injection H as H.
  replace (- 0)%R with 0%R in H by lra. rewrite exp_0 in H.
  replace (1 + (1 + 0))%R with 2%R in H by lra.
  assert (Hl := ln_lt_2). lra.
Qed.

(** C6.  When [estimate] returns: every completed pass has left its
    convergence error in [err]; for a stride [err_out] of zero no pass
    records anything and the returned trajectory is absent; for a positive
    stride the counter after each pass is the number of passes so far modulo
    the stride (it is zero after each append), and the returned trajectory
    is a new array that holds, in order, the errors of the passes number
    [err_out], [2 err_out], ... and nothing else.  The error of a pass is
    the maximum over the thermodynamic states of [|new - old| / |new|]:
    [new] and [old] are the contents of [therm_weights] and
    [old_therm_weights] once line 119 has run in the store the pass started
    in, and the maximum is taken over all of their entries (lines 120 and
    121). *)
Theorem estimate_error_trajectory
    {D : Type} {ops : FloatOps D} {srv : Services D}
    tsc bes css maxiter maxerr te err_out cb (h : heap D) r h' :
  estimate tsc bes css maxiter maxerr te err_out cb h = Return r h' ->
  let passes := estimate_passes tsc bes css maxiter maxerr te err_out cb h in
  length (errors_of passes) = length passes /\
  (err_out = 0%Z ->
   snd r = None /\ Forall (fun st => err_traj st = []) passes) /\
  ((0 < err_out)%Z ->
   (forall pre st post, passes = pre ++ st :: post ->
      sampled err_out (errors_of (pre ++ [st])) st) /\
   exists l,
     snd r = Some l /\
     lookup h' l =
       Some (FloatArray [length (every_nth err_out (errors_of passes))]
                        (every_nth err_out (errors_of passes)))) /\
  (exists fr h0,
     estimate_setup tsc bes css te h = Return fr h0 /\
     let log := estimate_log tsc bes css maxiter maxerr te err_out cb h in
     map snd log = passes /\
     Forall (fun p =>
               exists e, err (snd p) = Some e /\
                 exists h1 shn new sho old d ds,
                   update_therm_weights (therm_state_counts fr)
                     (old_therm_weights fr) (bias_weight_sequence fr)
                     (scratch_T fr) (therm_weights fr) (fst p)
                     = Return tt h1 /\
                   lookup h1 (therm_weights fr)
                     = Some (FloatArray shn new) /\
                   lookup h1 (old_therm_weights fr)
                     = Some (FloatArray sho old) /\
                   zip_with fdiv (map fabs (zip_with fsub new old))
                                 (map fabs new) = d :: ds /\
                   e = fold_left fmax ds d)
       log).
Proof.
  intros H passes. unfold estimate in H.
  apply bind_return_inv in H. destruct H as (fr & h1 & Es & H).
  apply bind_return_inv in H. destruct H as (st & h2 & El & H).
  assert (Hp : passes =
               for_range_trace (Z.to_nat maxiter) 0
                 (estimate_iteration fr maxiter maxerr err_out cb)
                 loop_entry h1).
  { unfold passes, estimate_passes. rewrite Es. reflexivity. }
  destruct (finish_trajectory _ _ _ _ _ _ _ _ H) as [Hz Hnz].
  assert (S0 : sampled err_out [] (loop_entry (D := D)))
    by (split; reflexivity).
  split; [|split; [|split]].
  - rewrite Hp. apply passes_have_errors.
  - intros ->. split; [now apply Hz|].
    rewrite Hp. apply passes_unsampled; [cbn; lia|reflexivity].
  - intros Hk. split.
    + intros pre st' post Hsplit. rewrite Hp in Hsplit.
      exact (passes_sampled fr maxiter maxerr err_out cb _ Hk
               _ _ _ [] _ _ _ S0 Hsplit).
    + destruct Hnz as (l & Hl & Hh); [lia|].
      exists l. split; [exact Hl|]. rewrite Hh.
      assert (Ht := loop_bookkeeping fr maxiter maxerr err_out cb _ Hk
                      _ _ _ _ _ [] El S0).
      destruct Ht as [Ht _]. cbn [app] in Ht. rewrite <- Hp in Ht.
      rewrite Ht. reflexivity.
  - exists fr, h1. split; [exact Es|].
    unfold estimate_log. rewrite Es. cbv zeta. split.
    + rewrite Hp. apply log_states.
    + apply passes_errors.
Qed.

Lemma estimate_error_trajectory_witness :
  exists r h' l,
    estimate (Caller 0) (Caller 1) (Caller 2) 3 sample_maxerr None 1
      (Some (always_raises CallbackInterrupt)) sample_heap = Return r h' /\
    snd r = Some l /\
    lookup h' l =
      Some (FloatArray
              [length (every_nth 1 (errors_of
                 (estimate_passes (Caller 0) (Caller 1) (Caller 2) 3
                    sample_maxerr None 1
                    (Some (always_raises CallbackInterrupt)) sample_heap)))]
              (every_nth 1 (errors_of
                 (estimate_passes (Caller 0) (Caller 1) (Caller 2) 3
                    sample_maxerr None 1
                    (Some (always_raises CallbackInterrupt)) sample_heap)))).
Proof.
  destruct (sample_first_pass 3 1 (Some (always_raises CallbackInterrupt))
              ltac:(lia) (orb_true_r _)) as (r & h' & E & _).
  destruct (estimate_error_trajectory _ _ _ _ _ _ _ _ _ _ _ E)
    as (_ & _ & Hpos & _).
  destruct (Hpos ltac:(lia)) as (_ & l & Hl & Hh).
  exists r, h', l. split; [exact E|]. split; [exact Hl|exact Hh].
Defined.

(** C10.  Entered with a store that holds the arrays of the caller, the
    arguments among them with the dtypes of the signature: the counts and
    the bias weights the loop works on are arrays [estimate] has allocated
    itself, as is every array it writes; [estimate] returns or raises, and
    however it ends every array of the caller holds what it held; the three
    arrays of free energies it returns are arrays it has allocated itself. *)
Theorem estimate_keeps_caller_arrays
    {D : Type} {ops : FloatOps D} {srv : Services D}
    (C : list (ndarray D)) tsc bes css maxiter maxerr te err_out cb :
  well_typed_call (Build_heap C []) tsc bes css te ->
  match estimate_setup tsc bes css te (Build_heap C []) with
  | Return fr _ => frame_locals fr
  | _ => True
  end /\
  match estimate tsc bes css maxiter maxerr te err_out cb (Build_heap C []) with
  | Return r h' =>
      caller h' = C /\
      is_local (fst (fst (fst r))) /\ is_local (snd (fst (fst r))) /\
      is_local (snd (fst r))
  | Raise _ h' => caller h' = C
  | Fault => False
  end.
Proof.
  intros W. split.
  { assert (K := keeps_estimate_setup tsc bes css te (Build_heap C [])).
    destruct (estimate_setup tsc bes css te (Build_heap C []));
      [exact (proj2 K)|exact I|exact I]. }
  assert (K : keeps (estimate tsc bes css maxiter maxerr te err_out cb)
                (fun r => is_local (fst (fst (fst r))) /\
                          is_local (snd (fst (fst r))) /\
                          is_local (snd (fst r)))).
  { unfold estimate.
    eapply keeps_bind; [apply keeps_estimate_setup|intros fr Hfr].
    eapply keeps_bind.
    - apply keeps_for_range. intros i st.
      apply keeps_estimate_iteration. exact (proj2 (proj2 Hfr)).
    - intros st _. apply keeps_estimate_finish. exact (proj2 (proj2 Hfr)). }
  specialize (K (Build_heap C [])).
  assert (R := runs_estimate tsc bes css maxiter maxerr te err_out cb _ W).
  unfold runs in R.
  destruct (estimate tsc bes css maxiter maxerr te err_out cb (Build_heap C []))
    as [r h'|e h'|]; [exact K|exact K|exact R].
Qed.

Lemma estimate_keeps_caller_arrays_witness :
  match estimate (Caller 0) (Caller 1) (Caller 2) 3 sample_maxerr None 0 None
          sample_heap with
  | Return r h' =>
      caller h' = sample_caller /\
      is_local (fst (fst (fst r))) /\ is_local (snd (fst (fst r))) /\
      is_local (snd (fst r))
  | Raise _ h' => caller h' = sample_caller
  | Fault => False
  end.
Proof.
  apply (estimate_keeps_caller_arrays sample_caller (Caller 0) (Caller 1)
           (Caller 2) 3 sample_maxerr None 0 None).
  unfold well_typed_call, is_int, is_float. cbn. eauto 10.
Defined.

(* ================================================================== *)
(** * More on loops over buffers *)

Section BufferBounds.
Context {A : Type}.

Lemma load_some (a : list A) i x : load a i = Some x -> i < length a.
Proof. unfold load. intros H. apply nth_error_Some. congruence. Qed.

Lemma store_some (a a' : list A) i v : store a i v = Some a' -> i < length a.
Proof.
  unfold store. destruct (Nat.ltb_spec i (length a)); [auto|discriminate].
Qed.

Lemma for_up_S {St : Type} (body : nat -> St -> option St) n start s :
  for_up (S n) start body s =
  match body start s with
  | Some s' => for_up n (S start) body s'
  | None => None
  end.
Proof. reflexivity. Qed.

(** The last round of a loop that ran to its end. *)
Lemma for_up_last {St : Type} (body : nat -> St -> option St) n :
  forall start s s',
  for_up (S n) start body s = Some s' ->
  exists t, for_up n start body s = Some t /\ body (start + n) t = Some s'.
Proof.
  induction n as [|n IH]; intros start s s' H; rewrite for_up_S in H.
  - destruct (body start s) as [s1|] eqn:E; [|discriminate].
    cbn [for_up] in H. injection H as <-.
    exists s. rewrite Nat.add_0_r. split; [reflexivity|assumption].
  - destruct (body start s) as [s1|] eqn:E; [|discriminate].
    destruct (IH _ _ _ H) as (t & Ht & Hb).
    exists t. split.
    + rewrite for_up_S, E. exact Ht.
    + rewrite <- Nat.add_succ_comm. exact Hb.
Qed.

(** What every round keeps, a loop that ran to its end has kept. *)
Lemma for_up_preserves {St : Type} (P : St -> Prop)
    (body : nat -> St -> option St) n :
  forall start s s',
  (forall i t t', start <= i < start + n -> body i t = Some t' -> P t -> P t') ->
  for_up n start body s = Some s' -> P s -> P s'.
Proof.
  induction n as [|n IH]; intros start s s' Hstep H Hs.
  - cbn in H. congruence.
  - rewrite for_up_S in H.
    destruct (body start s) as [s1|] eqn:E; [|discriminate].
    apply (IH (S start) s1 s'); [|assumption|].
    + intros i t t' Hi. apply Hstep. lia.
    + apply (Hstep start s s1); [lia|assumption|assumption].
Qed.

End BufferBounds.

(* ================================================================== *)
(** * More on the WHAM kernels: bounds and what is left alone *)

Section KernelBounds.
Context {D : Type} {ops : FloatOps D} {lse : LogSumExp D}.

Lemma c_int_some z y :
  c_int z = Some y -> y = z /\ (- INT_MAX - 1 <= z <= INT_MAX)%Z.
Proof.
  unfold c_int.
  destruct (Z.leb_spec (- INT_MAX - 1) z), (Z.leb_spec z INT_MAX);
    cbn [andb]; intros E; try discriminate.
  injection E as <-. lia.
Qed.

Lemma scratch_kept_refl n (s : list D) : scratch_kept n s s.
Proof. split; auto. Qed.

Lemma store_kept n (a a' : list D) i v :
  store a i v = Some a' -> i < n -> scratch_kept n a a'.
Proof.
  intros E Hi. split; [exact (store_length _ _ _ _ E)|].
  intros j Hj. rewrite (store_lookup _ _ _ _ j E).
  destruct (Nat.eqb_spec j i); [lia|reflexivity].
Qed.

(** The rows write [scratch[0 .. n)] only. *)
Lemma rc_wham_fk_row_kept f_i b_K_i M K (s s' : list D) :
  rc_wham_fk_row f_i b_K_i M K s = Some s' -> scratch_kept (Z.to_nat M) s s'.
Proof.
  unfold rc_wham_fk_row.
  destruct (c_int (Z.of_nat K * M)) as [KM|]; [|discriminate].
  intros H.
  eapply (for_up_preserves (scratch_kept (Z.to_nat M) s)); [|exact H|exact (scratch_kept_refl _ _)].
  intros i t t' Hi. cbv beta. intros E Ht. revert E.
  destruct (c_int (KM + Z.of_nat i)) as [j|]; [|discriminate].
  destruct (load b_K_i (Z.to_nat j)); [|discriminate].
  destruct (load f_i i); [|discriminate]. intros E.
  eapply scratch_kept_trans; [exact Ht|]. eapply store_kept; [exact E|lia].
Qed.

Lemma rc_wham_fi_row_kept log_N_K f_K b_K_i T M i (s s' : list D) :
  rc_wham_fi_row log_N_K f_K b_K_i T M i s = Some s' ->
  scratch_kept (Z.to_nat T) s s'.
Proof.
  unfold rc_wham_fi_row. intros H.
  eapply (for_up_preserves (scratch_kept (Z.to_nat T) s)); [|exact H|exact (scratch_kept_refl _ _)].
  intros K t t' HK. cbv beta. intros E Ht. revert E.
  destruct (load log_N_K K); [|discriminate].
  destruct (c_int (Z.of_nat K * M)) as [KM|]; [|discriminate].
  destruct (c_int (KM + Z.of_nat i)) as [j|]; [|discriminate].
  destruct (load b_K_i (Z.to_nat j)); [|discriminate].
  destruct (load f_K K); [|discriminate]. intros E.
  eapply scratch_kept_trans; [exact Ht|]. eapply store_kept; [exact E|lia].
Qed.

Lemma rc_wham_fk_kept f_i b_K_i T M (scratch f_K : list D) r :
  rc_wham_fk f_i b_K_i T M scratch f_K = Some r ->
  scratch_kept (Z.to_nat M) scratch (fst r) /\
  scratch_kept (Z.to_nat T) f_K (snd r).
Proof.
  unfold rc_wham_fk. intros H.
  eapply (for_up_preserves (fun st => scratch_kept (Z.to_nat M) scratch (fst st) /\
                      scratch_kept (Z.to_nat T) f_K (snd st)));
    [|exact H|split; apply scratch_kept_refl].
  intros K [s f] t' HK. cbv beta. cbn [fst snd]. intros E [Hs Hf].
  cbn [fst snd] in *. revert E.
  destruct (rc_wham_fk_row f_i b_K_i M K s) as [s1|] eqn:Er; [|discriminate].
  destruct (call_logsumexp s1 M) as [l|]; [|discriminate].
  destruct (store f K (fneg l)) as [f1|] eqn:Es; [|discriminate].
  intros E. injection E as <-. cbn [fst snd]. split.
  - exact (scratch_kept_trans _ _ _ _ Hs (rc_wham_fk_row_kept _ _ _ _ _ _ Er)).
  - eapply scratch_kept_trans; [exact Hf|]. eapply store_kept; [exact Es|lia].
Qed.

Lemma rc_wham_fi_kept log_N_K log_N_i f_K b_K_i T M (scratch f_i : list D) r :
  rc_wham_fi log_N_K log_N_i f_K b_K_i T M scratch f_i = Some r ->
  scratch_kept (Z.to_nat T) scratch (fst r) /\
  scratch_kept (Z.to_nat M) f_i (snd r).
Proof.
  unfold rc_wham_fi. intros H.
  eapply (for_up_preserves (fun st => scratch_kept (Z.to_nat T) scratch (fst st) /\
                      scratch_kept (Z.to_nat M) f_i (snd st)));
    [|exact H|split; apply scratch_kept_refl].
  intros i [s f] t' Hi. cbv beta. cbn [fst snd]. intros E [Hs Hf].
  cbn [fst snd] in *. revert E.
  destruct (rc_wham_fi_row log_N_K f_K b_K_i T M i s) as [s1|] eqn:Er;
    [|discriminate].
  destruct (call_logsumexp s1 T) as [l|]; [|discriminate].
  destruct (load log_N_i i) as [c|]; [|discriminate].
  destruct (store f i (fsub l c)) as [f1|] eqn:Es; [|discriminate].
  intros E. injection E as <-. cbn [fst snd]. split.
  - exact (scratch_kept_trans _ _ _ _ Hs (rc_wham_fi_row_kept _ _ _ _ _ _ _ _ Er)).
  - eapply scratch_kept_trans; [exact Hf|]. eapply store_kept; [exact Es|lia].
Qed.

(** Only [Z.to_nat] of the count matters to [rc_wham_normalize]. *)
Lemma rc_wham_normalize_count (f_i : list D) n scratch :
  rc_wham_normalize f_i n scratch =
  rc_wham_normalize f_i (Z.of_nat (Z.to_nat n)) scratch.
Proof.
  unfold rc_wham_normalize, call_logsumexp. rewrite Nat2Z.id. reflexivity.
Qed.

Lemma rc_wham_normalize_out_of_bounds (f_i : list D) n scratch r :
  rc_wham_normalize f_i n scratch = Some r ->
  Z.to_nat n <= length f_i /\ Z.to_nat n <= length scratch.
Proof.
  unfold rc_wham_normalize. destruct (Z.to_nat n) as [|m]; [lia|].
  destruct (for_up (S m) 0 _ scratch) as [s1|] eqn:E1; [|discriminate].
  intros _. destruct (for_up_last _ _ _ _ _ E1) as (t & Ht & Hb).
  cbn [Nat.add] in Hb.
  destruct (load f_i m) as [x|] eqn:El; [|discriminate].
  apply load_some in El. apply store_some in Hb.
  assert (Hlen : length t = length scratch).
  { eapply (for_up_preserves (fun u => length u = length scratch)); [|exact Ht|exact eq_refl].
    intros i u u' _. cbv beta. intros E Hu. revert E.
    destruct (load f_i i); [|discriminate]. intros E.
    rewrite (store_length _ _ _ _ E). exact Hu. }
  lia.
Qed.

(** The last round of a row of [rc_wham_fk]. *)
Lemma rc_wham_fk_row_bounds f_i b_K_i M K (s s' : list D) :
  (0 < M)%Z -> rc_wham_fk_row f_i b_K_i M K s = Some s' ->
  (Z.of_nat K * M + M - 1 <= INT_MAX)%Z /\
  (Z.of_nat K * M + M <= Z.of_nat (length b_K_i))%Z /\
  (M <= Z.of_nat (length f_i))%Z /\ (M <= Z.of_nat (length s))%Z.
Proof.
  intros HM. unfold rc_wham_fk_row.
  destruct (c_int (Z.of_nat K * M)) as [KM|] eqn:EK; [|discriminate].
  apply c_int_some in EK as [-> _].
  destruct (Z.to_nat M) as [|m] eqn:Em; [lia|]. intros H.
  destruct (for_up_last _ _ _ _ _ H) as (t & Ht & Hb). cbn [Nat.add] in Hb.
  destruct (c_int (Z.of_nat K * M + Z.of_nat m)) as [j|] eqn:Ej; [|discriminate].
  apply c_int_some in Ej as [-> Hj].
  destruct (load b_K_i _) as [b|] eqn:Eb; [|discriminate].
  destruct (load f_i m) as [f|] eqn:Ef; [|discriminate].
  apply load_some in Eb, Ef. apply store_some in Hb.
  assert (Hlen : length t = length s).
  { eapply (for_up_preserves (fun u => length u = length s)); [|exact Ht|exact eq_refl].
    intros i u u' _. cbv beta. intros E Hu. revert E.
    destruct (c_int _) as [j|]; [|discriminate].
    destruct (load b_K_i _); [|discriminate].
    destruct (load f_i i); [|discriminate]. intros E.
    rewrite (store_length _ _ _ _ E). exact Hu. }
  assert (HK : (0 <= Z.of_nat K * M)%Z) by nia.
  repeat split; lia.
Qed.

Lemma rc_wham_fi_row_bounds log_N_K f_K b_K_i T M i (s s' : list D) :
  (0 < T)%Z -> (0 <= M)%Z ->
  rc_wham_fi_row log_N_K f_K b_K_i T M i s = Some s' ->
  ((T - 1) * M + Z.of_nat i <= INT_MAX)%Z /\
  ((T - 1) * M + Z.of_nat i < Z.of_nat (length b_K_i))%Z /\
  (T <= Z.of_nat (length log_N_K))%Z /\ (T <= Z.of_nat (length f_K))%Z /\
  (T <= Z.of_nat (length s))%Z.
Proof.
  intros HT HM. unfold rc_wham_fi_row.
  destruct (Z.to_nat T) as [|k] eqn:Ek; [lia|]. intros H.
  destruct (for_up_last _ _ _ _ _ H) as (t & Ht & Hb). cbn [Nat.add] in Hb.
  destruct (load log_N_K k) as [a|] eqn:Ea; [|discriminate].
  destruct (c_int (Z.of_nat k * M)) as [KM|] eqn:EK; [|discriminate].
  apply c_int_some in EK as [-> _].
  destruct (c_int (Z.of_nat k * M + Z.of_nat i)) as [j|] eqn:Ej; [|discriminate].
  apply c_int_some in Ej as [-> Hj].
  destruct (load b_K_i _) as [b|] eqn:Eb; [|discriminate].
  destruct (load f_K k) as [f|] eqn:Ef; [|discriminate].
  apply load_some in Ea, Eb, Ef. apply store_some in Hb.
  assert (Hlen : length t = length s).
  { eapply (for_up_preserves (fun u => length u = length s)); [|exact Ht|exact eq_refl].
    intros K u u' _. cbv beta. intros E Hu. revert E.
    destruct (load log_N_K K); [|discriminate].
    destruct (c_int _) as [KM|]; [|discriminate].
    destruct (c_int _) as [j|]; [|discriminate].
    destruct (load b_K_i _); [|discriminate].
    destruct (load f_K K); [|discriminate]. intros E.
    rewrite (store_length _ _ _ _ E). exact Hu. }
  assert (Hk : Z.of_nat k = (T - 1)%Z) by lia. rewrite Hk in *.
  assert (HK : (0 <= (T - 1) * M)%Z) by nia.
  repeat split; lia.
Qed.

End KernelBounds.

(** X1.  [rc_wham_normalize], for any arithmetic
    and with [rc_logsumexp] taken as a function of the values it is handed
    (what it leaves in their cells is not stated): with [n] the count (zero
    for a negative one), the call stays inside its buffers exactly when
    [f_i] and [scratch] hold at least [n] cells; it then adds one value, the
    log-sum-exp of the negated first [n] entries, to each of these entries,
    and leaves the other cells of [f_i] and the cells of [scratch] from [n]
    on as they were. *)
Theorem rc_wham_normalize_closed_form
    {D : Type} {ops : FloatOps D} {lse : LogSumExp D}
    (f_i scratch : list D) (n_markov_states : Z) :
  let n := Z.to_nat n_markov_states in
  match rc_wham_normalize f_i n_markov_states scratch with
  | Some (f_i', scratch') =>
      n <= length f_i /\ n <= length scratch /\
      f_i' = map (fun x => fadd x (rc_logsumexp (map fneg (firstn n f_i))))
                 (firstn n f_i) ++ skipn n f_i /\
      length scratch' = length scratch /\
      skipn n scratch' = skipn n scratch
  | None => length f_i < n \/ length scratch < n
  end.
Proof.
  intros n.
  destruct (Nat.leb_spec n (length f_i)) as [Hf|Hf];
    [destruct (Nat.leb_spec n (length scratch)) as [Hs|Hs]|].
  - rewrite rc_wham_normalize_count.
    assert (E := rc_wham_normalize_eq f_i n scratch Hf Hs).
    fold n. rewrite E. repeat split; try assumption.
    + rewrite length_app, length_map, length_firstn, length_skipn. lia.
    + rewrite skipn_app, length_map, length_firstn.
      replace (Nat.min n (length f_i)) with n by lia.
      rewrite Nat.sub_diag.
      rewrite skipn_all2 by (rewrite length_map, length_firstn; lia).
      reflexivity.
  - destruct (rc_wham_normalize f_i n_markov_states scratch) as [r|] eqn:E;
      [|right; exact Hs].
    apply rc_wham_normalize_out_of_bounds in E. fold n in E. lia.
  - destruct (rc_wham_normalize f_i n_markov_states scratch) as [r|] eqn:E;
      [|left; exact Hf].
    apply rc_wham_normalize_out_of_bounds in E. fold n in E. lia.
Qed.

(** X2.  [rc_wham_fk] called with positive state counts returns only if it
    could stay inside its buffers and its index arithmetic inside [int]:
    [f_i] and [scratch] hold [n_markov_states] cells, [f_K] holds
    [n_therm_states] cells, [b_K_i] holds the whole table, and the last
    index of the table is at most [INT_MAX]. *)
Theorem rc_wham_fk_bounds {D : Type} {ops : FloatOps D} {lse : LogSumExp D}
    (f_i b_K_i : list D) (n_therm_states n_markov_states : Z)
    (scratch f_K : list D) :
  (0 < n_therm_states)%Z -> (0 < n_markov_states)%Z ->
  rc_wham_fk f_i b_K_i n_therm_states n_markov_states scratch f_K <> None ->
  (n_markov_states <= Z.of_nat (length f_i))%Z /\
  (n_therm_states * n_markov_states <= Z.of_nat (length b_K_i))%Z /\
  (n_markov_states <= Z.of_nat (length scratch))%Z /\
  (n_therm_states <= Z.of_nat (length f_K))%Z /\
  (n_therm_states * n_markov_states - 1 <= INT_MAX)%Z.
Proof.
  intros HT HM Hr.
  destruct (rc_wham_fk f_i b_K_i n_therm_states n_markov_states scratch f_K)
    as [r|] eqn:E; [clear Hr|congruence].
  unfold rc_wham_fk in E.
  destruct (Z.to_nat n_therm_states) as [|k] eqn:Ek; [lia|].
  destruct (for_up_last _ _ _ _ _ E) as ([s f] & Ht & Hb).
  cbn [Nat.add fst snd] in Hb.
  assert (Hk : scratch_kept (Z.to_nat n_markov_states) scratch s /\
               scratch_kept (Z.to_nat (Z.of_nat k)) f_K f).
  { apply (rc_wham_fk_kept f_i b_K_i (Z.of_nat k) n_markov_states scratch f_K (s, f)).
    unfold rc_wham_fk. rewrite Nat2Z.id. exact Ht. }
  destruct Hk as [[Hls _] [Hlf _]].
  destruct (rc_wham_fk_row f_i b_K_i n_markov_states k s) as [s1|] eqn:Er;
    [|discriminate].
  destruct (call_logsumexp s1 n_markov_states) as [l|]; [|discriminate].
  destruct (store f k (fneg l)) as [f1|] eqn:Es; [|discriminate].
  apply store_some in Es.
  destruct (rc_wham_fk_row_bounds _ _ _ _ _ _ HM Er) as (B1 & B2 & B3 & B4).
  assert (Hk : Z.of_nat k = (n_therm_states - 1)%Z) by lia.
  rewrite Hk in B1, B2.
  repeat split; try lia.
Qed.

Lemma rc_wham_fk_bounds_witness :
  (2 <= Z.of_nat (length [Fin 1; Fin 2]))%Z /\
  (1 * 2 <= Z.of_nat (length [Fin 3; Fin 4]))%Z /\
  (2 <= Z.of_nat (length [NaN; NaN]))%Z /\
  (1 <= Z.of_nat (length [NaN]))%Z /\
  (1 * 2 - 1 <= INT_MAX)%Z.
Proof.
  apply (rc_wham_fk_bounds [Fin 1; Fin 2] [Fin 3; Fin 4] 1 2 [NaN; NaN] [NaN]);
    [lia|lia|discriminate].
Defined.

(** X3.  [rc_wham_fi] called with positive state counts returns only if it
    could stay inside its buffers and its index arithmetic inside [int]. *)
Theorem rc_wham_fi_bounds {D : Type} {ops : FloatOps D} {lse : LogSumExp D}
    (log_N_K log_N_i f_K b_K_i : list D) (n_therm_states n_markov_states : Z)
    (scratch f_i : list D) :
  (0 < n_therm_states)%Z -> (0 < n_markov_states)%Z ->
  rc_wham_fi log_N_K log_N_i f_K b_K_i n_therm_states n_markov_states
    scratch f_i <> None ->
  (n_therm_states <= Z.of_nat (length log_N_K))%Z /\
  (n_markov_states <= Z.of_nat (length log_N_i))%Z /\
  (n_therm_states <= Z.of_nat (length f_K))%Z /\
  (n_therm_states * n_markov_states <= Z.of_nat (length b_K_i))%Z /\
  (n_therm_states <= Z.of_nat (length scratch))%Z /\
  (n_markov_states <= Z.of_nat (length f_i))%Z /\
  (n_therm_states * n_markov_states - 1 <= INT_MAX)%Z.
Proof.
  intros HT HM Hr.
  destruct (rc_wham_fi log_N_K log_N_i f_K b_K_i n_therm_states
              n_markov_states scratch f_i) as [r|] eqn:E; [clear Hr|congruence].
  unfold rc_wham_fi in E.
  destruct (Z.to_nat n_markov_states) as [|m] eqn:Em; [lia|].
  destruct (for_up_last _ _ _ _ _ E) as ([s f] & Ht & Hb).
  cbn [Nat.add fst snd] in Hb.
  set (P := fun st : list D * list D =>
              length (fst st) = length scratch /\ length (snd st) = length f_i).
  assert (Hl : P (s, f)).
  { refine (for_up_preserves P _ _ _ _ _ _ Ht _); [|split; reflexivity].
    unfold P.
    intros i [s0 f0] t' _. cbv beta. cbn [fst snd]. intros Eb [Hs0 Hf0].
    revert Eb.
    destruct (rc_wham_fi_row _ _ _ _ _ i s0) as [s1|] eqn:Er; [|discriminate].
    destruct (call_logsumexp s1 _) as [l|]; [|discriminate].
    destruct (load log_N_i i) as [c|]; [|discriminate].
    destruct (store f0 i (fsub l c)) as [f1|] eqn:Es; [|discriminate].
    intros Eb. injection Eb as <-. cbn [fst snd].
    destruct (rc_wham_fi_row_kept _ _ _ _ _ _ _ _ Er) as [-> _].
    rewrite (store_length _ _ _ _ Es). auto. }
  unfold P in Hl. cbn [fst snd] in Hl. destruct Hl as [Hls Hlf]. clear P.
  destruct (rc_wham_fi_row log_N_K f_K b_K_i n_therm_states n_markov_states
              m s) as [s1|] eqn:Er; [|discriminate].
  destruct (call_logsumexp s1 n_therm_states) as [l|]; [|discriminate].
  destruct (load log_N_i m) as [c|] eqn:El; [|discriminate].
  destruct (store f m (fsub l c)) as [f1|] eqn:Es; [|discriminate].
  apply load_some in El. apply store_some in Es.
  destruct (rc_wham_fi_row_bounds _ _ _ _ _ _ _ _ HT (Z.lt_le_incl _ _ HM) Er)
    as (B1 & B2 & B3 & B4 & B5).
  assert (Hm : Z.of_nat m = (n_markov_states - 1)%Z) by lia.
  rewrite Hm in B1, B2.
  repeat split; try lia.
Qed.

Lemma rc_wham_fi_bounds_witness :
  (1 <= Z.of_nat (length [Fin 0]))%Z /\
  (2 <= Z.of_nat (length [Fin 1; Fin 2]))%Z /\
  (1 <= Z.of_nat (length [Fin 3]))%Z /\
  (1 * 2 <= Z.of_nat (length [Fin 4; Fin 5]))%Z /\
  (1 <= Z.of_nat (length [NaN]))%Z /\
  (2 <= Z.of_nat (length [Fin 0; Fin 0]))%Z /\
  (1 * 2 - 1 <= INT_MAX)%Z.
Proof.
  apply (rc_wham_fi_bounds [Fin 0] [Fin 1; Fin 2] [Fin 3] [Fin 4; Fin 5]
           1 2 [NaN] [Fin 0; Fin 0]); [lia|lia|discriminate].
Defined.

(** X4.  Whenever [rc_wham_fi] or [rc_wham_fk] returns, whatever the counts
    and the buffers: the buffers have kept their lengths, of [scratch] only
    the cells below the inner count were written, and of the output array
    only the cells below the outer count; with a non-positive outer count
    nothing is written at all. *)
Theorem kernels_write_prefixes {D : Type} {ops : FloatOps D} {lse : LogSumExp D}
    (log_N_K log_N_i f_K b_K_i f_i : list D)
    (n_therm_states n_markov_states : Z) (scratch : list D) :
  match rc_wham_fi log_N_K log_N_i f_K b_K_i n_therm_states n_markov_states
          scratch f_i with
  | Some (scratch', f_i') =>
      scratch_kept (Z.to_nat n_therm_states) scratch scratch' /\
      scratch_kept (Z.to_nat n_markov_states) f_i f_i' /\
      ((n_markov_states <= 0)%Z -> scratch' = scratch /\ f_i' = f_i)
  | None => True
  end /\
  match rc_wham_fk f_i b_K_i n_therm_states n_markov_states scratch f_K with
  | Some (scratch', f_K') =>
      scratch_kept (Z.to_nat n_markov_states) scratch scratch' /\
      scratch_kept (Z.to_nat n_therm_states) f_K f_K' /\
      ((n_therm_states <= 0)%Z -> scratch' = scratch /\ f_K' = f_K)
  | None => True
  end.
Proof.
  split.
  - destruct (rc_wham_fi _ _ _ _ _ _ _ _) as [[s' f']|] eqn:E; [|exact I].
    destruct (rc_wham_fi_kept _ _ _ _ _ _ _ _ _ E) as [Hs Hf].
    split; [exact Hs|]. split; [exact Hf|]. intros Hn.
    unfold rc_wham_fi in E.
    replace (Z.to_nat n_markov_states) with 0 in E by lia.
    cbn [for_up] in E. injection E as <- <-. auto.
  - destruct (rc_wham_fk _ _ _ _ _ _) as [[s' f']|] eqn:E; [|exact I].
    destruct (rc_wham_fk_kept _ _ _ _ _ _ _ E) as [Hs Hf].
    split; [exact Hs|]. split; [exact Hf|]. intros Hn.
    unfold rc_wham_fk in E.
    replace (Z.to_nat n_therm_states) with 0 in E by lia.
    cbn [for_up] in E. injection E as <- <-. auto.
Qed.

Lemma kernels_write_prefixes_witness :
  exists scratch' f_K',
    rc_wham_fk [Fin 1] [Fin 3] (-1)%Z 1%Z [NaN] [Fin 7]
      = Some (scratch', f_K') /\
    scratch' = [NaN] /\ f_K' = [Fin 7].
Proof.
  exists [NaN], [Fin 7]. split; [reflexivity|].
  exact (proj2 (proj2 (proj2 (kernels_write_prefixes [] [] [Fin 7] [Fin 3]
                                [Fin 1] (-1) 1 [NaN])))
           ltac:(lia)).
Defined.

(* ================================================================== *)
(** * More on the WHAM kernels: the gauge of the free energies *)

Section GaugeFacts.
Local Open Scope R_scope.

(** A free energy: finite, or positive infinity for a state without
    weight. *)
Lemma free_energy_cases x :
  log_weight (dneg x) -> x = PInf \/ exists r, x = Fin r.
Proof.
  destruct x as [| | |r]; intros [H|[a H]]; cbn in H; try discriminate; eauto.
Qed.

Lemma log_weights_all_or_some v :
  Forall log_weight v ->
  forallb is_ninf v = true \/ 0 < Rsum (map ew v).
Proof.
  induction 1 as [|x v Hx _ IH]; [left; reflexivity|].
  cbn [forallb map Rsum].
  destruct Hx as [-> | [r ->]]; cbn [is_ninf ew andb].
  - destruct IH; [left; assumption|right; lra].
  - right. assert (0 < exp r) by apply exp_pos.
    assert (0 <= Rsum (map ew v)) by apply Rsum_ew_nonneg. lra.
Qed.

Lemma shift_weights (c : R) (v : list dbl) :
  Forall log_weight v ->
  Forall log_weight (map (fun x => dadd x (Fin c)) v) /\
  map ew (map (fun x => dadd x (Fin c)) v) = map (fun y => exp c * ew y) v /\
  forallb is_ninf (map (fun x => dadd x (Fin c)) v) = forallb is_ninf v.
Proof.
  induction 1 as [|x v Hx _ (IH1 & IH2 & IH3)];
    [repeat split; constructor|].
  cbn [map forallb]. rewrite IH2, IH3.
  destruct Hx as [-> | [r ->]]; cbn [dadd ew is_ninf].
  - repeat split; [constructor; [left; reflexivity|assumption]|].
    f_equal. lra.
  - repeat split; [constructor; [right; eauto|assumption]|].
    f_equal. rewrite exp_plus. lra.
Qed.

(** Adding a finite constant to every log-weight adds it to their
    log-sum-exp. *)
Lemma lse_spec_shift (c : R) (v : list dbl) :
  Forall log_weight v ->
  lse_spec (map (fun x => dadd x (Fin c)) v) = dadd (lse_spec v) (Fin c).
Proof.
  intros Hv. destruct (shift_weights c v Hv) as (H1 & H2 & H3).
  destruct (log_weights_all_or_some v Hv) as [Hall|Hpos].
  - unfold lse_spec. rewrite H3, Hall. reflexivity.
  - assert (Hpos' : 0 < Rsum (map ew (map (fun x => dadd x (Fin c)) v))).
    { rewrite H2, Rsum_scal. apply Rmult_lt_0_compat; [apply exp_pos|exact Hpos]. }
    rewrite (lse_spec_log_weights _ H1 Hpos'), (lse_spec_log_weights _ Hv Hpos).
    cbn [dadd]. f_equal. rewrite H2, Rsum_scal.
    rewrite ln_mult by (try apply exp_pos; assumption).
    rewrite ln_exp. lra.
Qed.

Lemma dneg_dadd_shift (y : dbl) (c : R) :
  dneg (dadd y (Fin (- c))) = dadd (dneg y) (Fin c).
Proof. destruct y; cbn; try reflexivity. f_equal. lra. Qed.

Lemma nth_shifted (f : list dbl) (c : R) i :
  (i < length f)%nat ->
  nth i (map (fun x => dadd x (Fin c)) f) (Fin 0) = dadd (nth i f (Fin 0)) (Fin c).
Proof.
  intros Hi.
  rewrite (nth_indep _ (Fin 0) (dadd (Fin 0) (Fin c)))
    by (rewrite length_map; exact Hi).
  apply (map_nth (fun x => dadd x (Fin c))).
Qed.

(** The terms of [rc_wham_fk] for free energies [f_i + c]. *)
Lemma fk_term_shift (f_i b_K_i : list dbl) (c : R) M K i :
  Forall log_weight (map dneg f_i) -> Forall log_weight (map dneg b_K_i) ->
  (i < length f_i)%nat ->
  log_weight (fk_term f_i b_K_i M K i) /\
  fk_term (map (fun x => dadd x (Fin c)) f_i) b_K_i M K i =
  dadd (fk_term f_i b_K_i M K i) (Fin (- c)).
Proof.
  intros Hf Hb Hi. unfold fk_term.
  change (@fzero dbl dbl_ops) with (Fin 0).
  change (@fneg dbl dbl_ops) with dneg. change (@fadd dbl dbl_ops) with dadd.
  rewrite (nth_shifted f_i c i Hi).
  assert (Hx : log_weight (dneg (nth i f_i (Fin 0)))).
  { rewrite Forall_forall in Hf. apply Hf. apply in_map, nth_In, Hi. }
  assert (Hy : log_weight (dneg (nth (K * M + i) b_K_i (Fin 0)))).
  { destruct (Nat.lt_ge_cases (K * M + i) (length b_K_i)) as [Hlt|Hge].
    - rewrite Forall_forall in Hb. apply Hb. apply in_map, nth_In, Hlt.
    - rewrite nth_overflow by exact Hge. right. cbn. eauto. }
  apply free_energy_cases in Hx, Hy.
  destruct Hx as [-> | [x ->]], Hy as [-> | [y ->]]; cbn;
    (split; [first [left; reflexivity|right; eauto]|
             first [reflexivity|f_equal; lra]]).
Qed.

Lemma fk_value_shift (f_i b_K_i : list dbl) (c : R) M K :
  Forall log_weight (map dneg f_i) -> Forall log_weight (map dneg b_K_i) ->
  (M <= length f_i)%nat ->
  fk_value (map (fun x => dadd x (Fin c)) f_i) b_K_i M K =
  dadd (fk_value f_i b_K_i M K) (Fin c).
Proof.
  intros Hf Hb HM. unfold fk_value.
  change (@rc_logsumexp dbl dbl_lse) with lse_spec.
  change (@fneg dbl dbl_ops) with dneg.
  rewrite <- dneg_dadd_shift. f_equal.
  rewrite <- lse_spec_shift.
  - f_equal. rewrite map_map. apply map_ext_in. intros i Hi.
    apply in_seq in Hi. apply fk_term_shift; try assumption. lia.
  - apply Forall_forall. intros y Hy. apply in_map_iff in Hy as (i & <- & Hi).
    apply in_seq in Hi. apply (fk_term_shift f_i b_K_i c M K i); try assumption.
    lia.
Qed.

(** The terms of [rc_wham_fi] for thermodynamic free energies [f_K + c]. *)
Lemma fi_term_shift (log_N_K f_K b_K_i : list dbl) (fr : list R) (c : R) M i K :
  Forall log_weight log_N_K -> f_K = map Fin fr ->
  Forall log_weight (map dneg b_K_i) ->
  (K < length f_K)%nat -> (K < length log_N_K)%nat ->
  log_weight (fi_term log_N_K f_K b_K_i M i K) /\
  fi_term log_N_K (map (fun x => dadd x (Fin c)) f_K) b_K_i M i K =
  dadd (fi_term log_N_K f_K b_K_i M i K) (Fin c).
Proof.
  intros HN -> Hb HK HK'. unfold fi_term.
  change (@fzero dbl dbl_ops) with (Fin 0).
  change (@fsub dbl dbl_ops) with dsub. change (@fadd dbl dbl_ops) with dadd.
  rewrite (nth_shifted (map Fin fr) c K HK).
  change (Fin 0) with (Fin 0%R) at 2 4.
  rewrite (map_nth Fin fr 0 K).
  assert (Hx : log_weight (nth K log_N_K (Fin 0))).
  { rewrite Forall_forall in HN. apply HN, nth_In, HK'. }
  assert (Hy : log_weight (dneg (nth (K * M + i) b_K_i (Fin 0)))).
  { destruct (Nat.lt_ge_cases (K * M + i) (length b_K_i)) as [Hlt|Hge].
    - rewrite Forall_forall in Hb. apply Hb. apply in_map, nth_In, Hlt.
    - rewrite nth_overflow by exact Hge. right. cbn. eauto. }
  apply free_energy_cases in Hy. unfold dsub.
  destruct Hx as [-> | [x ->]], Hy as [-> | [y ->]]; cbn;
    (split; [first [left; reflexivity|right; eauto]|
             first [reflexivity|f_equal; lra]]).
Qed.

Lemma dsub_dadd_shift (l y : dbl) (c : R) :
  dsub (dadd l (Fin c)) y = dadd (dsub l y) (Fin c).
Proof.
  unfold dsub. destruct l, y; cbn; try reflexivity. f_equal. lra.
Qed.

Lemma fi_value_shift (log_N_K log_N_i f_K b_K_i : list dbl) (fr : list R)
    (c : R) T M i :
  Forall log_weight log_N_K -> f_K = map Fin fr ->
  Forall log_weight (map dneg b_K_i) ->
  (T <= length f_K)%nat -> (T <= length log_N_K)%nat ->
  fi_value log_N_K log_N_i (map (fun x => dadd x (Fin c)) f_K) b_K_i T M i =
  dadd (fi_value log_N_K log_N_i f_K b_K_i T M i) (Fin c).
Proof.
  intros HN Hf Hb HT HT'. unfold fi_value.
  change (@rc_logsumexp dbl dbl_lse) with lse_spec.
  change (@fsub dbl dbl_ops) with dsub.
  rewrite <- dsub_dadd_shift. f_equal.
  rewrite <- lse_spec_shift.
  - f_equal. rewrite map_map. apply map_ext_in. intros K HK.
    apply in_seq in HK. apply (fi_term_shift _ _ _ fr); try assumption; lia.
  - apply Forall_forall. intros y Hy. apply in_map_iff in Hy as (K & <- & HK).
    apply in_seq in HK.
    apply (fi_term_shift log_N_K f_K b_K_i fr c M i K); try assumption; lia.
Qed.

End GaugeFacts.

Section GaugeRuns.
Local Open Scope R_scope.

Lemma skipn_app_exact {X : Type} (a b : list X) n :
  length a = n -> skipn n (a ++ b) = b.
Proof.
  intros <-. rewrite skipn_app, Nat.sub_diag, skipn_all. reflexivity.
Qed.

Lemma filled_shifted (g1 g2 : nat -> dbl) (c : R) (s0 s1 s2 : list dbl) n :
  (n <= length s0)%nat ->
  filled g1 s0 n s1 -> filled g2 s0 n s2 ->
  (forall j, g2 j = dadd (g1 j) (Fin c)) ->
  s2 = map (fun x => dadd x (Fin c)) (firstn n s1) ++ skipn n s1.
Proof.
  intros Hn H1 H2 Hg.
  rewrite (filled_list _ _ _ _ H1 Hn), (filled_list _ _ _ _ H2 Hn).
  assert (Hl : length (map g1 (seq 0 n)) = n)
    by (rewrite length_map, length_seq; reflexivity).
  rewrite (firstn_app_exact _ _ n Hl).
  rewrite (skipn_app_exact _ _ n Hl), map_map. f_equal.
  apply map_ext. intros j. apply Hg.
Qed.

Lemma dneg_shifted (u : list dbl) (c : R) :
  map dneg (map (fun x => dadd x (Fin c)) u) =
  map (fun y => dadd y (Fin (- c))) (map dneg u).
Proof.
  rewrite !map_map. apply map_ext. intros x.
  destruct x; cbn; try reflexivity. f_equal. lra.
Qed.

Lemma shift_back (x sh : dbl) (c : R) :
  log_weight (dneg x) ->
  dadd (dadd x (Fin c)) (dadd sh (Fin (- c))) = dadd x sh.
Proof.
  intros Hx. apply free_energy_cases in Hx.
  destruct Hx as [-> | [a ->]], sh; cbn; try reflexivity. f_equal. lra.
Qed.

Lemma Rsum_ge_term y l :
  In y l -> Forall (fun x => 0 <= x) l -> y <= Rsum l.
Proof.
  intros Hy Hl. induction Hl as [|x l Hx Hl IH]; [contradiction|].
  cbn [Rsum]. assert (0 <= Rsum l) by (apply Rsum_nonneg; exact Hl).
  destruct Hy as [->|Hy]; [lra|]. specialize (IH Hy). lra.
Qed.

Lemma exp_le_one r : exp r <= 1 -> r <= 0.
Proof.
  intros H. destruct (Rle_or_lt r 0) as [Hr|Hr]; [exact Hr|exfalso].
  assert (Hi := exp_increasing 0 r Hr). rewrite exp_0 in Hi. lra.
Qed.

End GaugeRuns.

(** Concrete vectors of log-weights. *)
Ltac log_weights :=
  cbn [map dneg firstn];
  repeat (apply Forall_cons;
          [first [left; reflexivity|right; eexists; reflexivity]|]);
  apply Forall_nil.

(** X5.  On idealised doubles, for free energies that are finite or
    positive infinity: when every configurational free energy is shifted by
    one finite constant [c], every thermodynamic free energy that
    [rc_wham_fk] computes is shifted by [c], and nothing else changes. *)
Theorem rc_wham_fk_gauge (f_i b_K_i : list dbl) (c : R)
    (n_therm_states n_markov_states : nat) (scratch f_K : list dbl) :
  (Z.of_nat n_therm_states * Z.of_nat n_markov_states <= INT_MAX)%Z ->
  n_markov_states <= length f_i ->
  n_therm_states * n_markov_states <= length b_K_i ->
  n_markov_states <= length scratch ->
  n_therm_states <= length f_K ->
  Forall log_weight (map dneg f_i) -> Forall log_weight (map dneg b_K_i) ->
  exists s1 f1 s2 f2,
    rc_wham_fk f_i b_K_i (Z.of_nat n_therm_states) (Z.of_nat n_markov_states)
      scratch f_K = Some (s1, f1) /\
    rc_wham_fk (map (fun x => dadd x (Fin c)) f_i) b_K_i
      (Z.of_nat n_therm_states) (Z.of_nat n_markov_states) scratch f_K
      = Some (s2, f2) /\
    f2 = map (fun x => dadd x (Fin c)) (firstn n_therm_states f1)
           ++ skipn n_therm_states f1.
Proof.
  intros Hmax Hf Hb Hs HK Wf Wb.
  destruct (rc_wham_fk_filled f_i b_K_i n_therm_states n_markov_states
              scratch f_K Hmax Hf Hb Hs HK) as ([s1 f1] & E1 & _ & F1).
  destruct (rc_wham_fk_filled (map (fun x => dadd x (Fin c)) f_i) b_K_i
              n_therm_states n_markov_states scratch f_K Hmax
              ltac:(rewrite length_map; exact Hf) Hb Hs HK)
    as ([s2 f2] & E2 & _ & F2).
  cbn [fst snd] in *. exists s1, f1, s2, f2.
  split; [exact E1|]. split; [exact E2|].
  apply (filled_shifted _ _ c f_K f1 f2 n_therm_states HK F1 F2).
  intros K. apply fk_value_shift; assumption.
Qed.

Lemma rc_wham_fk_gauge_witness :
  exists s1 f1 s2 f2,
    rc_wham_fk [Fin 1; PInf] [Fin 3; Fin 4] 1%Z 2%Z [NaN; NaN] [NaN; Fin 7]
      = Some (s1, f1) /\
    rc_wham_fk (map (fun x => dadd x (Fin 5)) [Fin 1; PInf]) [Fin 3; Fin 4]
      1%Z 2%Z [NaN; NaN] [NaN; Fin 7] = Some (s2, f2) /\
    f2 = map (fun x => dadd x (Fin 5)) (firstn 1 f1) ++ skipn 1 f1.
Proof.
  apply (rc_wham_fk_gauge [Fin 1; PInf] [Fin 3; Fin 4] 5 1 2 [NaN; NaN]
           [NaN; Fin 7]); try (cbn; lia).
  - cbv. discriminate.
  - log_weights.
  - log_weights.
Defined.

(** X6.  On idealised doubles, for log-counts that are finite or negative
    infinity, bias energies that are finite or positive infinity and finite
    thermodynamic free energies: when every thermodynamic free energy is
    shifted by one finite constant [c], every configurational free energy
    that [rc_wham_fi] computes is shifted by [c], and nothing else
    changes. *)
Theorem rc_wham_fi_gauge (log_N_K log_N_i b_K_i : list dbl) (f_K : list R)
    (c : R) (n_therm_states n_markov_states : nat) (scratch f_i : list dbl) :
  (Z.of_nat n_therm_states * Z.of_nat n_markov_states <= INT_MAX)%Z ->
  n_therm_states <= length log_N_K ->
  n_markov_states <= length log_N_i ->
  n_therm_states <= length f_K ->
  n_therm_states * n_markov_states <= length b_K_i ->
  n_therm_states <= length scratch ->
  n_markov_states <= length f_i ->
  Forall log_weight log_N_K -> Forall log_weight (map dneg b_K_i) ->
  exists s1 f1 s2 f2,
    rc_wham_fi log_N_K log_N_i (map Fin f_K) b_K_i
      (Z.of_nat n_therm_states) (Z.of_nat n_markov_states) scratch f_i
      = Some (s1, f1) /\
    rc_wham_fi log_N_K log_N_i (map Fin (map (fun x => (x + c)%R) f_K)) b_K_i
      (Z.of_nat n_therm_states) (Z.of_nat n_markov_states) scratch f_i
      = Some (s2, f2) /\
    f2 = map (fun x => dadd x (Fin c)) (firstn n_markov_states f1)
           ++ skipn n_markov_states f1.
Proof.
  intros Hmax HN Hn Hf Hb Hs Hi WN Wb.
  assert (Hf' : n_therm_states <= length (map Fin f_K))
    by (rewrite length_map; exact Hf).
  replace (map Fin (map (fun x => (x + c)%R) f_K))
    with (map (fun x => dadd x (Fin c)) (map Fin f_K))
    by (rewrite !map_map; reflexivity).
  destruct (rc_wham_fi_filled log_N_K log_N_i (map Fin f_K) b_K_i
              n_therm_states n_markov_states scratch f_i Hmax HN Hn Hf' Hb Hs Hi)
    as ([s1 f1] & E1 & _ & F1).
  destruct (rc_wham_fi_filled log_N_K log_N_i
              (map (fun x => dadd x (Fin c)) (map Fin f_K)) b_K_i
              n_therm_states n_markov_states scratch f_i Hmax HN Hn
              ltac:(rewrite length_map; exact Hf') Hb Hs Hi)
    as ([s2 f2] & E2 & _ & F2).
  cbn [fst snd] in *. exists s1, f1, s2, f2.
  split; [exact E1|]. split; [exact E2|].
  apply (filled_shifted _ _ c f_i f1 f2 n_markov_states Hi F1 F2).
  intros i. apply (fi_value_shift _ _ _ _ f_K); try assumption. reflexivity.
Qed.

Lemma rc_wham_fi_gauge_witness :
  exists s1 f1 s2 f2,
    rc_wham_fi [Fin 0; NInf] [Fin 1] (map Fin [3; 4]%R) [Fin 4; PInf]
      2%Z 1%Z [NaN; NaN] [NaN] = Some (s1, f1) /\
    rc_wham_fi [Fin 0; NInf] [Fin 1]
      (map Fin (map (fun x => (x + 5)%R) [3; 4]%R)) [Fin 4; PInf]
      2%Z 1%Z [NaN; NaN] [NaN] = Some (s2, f2) /\
    f2 = map (fun x => dadd x (Fin 5)) (firstn 1 f1) ++ skipn 1 f1.
Proof.
  apply (rc_wham_fi_gauge [Fin 0; NInf] [Fin 1] [Fin 4; PInf] [3; 4]%R 5 2 1
           [NaN; NaN] [NaN]); try (cbn; lia).
  - cbv. discriminate.
  - log_weights.
  - log_weights.
Defined.

(** X7.  On idealised doubles, for free energies that are finite or
    positive infinity: [rc_wham_normalize] returns the same vector for
    [f_i] and for [f_i] shifted by any finite constant; the normalised
    vector does not depend on the gauge of its input. *)
Theorem rc_wham_normalize_gauge (f_i scratch : list dbl)
    (n_markov_states : nat) (c : R) :
  n_markov_states <= length f_i -> n_markov_states <= length scratch ->
  Forall log_weight (map dneg (firstn n_markov_states f_i)) ->
  exists f' s1 s2,
    rc_wham_normalize f_i (Z.of_nat n_markov_states) scratch = Some (f', s1) /\
    rc_wham_normalize
      (map (fun x => dadd x (Fin c)) (firstn n_markov_states f_i)
         ++ skipn n_markov_states f_i)
      (Z.of_nat n_markov_states) scratch = Some (f', s2).
Proof.
  intros Hf Hs W. set (n := n_markov_states) in *.
  set (u := firstn n f_i) in *.
  assert (Hu : length (map (fun x => dadd x (Fin c)) u) = n)
    by (apply length_map_firstn; exact Hf).
  assert (Hf' : n <= length (map (fun x => dadd x (Fin c)) u ++ skipn n f_i))
    by (rewrite length_app; lia).
  rewrite (rc_wham_normalize_eq f_i n scratch Hf Hs).
  rewrite (rc_wham_normalize_eq _ n scratch Hf' Hs).
  unfold normalize_shift.
  rewrite (firstn_app_exact _ _ n Hu).
  rewrite (skipn_app_exact _ _ n Hu).
  fold u.
  change (@rc_logsumexp dbl dbl_lse) with lse_spec.
  change (@fneg dbl dbl_ops) with dneg. change (@fadd dbl dbl_ops) with dadd.
  eexists. eexists. eexists. split; [reflexivity|]. f_equal. f_equal. f_equal.
  rewrite dneg_shifted, (lse_spec_shift _ _ W), map_map.
  apply map_ext_in. intros x Hx. apply shift_back.
  rewrite Forall_forall in W. apply W, in_map, Hx.
Qed.

Lemma rc_wham_normalize_gauge_witness :
  exists f' s1 s2,
    rc_wham_normalize [Fin 0; PInf; Fin 5] 2%Z [NaN; NaN] = Some (f', s1) /\
    rc_wham_normalize
      (map (fun x => dadd x (Fin 3)) (firstn 2 [Fin 0; PInf; Fin 5])
         ++ skipn 2 [Fin 0; PInf; Fin 5]) 2%Z [NaN; NaN] = Some (f', s2).
Proof.
  apply (rc_wham_normalize_gauge [Fin 0; PInf; Fin 5] [NaN; NaN] 2 3);
    try (cbn; lia).
  log_weights.
Defined.

(** X8.  On idealised doubles, when the log-sum-exp of the negated entries
    is finite: every entry of the vector [rc_wham_normalize] leaves is a
    non-negative number or positive infinity, that is, no state is left with
    a weight above one. *)
Theorem rc_wham_normalize_nonnegative (f_i scratch : list dbl)
    (n_markov_states : nat) (s : R) :
  n_markov_states <= length f_i -> n_markov_states <= length scratch ->
  lse_spec (map dneg (firstn n_markov_states f_i)) = Fin s ->
  exists f' s',
    rc_wham_normalize f_i (Z.of_nat n_markov_states) scratch = Some (f', s') /\
    Forall (fun x => x = PInf \/ exists r, x = Fin r /\ (0 <= r)%R)
           (firstn n_markov_states f').
Proof.
  intros Hf Hs E.
  destruct (normalize_once f_i scratch n_markov_states s Hf Hs E)
    as (E1 & Hfirst & _ & _).
  eexists. eexists. split; [exact E1|]. rewrite Hfirst.
  destruct (shifted_total_weight _ _ E) as [Hlw Hsum]. cbv zeta in Hlw, Hsum.
  apply Forall_forall. intros x Hx.
  assert (Hw : log_weight (dneg x)).
  { rewrite Forall_forall in Hlw. apply Hlw, in_map, Hx. }
  destruct (free_energy_cases x Hw) as [->|[r ->]]; [left; reflexivity|].
  right. exists r. split; [reflexivity|].
  assert (Hle : (ew (dneg (Fin r)) <= 1)%R).
  { rewrite <- Hsum. apply Rsum_ge_term.
    - apply in_map, in_map, Hx.
    - apply Forall_forall. intros y Hy.
      apply in_map_iff in Hy as (z & <- & _). apply ew_nonneg. }
  cbn [dneg ew] in Hle. apply exp_le_one in Hle. lra.
Qed.

Lemma rc_wham_normalize_nonnegative_witness :
  exists f' s',
    rc_wham_normalize [Fin 0; PInf; Fin 5] 2%Z [NaN; NaN] = Some (f', s') /\
    Forall (fun x => x = PInf \/ exists r, x = Fin r /\ (0 <= r)%R)
           (firstn 2 f').
Proof.
  apply (rc_wham_normalize_nonnegative [Fin 0; PInf; Fin 5] [NaN; NaN] 2
           (ln (Rsum (map ew [Fin (- 0); NInf])))).
  - cbn. lia.
  - cbn. lia.
  - apply (lse_spec_log_weights [Fin (- 0); NInf]).
    + constructor; [right; eauto|constructor; [left; reflexivity|constructor]].
    + cbn. assert (H := exp_pos (- 0)). lra.
Defined.

(** X9.  On idealised doubles: a vector whose states all have the free
    energy positive infinity cannot be normalised; the shift is negative
    infinity and [rc_wham_normalize] leaves NaN in every entry. *)
Theorem rc_wham_normalize_without_weight (n_markov_states : nat)
    (rest scratch : list dbl) :
  n_markov_states <= length scratch ->
  rc_wham_normalize (repeat PInf n_markov_states ++ rest)
    (Z.of_nat n_markov_states) scratch =
  Some (repeat NaN n_markov_states ++ rest,
        repeat NInf n_markov_states ++ skipn n_markov_states scratch).
Proof.
  intros Hs. set (n := n_markov_states) in *.
  assert (Hl : length (repeat PInf n) = n) by apply repeat_length.
  assert (Hf : n <= length (repeat PInf n ++ rest))
    by (rewrite length_app; lia).
  rewrite (rc_wham_normalize_eq _ n scratch Hf Hs).
  unfold normalize_shift.
  rewrite (firstn_app_exact _ _ n Hl).
  rewrite (skipn_app_exact _ _ n Hl).
  change (@rc_logsumexp dbl dbl_lse) with lse_spec.
  change (@fneg dbl dbl_ops) with dneg. change (@fadd dbl dbl_ops) with dadd.
  rewrite !map_repeat. cbn [dneg]. rewrite lse_spec_all_ninf. reflexivity.
Qed.

Lemma rc_wham_normalize_without_weight_witness :
  rc_wham_normalize (repeat PInf 2 ++ [Fin 1]) 2%Z [Fin 8; Fin 9; Fin 7] =
  Some (repeat NaN 2 ++ [Fin 1], repeat NInf 2 ++ skipn 2 [Fin 8; Fin 9; Fin 7]).
Proof.
  apply (rc_wham_normalize_without_weight 2 [Fin 1] [Fin 8; Fin 9; Fin 7]).
  cbn. lia.
Defined.

(* ================================================================== *)
(** * More on the driver: the passes of the loop *)

Section LoopFacts.
Context {D : Type} {ops : FloatOps D} {srv : Services D}.

Lemma last_cons {X : Type} (l : list X) a d : last (a :: l) d = last l a.
Proof.
  revert a d. induction l as [|b l IH]; intros a d; [reflexivity|].
  change (last (a :: b :: l) d) with (last (b :: l) d).
  rewrite (IH b d), (IH b a). reflexivity.
Qed.

(** The loop runs at most [n] passes, sets [stop] in none but the last,
    and hands on the state of its last pass; when it ends before the [n]-th
    pass, that pass has set [stop]. *)
Lemma loop_passes fr maxiter maxerr err_out cb n :
  forall start st h,
  let body := estimate_iteration fr maxiter maxerr err_out cb in
  let passes := for_range_trace n start body st h in
  length passes <= n /\
  (forall pre st1 post, passes = pre ++ st1 :: post -> post <> [] ->
     stop st1 = false) /\
  (forall st' h', for_range n start body st h = Return st' h' ->
     st' = last passes st /\
     (length passes < n -> passes <> [] /\ stop st' = true)).
Proof.
  induction n as [|n IH]; intros start st h body passes.
  - cbn in passes. subst passes. cbn. split; [lia|]. split.
    + intros pre st1 post E. destruct pre; discriminate.
    + intros st' h' E. injection E as <- <-. split; [reflexivity|lia].
  - unfold passes. cbn [for_range for_range_trace]. fold body.
    destruct (body start st h) as [[st1 brk] h1| |] eqn:E.
    + destruct (iteration_bookkeeping _ _ _ _ _ _ _ _ _ _ _ E)
        as (e & _ & Hb & _).
      cbn [fst snd]. destruct brk.
      * split; [cbn; lia|]. split.
        -- intros pre st2 post Ep Hpost.
           destruct pre as [|p [|q pre]]; cbn in Ep; try discriminate.
           injection Ep as _ <-. congruence.
        -- intros st' h'. rewrite (bind_run _ _ _ _ _ E). cbn [fst snd].
           intros Er. injection Er as <- <-. cbn [last].
           split; [reflexivity|]. intros _. split; [discriminate|congruence].
      * destruct (IH (S start) st1 h1) as (L & S1 & R1). fold body in L, S1, R1.
        split; [cbn [length]; lia|]. split.
        -- intros pre st2 post Ep Hpost. destruct pre as [|p pre].
           ++ injection Ep as <- _. congruence.
           ++ injection Ep as _ Ep. exact (S1 _ _ _ Ep Hpost).
        -- intros st' h'. rewrite (bind_run _ _ _ _ _ E). cbn [fst snd].
           intros Er. destruct (R1 _ _ Er) as [Hl Hs].
           set (tr := for_range_trace n (S start) body st1 h1) in *.
           split.
           ++ rewrite last_cons. exact Hl.
           ++ cbn [length]. intros Hlt. split; [discriminate|].
              apply Hs. lia.
    + split; [cbn; lia|]. split.
      * intros pre st1 post Ep. destruct pre; discriminate.
      * intros st' h'. rewrite (bind_raise _ _ _ _ _ E). discriminate.
    + split; [cbn; lia|]. split.
      * intros pre st1 post Ep. destruct pre; discriminate.
      * intros st' h'. unfold bind. rewrite E. discriminate.
Qed.

End LoopFacts.

Section TrajectoryMore.
Context {D : Type} {ops : FloatOps D} {srv : Services D}.

Lemma div_succ (k n : Z) :
  (0 < k)%Z -> (0 <= n)%Z ->
  ((n + 1) / k = n / k + if (n + 1) mod k =? 0 then 1 else 0)%Z.
Proof.
  intros Hk Hn.
  assert (Hb := Z.mod_pos_bound n k Hk).
  assert (Hd := Z.div_mod n k ltac:(lia)).
  destruct (Z.eq_dec (n mod k + 1) k) as [E|E].
  - assert (Hm : ((n + 1) mod k = 0)%Z).
    { symmetry. apply (Z.mod_unique (n + 1) k (n / k + 1) 0); [lia|nia]. }
    rewrite Hm. cbn. symmetry.
    apply (Z.div_unique (n + 1) k (n / k + 1) 0); [lia|nia].
  - assert (Hm : ((n + 1) mod k = n mod k + 1)%Z).
    { symmetry. apply (Z.mod_unique (n + 1) k (n / k) (n mod k + 1)); [lia|nia]. }
    rewrite Hm. destruct (Z.eqb_spec (n mod k + 1) 0); [lia|].
    rewrite Z.add_0_r. symmetry.
    apply (Z.div_unique (n + 1) k (n / k) (n mod k + 1)); [lia|nia].
Qed.

(** Every [k]-th of [n] values: [n / k] of them. *)
Lemma every_nth_length (k : Z) (l : list D) :
  (0 < k)%Z ->
  Z.of_nat (length (every_nth k l)) = (Z.of_nat (length l) / k)%Z.
Proof.
  intros Hk. induction l as [|e l IH] using rev_ind.
  - change (0 = 0 / k)%Z. rewrite Zdiv_0_l. reflexivity.
  - rewrite every_nth_snoc, !length_app. cbn [length].
    replace (Z.of_nat (length l + 1)) with (Z.of_nat (length l) + 1)%Z by lia.
    rewrite (div_succ k _ Hk) by lia.
    replace (Z.of_nat (S (length l))) with (Z.of_nat (length l) + 1)%Z by lia.
    destruct (_ =? 0)%Z; cbn [length]; lia.
Qed.

(** With a stride that is not positive no pass records anything. *)
Lemma passes_record_nothing fr maxiter maxerr err_out cb n :
  (err_out <= 0)%Z ->
  forall start st h,
  let body := estimate_iteration fr maxiter maxerr err_out cb in
  (0 <= err_count st)%Z -> err_traj st = [] ->
  Forall (fun st' => err_traj st' = [])
         (for_range_trace n start body st h).
Proof.
  intros Hk. induction n as [|n IH]; intros start st h body Hc Ht;
    [constructor|].
  cbn [for_range_trace].
  destruct (body start st h) as [[st1 brk] h1| |] eqn:E; try constructor.
  - destruct (iteration_bookkeeping _ _ _ _ _ _ _ _ _ _ _ E)
      as (e & _ & _ & Hc' & Ht').
    destruct (Z.eqb_spec (err_count st + 1) err_out) as [F|_]; [lia|].
    cbn [fst]. congruence.
  - destruct (iteration_bookkeeping _ _ _ _ _ _ _ _ _ _ _ E)
      as (e & _ & _ & Hc' & Ht').
    destruct (Z.eqb_spec (err_count st + 1) err_out) as [F|_]; [lia|].
    cbn [fst snd]. destruct brk; [constructor|].
    apply IH; [lia|congruence].
Qed.

Lemma last_Forall {X : Type} (P : X -> Prop) (l : list X) d :
  Forall P l -> P d -> P (last l d).
Proof.
  induction 1 as [|x l Hx Hl IH]; intros Hd; [exact Hd|].
  rewrite last_cons. clear IH. revert x Hx.
  induction Hl as [|y l Hy Hl IH]; intros x Hx; [exact Hx|].
  rewrite last_cons. apply IH. exact Hy.
Qed.

End TrajectoryMore.

(** X10.  [estimate] never runs more than [maxiter] passes of its loop; every
    pass but the last ends with [stop] unset; and when it returns after
    fewer than [maxiter] passes, the last pass has set [stop]. *)
Theorem estimate_pass_count {D : Type} {ops : FloatOps D} {srv : Services D}
    tsc bes css maxiter maxerr te err_out cb (h : heap D) :
  let passes := estimate_passes tsc bes css maxiter maxerr te err_out cb h in
  length passes <= Z.to_nat maxiter /\
  (forall pre st post, passes = pre ++ st :: post -> post <> [] ->
     stop st = false) /\
  (forall r h',
     estimate tsc bes css maxiter maxerr te err_out cb h = Return r h' ->
     length passes < Z.to_nat maxiter ->
     exists pre st, passes = pre ++ [st] /\ stop st = true).
Proof.
  intros passes. unfold passes, estimate_passes, estimate.
  destruct (estimate_setup tsc bes css te h) as [fr h1|e h1|] eqn:Es.
  - destruct (loop_passes fr maxiter maxerr err_out cb (Z.to_nat maxiter)
                0 loop_entry h1) as (L & S1 & R1).
    split; [exact L|]. split; [exact S1|].
    intros r h'. rewrite (bind_run _ _ _ _ _ Es). intros H Hlt.
    apply bind_return_inv in H. destruct H as (st & h2 & El & _).
    destruct (R1 _ _ El) as [Hl Hs]. destruct (Hs Hlt) as [Hne Hstop].
    exists (removelast (for_range_trace (Z.to_nat maxiter) 0
              (estimate_iteration fr maxiter maxerr err_out cb) loop_entry h1)),
      st.
    split; [|exact Hstop]. rewrite Hl. apply app_removelast_last. exact Hne.
  - split; [cbn; lia|]. split.
    + intros pre st post E. destruct pre; discriminate.
    + intros r h'. rewrite (bind_raise _ _ _ _ _ Es). discriminate.
  - split; [cbn; lia|]. split.
    + intros pre st post E. destruct pre; discriminate.
    + intros r h'. unfold bind. rewrite Es. discriminate.
Qed.

Lemma estimate_pass_count_witness :
  exists pre st,
    estimate_passes (Caller 0) (Caller 1) (Caller 2) 3 sample_maxerr None 0
      (Some (always_raises CallbackInterrupt)) sample_heap = pre ++ [st] /\
    stop st = true.
Proof.
  destruct (sample_first_pass 3 0 (Some (always_raises CallbackInterrupt))
              ltac:(lia) (orb_true_r _)) as (r & h' & E & _ & L).
  apply (proj2 (proj2 (estimate_pass_count (Caller 0) (Caller 1) (Caller 2) 3
                         sample_maxerr None 0
                         (Some (always_raises CallbackInterrupt)) sample_heap))
           r h' E).
  rewrite L. cbn. lia.
Defined.

(** X11.  With a negative stride [err_out] no pass records its error, and
    the trajectory [estimate] returns is an empty array, not [None]. *)
Theorem estimate_negative_stride
    {D : Type} {ops : FloatOps D} {srv : Services D}
    tsc bes css maxiter maxerr te err_out cb (h : heap D) r h' :
  (err_out < 0)%Z ->
  estimate tsc bes css maxiter maxerr te err_out cb h = Return r h' ->
  Forall (fun st => err_traj st = [])
    (estimate_passes tsc bes css maxiter maxerr te err_out cb h) /\
  exists l, snd r = Some l /\ lookup h' l = Some (FloatArray [0] []).
Proof.
  intros Hk H. unfold estimate in H.
  apply bind_return_inv in H. destruct H as (fr & h1 & Es & H).
  apply bind_return_inv in H. destruct H as (st & h2 & El & H).
  assert (Hp := passes_record_nothing fr maxiter maxerr err_out cb
                  (Z.to_nat maxiter) ltac:(lia) 0 loop_entry h1
                  ltac:(cbn; lia) eq_refl).
  cbv zeta in Hp. split.
  - unfold estimate_passes. rewrite Es. exact Hp.
  - destruct (loop_passes fr maxiter maxerr err_out cb (Z.to_nat maxiter)
                0 loop_entry h1) as (_ & _ & R1).
    destruct (R1 _ _ El) as [Hl _].
    assert (Ht : err_traj st = []).
    { rewrite Hl. apply (last_Forall (fun s => err_traj s = [])); [exact Hp|].
      reflexivity. }
    destruct (finish_trajectory _ _ _ _ _ _ _ _ H) as [_ Hnz].
    destruct Hnz as (l & Hl' & Hh); [lia|].
    exists l. split; [exact Hl'|]. rewrite Hh, Ht. reflexivity.
Qed.

Lemma estimate_negative_stride_witness :
  exists r h' l,
    estimate (Caller 0) (Caller 1) (Caller 2) 3 sample_maxerr None (-1)
      (Some (always_raises CallbackInterrupt)) sample_heap = Return r h' /\
    snd r = Some l /\ lookup h' l = Some (FloatArray [0] []).
Proof.
  destruct (sample_first_pass 3 (-1) (Some (always_raises CallbackInterrupt))
              ltac:(lia) (orb_true_r _)) as (r & h' & E & _).
  destruct (estimate_negative_stride (Caller 0) (Caller 1) (Caller 2) 3
              sample_maxerr None (-1) (Some (always_raises CallbackInterrupt))
              sample_heap r h' ltac:(lia) E)
    as (_ & l & Hl & Hh).
  exists r, h', l. split; [exact E|]. split; [exact Hl|exact Hh].
Defined.

(** X12.  With a positive stride [err_out], the trajectory [estimate]
    returns has one entry for every [err_out] completed passes: its length is
    the number of passes divided by [err_out], rounded down. *)
Theorem estimate_trajectory_length
    {D : Type} {ops : FloatOps D} {srv : Services D}
    tsc bes css maxiter maxerr te err_out cb (h : heap D) r h' :
  (0 < err_out)%Z ->
  estimate tsc bes css maxiter maxerr te err_out cb h = Return r h' ->
  exists l d,
    snd r = Some l /\ lookup h' l = Some (FloatArray [length d] d) /\
    Z.of_nat (length d) =
      (Z.of_nat (length (estimate_passes tsc bes css maxiter maxerr te
                           err_out cb h)) / err_out)%Z.
Proof.
  intros Hk H. unfold estimate in H.
  apply bind_return_inv in H. destruct H as (fr & h1 & Es & H).
  apply bind_return_inv in H. destruct H as (st & h2 & El & H).
  destruct (finish_trajectory _ _ _ _ _ _ _ _ H) as [_ Hnz].
  destruct Hnz as (l & Hl & Hh); [lia|].
  assert (S0 : sampled err_out [] (loop_entry (D := D)))
    by (split; reflexivity).
  destruct (loop_bookkeeping fr maxiter maxerr err_out cb _ Hk
              _ _ _ _ _ [] El S0) as [Ht _]. cbn [app] in Ht.
  exists l, (err_traj st). split; [exact Hl|]. split; [exact Hh|].
  rewrite Ht, (every_nth_length _ _ Hk), passes_have_errors.
  unfold estimate_passes. rewrite Es. reflexivity.
Qed.

Lemma estimate_trajectory_length_witness :
  exists r h' l d,
    estimate (Caller 0) (Caller 1) (Caller 2) 3 sample_maxerr None 2
      (Some (always_raises CallbackInterrupt)) sample_heap = Return r h' /\
    snd r = Some l /\ lookup h' l = Some (FloatArray [length d] d) /\
    Z.of_nat (length d) =
      (Z.of_nat (length (estimate_passes (Caller 0) (Caller 1) (Caller 2) 3
                           sample_maxerr None 2
                           (Some (always_raises CallbackInterrupt))
                           sample_heap)) / 2)%Z.
Proof.
  destruct (sample_first_pass 3 2 (Some (always_raises CallbackInterrupt))
              ltac:(lia) (orb_true_r _)) as (r & h' & E & _).
  destruct (estimate_trajectory_length (Caller 0) (Caller 1) (Caller 2) 3
              sample_maxerr None 2 (Some (always_raises CallbackInterrupt))
              sample_heap r h' ltac:(lia) E)
    as (l & d & Hl & Hh & Hn).
  exists r, h', l, d. repeat split; assumption.
Defined.

(* ================================================================== *)
(** * More on the driver: inputs that are refused, and calls without a pass *)

(** Running [estimate] step by step on a store that holds the arrays of the
    caller only. *)
Ltac store_simpl :=
  cbv beta delta [fresh extend];
  cbn [lookup update replace_at caller locals nth_error length app
       firstn skipn fst snd];
  rewrite ?Nat2Z.id, ?length_map.

Ltac store_lookup := store_simpl; first [eassumption | reflexivity].

Ltac exec_step :=
  lazymatch goal with
  | |- context [@bind _ _ _ (@bind _ _ _ _ _) _ _] => rewrite bind_assoc
  | |- context [@bind _ _ _ (@ret _ _ _) _ _] => rewrite bind_ret
  | |- context [@bind _ _ _ (@get_int _ ?l) ?k ?h] =>
      erewrite (bind_run (get_int l) k h) by (apply run_get_int; store_lookup)
  | |- context [@bind _ _ _ (@get_float _ ?l) ?k ?h] =>
      erewrite (bind_run (get_float l) k h) by (apply run_get_float; store_lookup)
  | |- context [@bind _ _ _ (@new_array _ ?a) ?k ?h] =>
      rewrite (bind_run (new_array a) k h _ _ (run_new_array h a))
  | |- context [@bind _ _ _ (@np_zeros _ _ ?n) ?k ?h] =>
      erewrite (bind_run (np_zeros n) k h) by (apply run_np_zeros; lia)
  | |- context [@bind _ _ _ (@np_ones _ _ ?n) ?k ?h] =>
      unfold np_ones at 1
  | |- context [@bind _ _ _ (@set_data _ ?l ?d) ?k ?h] =>
      erewrite (bind_run (set_data l d) k h) by (apply run_set_data; store_lookup)
  end; store_simpl.

Section ErrorPaths.
Context {D : Type} {ops : FloatOps D} {srv : Services D}.

Lemma run_get_buffer_refused (h : heap D) l n sh d :
  lookup h l = Some (FloatArray sh d) -> length sh <> n ->
  get_buffer n l h = Raise ValueError h.
Proof.
  intros H Hn. unfold get_buffer.
  rewrite (bind_run _ _ _ _ _ (run_get_float _ _ _ _ H)). cbn [fst].
  destruct (Nat.eqb_spec (length sh) n); [contradiction|reflexivity].
Qed.

Lemma run_np_zeros_refused n (h : heap D) :
  (n < 0)%Z -> np_zeros n h = Raise ValueError h.
Proof.
  intros Hn. unfold np_zeros. destruct (Z.ltb_spec n 0); [reflexivity|lia].
Qed.

(** Labels below [-1] make [M] negative, and [_np.zeros(shape=(M,))] is
    refused. *)
Lemma setup_negative_labels (C : list (ndarray D)) a b c c0 shb bd x cs
    te shw w0 :
  nth_error C a = Some (IntArray c0) ->
  nth_error C b = Some (FloatArray shb bd) ->
  nth_error C c = Some (IntArray (x :: cs)) ->
  starts_from C (length c0) te shw w0 ->
  (1 + fold_left Z.max cs x < 0)%Z ->
  exists h',
    estimate_setup (Caller a) (Caller b) (Caller c) te (Build_heap C [])
    = Raise ValueError h'.
Proof.
  intros Ha Hb Hc Hte HM. unfold estimate_setup. cbv zeta.
  do 3 exec_step. rewrite (bind_run _ _ _ _ _ (run_np_max_int _ _ _)).
  destruct te as [l|].
  - destruct Hte as (k & ed & -> & Hk & _).
    repeat exec_step.
    eexists. apply bind_raise. apply run_np_zeros_refused. exact HM.
  - repeat exec_step.
    eexists. apply bind_raise. apply run_np_zeros_refused. exact HM.
Qed.

(** An empty [conf_state_sequence] has no maximum. *)
Lemma setup_no_samples (h : heap D) tsc bes css te c0 :
  lookup h tsc = Some (IntArray c0) -> lookup h css = Some (IntArray []) ->
  estimate_setup tsc bes css te h =
  Raise ValueError (extend h (IntArray (map intc c0))).
Proof.
  intros Ha Hc. unfold estimate_setup. cbv zeta.
  rewrite (bind_run _ _ _ _ _ (run_get_int _ _ _ Ha)).
  rewrite (bind_run _ _ _ _ _ (run_new_array _ _)).
  rewrite (bind_run _ _ _ _ _ (run_get_int _ _ _ (lookup_extend _ _ _ _ Hc))).
  reflexivity.
Qed.

(** The buffers of [update_therm_weights] are checked before any is
    written. *)
Lemma update_therm_weights_refused (h : heap D) c w b s n
    cd shw wd shb bd shs sd shn nd :
  lookup h c = Some (IntArray cd) ->
  lookup h w = Some (FloatArray shw wd) ->
  lookup h b = Some (FloatArray shb bd) ->
  lookup h s = Some (FloatArray shs sd) ->
  lookup h n = Some (FloatArray shn nd) ->
  (length shw =? 1) && (length shb =? 2) && (length shs =? 1)
    && (length shn =? 1) = false ->
  update_therm_weights c w b s n h = Raise ValueError h.
Proof.
  intros Hc Hw Hb Hs Hn Hr. unfold update_therm_weights.
  rewrite (bind_run _ _ _ _ _ (run_get_int _ _ _ Hc)).
  destruct (Nat.eqb_spec (length shw) 1) as [Ew|Ew];
    [|apply bind_raise, (run_get_buffer_refused _ _ _ _ _ Hw Ew)].
  rewrite (bind_run _ _ _ _ _ (run_get_buffer _ _ _ _ _ Hw Ew)).
  destruct (Nat.eqb_spec (length shb) 2) as [Eb|Eb];
    [|apply bind_raise, (run_get_buffer_refused _ _ _ _ _ Hb Eb)].
  rewrite (bind_run _ _ _ _ _ (run_get_buffer _ _ _ _ _ Hb Eb)).
  destruct (Nat.eqb_spec (length shs) 1) as [Es|Es];
    [|apply bind_raise, (run_get_buffer_refused _ _ _ _ _ Hs Es)].
  rewrite (bind_run _ _ _ _ _ (run_get_buffer _ _ _ _ _ Hs Es)).
  destruct (Nat.eqb_spec (length shn) 1) as [En|En];
    [discriminate|apply bind_raise, (run_get_buffer_refused _ _ _ _ _ Hn En)].
Qed.

(** A first pass that raises ends [estimate]. *)
Lemma first_pass_raises fr maxiter maxerr err_out cb n (h : heap D) e h'
    (rest : loop_state -> M D (loc * loc * loc * option loc)) :
  estimate_iteration fr maxiter maxerr err_out cb 0 loop_entry h
    = Raise e h' ->
  bind (for_range (S n) 0 (estimate_iteration fr maxiter maxerr err_out cb)
          loop_entry) rest h = Raise e h' /\
  for_range_trace (S n) 0 (estimate_iteration fr maxiter maxerr err_out cb)
    loop_entry h = [].
Proof.
  intros P. split.
  - apply bind_raise. cbn [for_range]. apply bind_raise. exact P.
  - cbn [for_range_trace]. rewrite P. reflexivity.
Qed.

(** After a setup that returned: the outcome of [estimate] when the first
    pass raises. *)
Lemma estimate_first_pass_raises tsc bes css maxiter maxerr te err_out cb
    (h : heap D) fr h1 e h' :
  (1 <= maxiter)%Z ->
  estimate_setup tsc bes css te h = Return fr h1 ->
  estimate_iteration fr maxiter maxerr err_out cb 0 loop_entry h1
    = Raise e h' ->
  estimate tsc bes css maxiter maxerr te err_out cb h = Raise e h' /\
  estimate_passes tsc bes css maxiter maxerr te err_out cb h = [].
Proof.
  intros Hmax Es P. unfold estimate, estimate_passes.
  destruct (Z.to_nat maxiter) as [|n] eqn:En; [lia|].
  rewrite (bind_run _ _ _ _ _ Es), Es.
  apply first_pass_raises. exact P.
Qed.

(** The outcome of [estimate] when the setup raises. *)
Lemma estimate_setup_raises tsc bes css maxiter maxerr te err_out cb
    (h : heap D) e h' :
  estimate_setup tsc bes css te h = Raise e h' ->
  estimate tsc bes css maxiter maxerr te err_out cb h = Raise e h' /\
  estimate_passes tsc bes css maxiter maxerr te err_out cb h = [].
Proof.
  intros Es. unfold estimate, estimate_passes.
  rewrite (bind_raise _ _ _ _ _ Es), Es. split; reflexivity.
Qed.

End ErrorPaths.

Section ErrorRuns.
Context {D : Type} {ops : FloatOps D} {srv : Services D}.

Lemma blit_nil (new : list D) : blit [] new = [].
Proof. unfold blit. cbn [length firstn app]. apply skipn_nil. Qed.

(** The first pass of a call without thermodynamic states: the relative
    change is an empty array, which has no maximum. *)
Lemma first_pass_without_states fr maxiter maxerr err_out cb (h : heap D)
    cd shb bd shs sd shw sho od :
  lookup h (therm_state_counts fr) = Some (IntArray cd) ->
  lookup h (old_therm_weights fr) = Some (FloatArray sho od) ->
  lookup h (bias_weight_sequence fr) = Some (FloatArray shb bd) ->
  lookup h (scratch_T fr) = Some (FloatArray shs sd) ->
  lookup h (therm_weights fr) = Some (FloatArray shw []) ->
  scratch_T fr <> therm_weights fr ->
  exists h',
    estimate_iteration fr maxiter maxerr err_out cb 0 loop_entry h
    = Raise ValueError h'.
Proof.
  intros Hc Ho Hb Hs Hw Hsw.
  destruct ((length sho =? 1) && (length shb =? 2) && (length shs =? 1)
              && (length shw =? 1)) eqn:Hr.
  - apply andb_prop in Hr as [Hr Hw1]. apply andb_prop in Hr as [Hr Hs1].
    apply andb_prop in Hr as [Ho1 Hb2].
    apply Nat.eqb_eq in Ho1, Hb2, Hs1, Hw1.
    unfold estimate_iteration. cbv zeta.
    rewrite (bind_run _ _ _ _ _
               (run_update_therm_weights _ _ _ _ _ _ _ _ _ _ _ _ _ _ _
                  Hc Ho Ho1 Hb Hb2 Hs Hs1 Hw Hw1 Hsw)).
    unfold updated_weights. rewrite blit_nil.
    set (h1 := update _ (scratch_T fr) _).
    assert (Hw' : lookup (update h1 (therm_weights fr) (FloatArray shw []))
                    (therm_weights fr) = Some (FloatArray shw [])).
    { eapply lookup_update_eq. unfold h1.
      rewrite (lookup_update_neq _ _ _ _ _ Hs Hsw). exact Hw. }
    rewrite (bind_run _ _ _ _ _ (run_get_float _ _ _ _ Hw')).
    assert (Ho' : is_float (update h1 (therm_weights fr) (FloatArray shw []))
                    (old_therm_weights fr)).
    { apply (stable_update h1 (therm_weights fr) shw [] []).
      - unfold h1. rewrite (lookup_update_neq _ _ _ _ _ Hs Hsw). exact Hw.
      - apply (stable_update h (scratch_T fr) shs sd _ Hs).
        exists sho, od. exact Ho. }
    destruct Ho' as (sho' & od' & Ho').
    rewrite (bind_run _ _ _ _ _ (run_get_float _ _ _ _ Ho')).
    cbn [fst snd relative_change zip_with map].
    rewrite (bind_run _ _ _ _ _ (run_new_array _ _)).
    eexists. reflexivity.
  - exists h. unfold estimate_iteration. cbv zeta. apply bind_raise.
    exact (update_therm_weights_refused _ _ _ _ _ _ _ _ _ _ _ _ _ _ _
             Hc Ho Hb Hs Hw Hr).
Qed.

End ErrorRuns.

Section NoPass.
Context {D : Type} {ops : FloatOps D} {srv : Services D}.

Lemma estimate_no_pass (C : list (ndarray D)) a b c c0 shb bd x cs te shw w0
    maxiter maxerr err_out cb :
  nth_error C a = Some (IntArray c0) ->
  nth_error C b = Some (FloatArray shb bd) ->
  nth_error C c = Some (IntArray (x :: cs)) ->
  (0 <= 1 + fold_left Z.max cs x)%Z ->
  starts_from C (length c0) te shw w0 ->
  (maxiter <= 0)%Z ->
  exists r h',
    estimate (Caller a) (Caller b) (Caller c) maxiter maxerr te err_out cb
      (Build_heap C []) = Return r h' /\
    lookup h' (fst (fst (fst r))) =
      Some (FloatArray shw
              (initial_energies c0 shb bd (x :: cs)
                 (1 + fold_left Z.max cs x) w0)) /\
    match snd r with
    | None => err_out = 0%Z
    | Some l => err_out <> 0%Z /\ lookup h' l = Some (FloatArray [0] [])
    end.
Proof.
  intros Ha Hb Hc HM Hte Hmax.
  assert (En : Z.to_nat maxiter = 0) by lia.
  unfold estimate. rewrite En. cbn [for_range].
  destruct te as [l|].
  - destruct Hte as (k & ed & -> & Hk & Hed).
    rewrite (bind_run _ _ _ _ _
               (run_estimate_setup_warm C a b c k c0 shb bd x cs shw ed
                  Ha Hb Hc Hk HM)).
    rewrite <- Hed. rewrite bind_ret.
    unfold estimate_finish; cbv zeta; repeat exec_step.
    destruct (Z.eqb_spec err_out 0) as [E0|E0]; repeat exec_step;
      eexists; eexists; (split; [reflexivity|split]);
      try (store_simpl; reflexivity); cbn [snd]; auto.
  - destruct Hte as [-> ->].
    rewrite (bind_run _ _ _ _ _
               (run_estimate_setup_cold C a b c c0 shb bd x cs Ha Hb Hc HM)).
    rewrite bind_ret.
    unfold estimate_finish; cbv zeta; repeat exec_step.
    destruct (Z.eqb_spec err_out 0) as [E0|E0]; repeat exec_step;
      eexists; eexists; (split; [reflexivity|split]);
      try (store_simpl; reflexivity); cbn [snd]; auto.
Qed.

End NoPass.

(** X13.  When [conf_state_sequence] is empty, [estimate] raises
    [ValueError] before the first pass: the maximum of line 102 has nothing
    to reduce. *)
Theorem estimate_without_samples
    {D : Type} {ops : FloatOps D} {srv : Services D}
    tsc bes css maxiter maxerr te err_out cb (h : heap D) c0 :
  lookup h tsc = Some (IntArray c0) ->
  lookup h css = Some (IntArray []) ->
  (exists h',
     estimate tsc bes css maxiter maxerr te err_out cb h = Raise ValueError h') /\
  estimate_passes tsc bes css maxiter maxerr te err_out cb h = [].
Proof.
  intros Ha Hc.
  destruct (estimate_setup_raises tsc bes css maxiter maxerr te err_out cb h
              _ _ (setup_no_samples h tsc bes css te c0 Ha Hc)) as [E P].
  split; [eexists; exact E|exact P].
Qed.

Lemma estimate_without_samples_witness :
  exists h',
    estimate (Caller 0) (Caller 1) (Caller 2) 5 sample_maxerr None 0 None
      (Build_heap [IntArray [1%Z]; FloatArray [1; 0] []; IntArray []] [])
    = Raise ValueError h'.
Proof.
  apply (estimate_without_samples (Caller 0) (Caller 1) (Caller 2) 5
           sample_maxerr None 0 None
           (Build_heap [IntArray [1%Z]; FloatArray [1; 0] []; IntArray []] [])
           [1%Z]); reflexivity.
Defined.

(** X14.  When every label of [conf_state_sequence] is below [-1], so that
    [M = 1 + max] is negative, [estimate] raises [ValueError] before the
    first pass: [_np.zeros(shape=(M,))] refuses the negative dimension. *)
Theorem estimate_negative_labels
    {D : Type} {ops : FloatOps D} {srv : Services D}
    (C : list (ndarray D)) a b c c0 shb bd x cs te shw w0
    maxiter maxerr err_out cb :
  nth_error C a = Some (IntArray c0) ->
  nth_error C b = Some (FloatArray shb bd) ->
  nth_error C c = Some (IntArray (x :: cs)) ->
  starts_from C (length c0) te shw w0 ->
  (1 + fold_left Z.max cs x < 0)%Z ->
  (exists h',
     estimate (Caller a) (Caller b) (Caller c) maxiter maxerr te err_out cb
       (Build_heap C []) = Raise ValueError h') /\
  estimate_passes (Caller a) (Caller b) (Caller c) maxiter maxerr te err_out cb
    (Build_heap C []) = [].
Proof.
  intros Ha Hb Hc Hte HM.
  destruct (setup_negative_labels C a b c c0 shb bd x cs te shw w0
              Ha Hb Hc Hte HM) as [h' Es].
  destruct (estimate_setup_raises _ _ _ maxiter maxerr _ err_out cb _ _ _ Es)
    as [E P].
  split; [eexists; exact E|exact P].
Qed.

Lemma estimate_negative_labels_witness :
  exists h',
    estimate (Caller 0) (Caller 1) (Caller 2) 5 sample_maxerr None 0 None
      (Build_heap [IntArray [2%Z]; FloatArray [1; 2] [Fin 0; Fin 0];
                   IntArray [(-2)%Z; (-3)%Z]] [])
    = Raise ValueError h'.
Proof.
  apply (estimate_negative_labels
           [IntArray [2%Z]; FloatArray [1; 2] [Fin 0; Fin 0];
            IntArray [(-2)%Z; (-3)%Z]]
           0 1 2 [2%Z] [1; 2] [Fin 0; Fin 0] (-2)%Z [(-3)%Z] None
           [1] [Fin 1] 5 sample_maxerr 0 None);
    first [reflexivity|split; reflexivity|cbn; lia].
Defined.

(** X15.  [update_therm_weights] checks the ranks of its four float buffers
    before it writes: when one is wrong it raises [ValueError] and the store
    is as it was.  When the buffers have the sizes the compiled function
    works with (a bias matrix of [T] rows and [X] columns, and [T] counts,
    weights, scratch cells and new weights), it returns, the two buffers
    [scratch_T] and [new_therm_weights] keep their shapes and lengths, and
    every other array is as it was. *)
Theorem update_therm_weights_outcome
    {D : Type} {ops : FloatOps D} {srv : Services D}
    (h : heap D) c w b s n cd shw wd shb bd shs sd shn nd :
  lookup h c = Some (IntArray cd) ->
  lookup h w = Some (FloatArray shw wd) ->
  lookup h b = Some (FloatArray shb bd) ->
  lookup h s = Some (FloatArray shs sd) ->
  lookup h n = Some (FloatArray shn nd) ->
  s <> n ->
  ((length shw =? 1) && (length shb =? 2) && (length shs =? 1)
     && (length shn =? 1) = false ->
   update_therm_weights c w b s n h = Raise ValueError h) /\
  (forall T X,
     shb = [T; X] -> shw = [T] -> shs = [T] -> shn = [T] ->
     length cd = T -> length wd = T -> length bd = T * X ->
     length sd = T -> length nd = T ->
     exists h',
       update_therm_weights c w b s n h = Return tt h' /\
       (forall l, l <> s -> l <> n -> lookup h' l = lookup h l) /\
       (exists sd', lookup h' s = Some (FloatArray shs sd') /\
                    length sd' = length sd) /\
       (exists nd', lookup h' n = Some (FloatArray shn nd') /\
                    length nd' = length nd)).
Proof.
  intros Hc Hw Hb Hs Hn Hsn. split.
  - intros Hr.
    exact (update_therm_weights_refused _ _ _ _ _ _ _ _ _ _ _ _ _ _ _
             Hc Hw Hb Hs Hn Hr).
  - intros T X Eb Ew Es En _ _ _ _ _.
    assert (Hw1 : length shw = 1) by (rewrite Ew; reflexivity).
    assert (Hb2 : length shb = 2) by (rewrite Eb; reflexivity).
    assert (Hs1 : length shs = 1) by (rewrite Es; reflexivity).
    assert (Hn1 : length shn = 1) by (rewrite En; reflexivity).
    eexists. split.
    { exact (run_update_therm_weights _ _ _ _ _ _ _ _ _ _ _ _ _ _ _
               Hc Hw Hw1 Hb Hb2 Hs Hs1 Hn Hn1 Hsn). }
    assert (Hn' : forall a, lookup (update h s a) n = Some (FloatArray shn nd)).
    { intros a. rewrite (lookup_update_neq _ _ _ _ _ Hs Hsn). exact Hn. }
    split; [|split].
    + intros l Hls Hln.
      rewrite (lookup_update_neq _ _ _ _ _ (Hn' _)) by congruence.
      rewrite (lookup_update_neq _ _ _ _ _ Hs) by congruence. reflexivity.
    + eexists. split.
      * rewrite (lookup_update_neq _ _ _ _ _ (Hn' _)) by congruence.
        apply (lookup_update_eq _ _ _ _ Hs).
      * apply blit_length.
    + eexists. split.
      * apply (lookup_update_eq _ _ _ _ (Hn' _)).
      * apply blit_length.
Qed.

Lemma update_therm_weights_outcome_witness :
  update_therm_weights (Caller 0) (Caller 1) (Caller 2) (Caller 3) (Caller 4)
    (Build_heap [IntArray [2%Z]; FloatArray [1] [Fin 1];
                 FloatArray [2] [Fin 0; Fin 0]; FloatArray [1] [Fin 0];
                 FloatArray [1] [Fin 1]] [])
  = Raise ValueError
      (Build_heap [IntArray [2%Z]; FloatArray [1] [Fin 1];
                   FloatArray [2] [Fin 0; Fin 0]; FloatArray [1] [Fin 0];
                   FloatArray [1] [Fin 1]] []) /\
  exists h',
    update_therm_weights (Caller 0) (Caller 1) (Caller 2) (Caller 3) (Caller 4)
      (Build_heap [IntArray [2%Z]; FloatArray [1] [Fin 1];
                   FloatArray [1; 2] [Fin 0; Fin 0]; FloatArray [1] [Fin 0];
                   FloatArray [1] [Fin 1]] [])
    = Return tt h'.
Proof.
  split.
  - apply (update_therm_weights_outcome
             (Build_heap [IntArray [2%Z]; FloatArray [1] [Fin 1];
                          FloatArray [2] [Fin 0; Fin 0]; FloatArray [1] [Fin 0];
                          FloatArray [1] [Fin 1]] [])
             (Caller 0) (Caller 1) (Caller 2) (Caller 3) (Caller 4)
             [2%Z] [1] [Fin 1] [2] [Fin 0; Fin 0] [1] [Fin 0] [1] [Fin 1]);
      first [reflexivity|discriminate].
  - destruct (update_therm_weights_outcome
                (Build_heap [IntArray [2%Z]; FloatArray [1] [Fin 1];
                             FloatArray [1; 2] [Fin 0; Fin 0];
                             FloatArray [1] [Fin 0]; FloatArray [1] [Fin 1]] [])
                (Caller 0) (Caller 1) (Caller 2) (Caller 3) (Caller 4)
                [2%Z] [1] [Fin 1] [1; 2] [Fin 0; Fin 0] [1] [Fin 0] [1] [Fin 1]
                eq_refl eq_refl eq_refl eq_refl eq_refl ltac:(discriminate))
      as [_ Hok].
    destruct (Hok 1 2 eq_refl eq_refl eq_refl eq_refl eq_refl eq_refl eq_refl
                eq_refl eq_refl) as (h' & E & _).
    exists h'. exact E.
Defined.

(** X16.  When [bias_energy_sequence] has one axis, or three or more, a call
    with [maxiter >= 1] raises [ValueError] and completes no pass, whatever
    the observer: at the latest, the buffer check of [update_therm_weights]
    refuses the bias weights in the first pass.  The arrays have an axis
    (numpy turns the exponential of an array without axes into a scalar,
    which is no array), and the labels are below [INT_MAX], so that
    [1 + max] is exact in an integer dtype of 32 bits or more. *)
Theorem estimate_refuses_bias_rank
    {D : Type} {ops : FloatOps D} {srv : Services D}
    (C : list (ndarray D)) a b c c0 shb bd cs te shw w0
    maxiter maxerr err_out cb :
  nth_error C a = Some (IntArray c0) ->
  nth_error C b = Some (FloatArray shb bd) ->
  shb <> [] -> length shb <> 2 ->
  nth_error C c = Some (IntArray cs) ->
  Forall (fun z => (z < INT_MAX)%Z) cs ->
  starts_from C (length c0) te shw w0 -> shw <> [] ->
  (1 <= maxiter)%Z ->
  (exists h',
     estimate (Caller a) (Caller b) (Caller c) maxiter maxerr te err_out cb
       (Build_heap C []) = Raise ValueError h') /\
  estimate_passes (Caller a) (Caller b) (Caller c) maxiter maxerr te err_out cb
    (Build_heap C []) = [].
Proof.
  intros Ha Hb _ Hb2 Hc _ Hte _ Hmax.
  destruct cs as [|x cs].
  { destruct (estimate_setup_raises _ _ _ maxiter maxerr te err_out cb _ _ _
                (setup_no_samples (Build_heap C []) (Caller a) (Caller b)
                   (Caller c) te c0 Ha Hc)) as [E P].
    split; [eexists; exact E|exact P]. }
  destruct (Z.lt_ge_cases (1 + fold_left Z.max cs x) 0) as [HM|HM].
  { destruct (setup_negative_labels C a b c c0 shb bd x cs te shw w0
                Ha Hb Hc Hte HM) as [h' Es].
    destruct (estimate_setup_raises _ _ _ maxiter maxerr _ err_out cb _ _ _ Es)
      as [E P].
    split; [eexists; exact E|exact P]. }
  assert (Hr : forall p q r : bool, p && (length shb =? 2) && q && r = false).
  { intros p q r. destruct (Nat.eqb_spec (length shb) 2); [contradiction|].
    rewrite andb_false_r. reflexivity. }
  destruct te as [l|].
  - destruct Hte as (k & ed & -> & Hk & Hed).
    pose proof (run_estimate_setup_warm C a b c k c0 shb bd x cs shw ed
                  Ha Hb Hc Hk HM) as Es.
    match type of Es with _ = Return ?fr ?h1 =>
      assert (U : estimate_iteration fr maxiter maxerr err_out cb 0
                    loop_entry h1 = Raise ValueError h1)
    end.
    { unfold estimate_iteration. cbv zeta. apply bind_raise.
      eapply update_therm_weights_refused; try reflexivity. apply Hr. }
    destruct (estimate_first_pass_raises _ _ _ _ maxerr _ err_out cb _ _ _ _ _
                Hmax Es U) as [E P].
    split; [eexists; exact E|exact P].
  - destruct Hte as [-> ->].
    pose proof (run_estimate_setup_cold C a b c c0 shb bd x cs
                  Ha Hb Hc HM) as Es.
    match type of Es with _ = Return ?fr ?h1 =>
      assert (U : estimate_iteration fr maxiter maxerr err_out cb 0
                    loop_entry h1 = Raise ValueError h1)
    end.
    { unfold estimate_iteration. cbv zeta. apply bind_raise.
      eapply update_therm_weights_refused; try reflexivity. apply Hr. }
    destruct (estimate_first_pass_raises _ _ _ _ maxerr _ err_out cb _ _ _ _ _
                Hmax Es U) as [E P].
    split; [eexists; exact E|exact P].
Qed.

Lemma estimate_refuses_bias_rank_witness :
  exists h',
    estimate (Caller 0) (Caller 1) (Caller 2) 1 sample_maxerr None 0 None
      (Build_heap [IntArray [1%Z]; FloatArray [1] [Fin 0]; IntArray [0%Z]] [])
    = Raise ValueError h'.
Proof.
  apply (estimate_refuses_bias_rank
           [IntArray [1%Z]; FloatArray [1] [Fin 0]; IntArray [0%Z]]
           0 1 2 [1%Z] [1] [Fin 0] [0%Z] None [1] [Fin 1] 1 sample_maxerr 0
           None);
    first [reflexivity|discriminate|split; reflexivity|lia
          |repeat constructor].
Defined.

(** X17.  Without thermodynamic states (an empty [therm_state_counts] and a
    bias matrix without rows) a cold-start call with [maxiter >= 1] raises
    [ValueError]: at the latest, the relative change of the first pass is an
    empty array and line 121 has nothing to take the maximum of.  The labels
    are below [INT_MAX], so that [1 + max] is exact in an integer dtype of
    32 bits or more. *)
Theorem estimate_without_states
    {D : Type} {ops : FloatOps D} {srv : Services D}
    (C : list (ndarray D)) a b c X cs maxiter maxerr err_out cb :
  nth_error C a = Some (IntArray []) ->
  nth_error C b = Some (FloatArray [0; X] []) ->
  nth_error C c = Some (IntArray cs) ->
  Forall (fun z => (z < INT_MAX)%Z) cs ->
  (1 <= maxiter)%Z ->
  (exists h',
     estimate (Caller a) (Caller b) (Caller c) maxiter maxerr None err_out cb
       (Build_heap C []) = Raise ValueError h') /\
  estimate_passes (Caller a) (Caller b) (Caller c) maxiter maxerr None err_out
    cb (Build_heap C []) = [].
Proof.
  intros Ha Hb Hc _ Hmax.
  set (shb := [0; X]) in *. set (bd := @nil D) in *.
  destruct cs as [|x cs].
  { destruct (estimate_setup_raises _ _ _ maxiter maxerr None err_out cb _ _ _
                (setup_no_samples (Build_heap C []) (Caller a) (Caller b)
                   (Caller c) None [] Ha Hc)) as [E P].
    split; [eexists; exact E|exact P]. }
  destruct (Z.lt_ge_cases (1 + fold_left Z.max cs x) 0) as [HM|HM].
  { destruct (setup_negative_labels C a b c [] shb bd x cs None [0] []
                Ha Hb Hc ltac:(split; reflexivity) HM) as [h' Es].
    destruct (estimate_setup_raises _ _ _ maxiter maxerr _ err_out cb _ _ _ Es)
      as [E P].
    split; [eexists; exact E|exact P]. }
  pose proof (run_estimate_setup_cold C a b c [] shb bd x cs Ha Hb Hc HM) as Es.
  match type of Es with _ = Return ?fr ?h1 =>
    destruct (first_pass_without_states fr maxiter maxerr err_out cb h1
                [] shb (bias_weights_of bd) [0] [] [0] [0] [])
      as [h' U]; try reflexivity
  end.
  { discriminate. }
  destruct (estimate_first_pass_raises _ _ _ _ maxerr _ err_out cb _ _ _ _ _
              Hmax Es U) as [E P].
  split; [eexists; exact E|exact P].
Qed.

Lemma estimate_without_states_witness :
  exists h',
    estimate (Caller 0) (Caller 1) (Caller 2) 1 sample_maxerr None 0 None
      (Build_heap [IntArray []; FloatArray [0; 1] []; IntArray [0%Z]] [])
    = Raise ValueError h'.
Proof.
  apply (estimate_without_states
           [IntArray []; FloatArray [0; 1] []; IntArray [0%Z]]
           0 1 2 1 [0%Z] 1 sample_maxerr 0 None);
    first [reflexivity|lia|repeat constructor].
Defined.

(** X18.  For inputs of the expected shapes ([T >= 1] counts, a bias matrix
    of [T] rows and one column for each of the [X >= 1] samples, labels from
    zero up and below [INT_MAX], a warm start of [T] energies) and
    [maxiter <= 0]: the loop is skipped and [estimate] returns, whatever the
    observer and [maxerr] are; the thermodynamic free energies it returns
    are those of the initial weights as [normalize] has left them, and the
    trajectory is [None] for [err_out = 0] and an empty array otherwise. *)
Theorem estimate_without_iterations
    {D : Type} {ops : FloatOps D} {srv : Services D}
    (C : list (ndarray D)) a b c c0 shb bd x cs te shw w0
    maxiter maxerr err_out cb :
  nth_error C a = Some (IntArray c0) ->
  nth_error C b = Some (FloatArray shb bd) ->
  nth_error C c = Some (IntArray (x :: cs)) ->
  (0 <= 1 + fold_left Z.max cs x)%Z ->
  starts_from C (length c0) te shw w0 ->
  (maxiter <= 0)%Z ->
  1 <= length c0 ->
  shb = [length c0; length (x :: cs)] ->
  length bd = length c0 * length (x :: cs) ->
  Forall (fun z => (0 <= z < INT_MAX)%Z) (x :: cs) ->
  shw = [length c0] -> length w0 = length c0 ->
  estimate_passes (Caller a) (Caller b) (Caller c) maxiter maxerr te err_out
    cb (Build_heap C []) = [] /\
  exists r h',
    estimate (Caller a) (Caller b) (Caller c) maxiter maxerr te err_out cb
      (Build_heap C []) = Return r h' /\
    lookup h' (fst (fst (fst r))) =
      Some (FloatArray shw
              (initial_energies c0 shb bd (x :: cs)
                 (1 + fold_left Z.max cs x) w0)) /\
    match snd r with
    | None => err_out = 0%Z
    | Some l => err_out <> 0%Z /\ lookup h' l = Some (FloatArray [0] [])
    end.
Proof.
  intros Ha Hb Hc HM Hte Hmax _ _ _ _ _ _. split.
  - unfold estimate_passes. replace (Z.to_nat maxiter) with 0 by lia.
    destruct (estimate_setup (Caller a) (Caller b) (Caller c) te
                (Build_heap C [])); reflexivity.
  - apply estimate_no_pass; assumption.
Qed.

Lemma estimate_without_iterations_witness :
  exists r h',
    estimate (Caller 0) (Caller 1) (Caller 2) 0 sample_maxerr None 0
      (Some (always_raises (OtherException 7))) sample_heap = Return r h' /\
    snd r = None.
Proof.
  destruct (estimate_without_iterations sample_caller 0 1 2 [2%Z] [1; 2]
              [Fin 0; Fin 0] 0%Z [1%Z] None [1] [Fin 1] 0 sample_maxerr 0
              (Some (always_raises (OtherException 7)))
              eq_refl eq_refl eq_refl ltac:(cbn; lia)
              ltac:(split; reflexivity) ltac:(lia)
              (le_n 1) eq_refl eq_refl
              ltac:(repeat constructor; unfold INT_MAX; lia)
              eq_refl eq_refl)
    as (_ & r & h' & E & _ & T).
  exists r, h'. split; [exact E|].
  destruct (snd r) as [l|]; [destruct T as [T _]; contradiction|reflexivity].
Defined.

(* ================================================================== *)
(** * More on the driver: the convergence test on idealised doubles *)

Section ConvergenceTest.
Local Open Scope R_scope.

Lemma convergence_margin_cons (maxerr n o : dbl) (new old : list dbl) :
  convergence_margin maxerr (n :: new) (o :: old) =
  dsub (dabs (dsub n o)) (dmul maxerr (dabs n))
    :: convergence_margin maxerr new old.
Proof. reflexivity. Qed.

Lemma dmax_NaN_r x : dmax x NaN = NaN.
Proof. destruct x; reflexivity. Qed.

Lemma fold_dmax_NaN l : fold_left dmax l NaN = NaN.
Proof. induction l as [|y l IH]; [reflexivity|exact IH]. Qed.

Lemma fold_dmax_In_NaN l : forall a, In NaN l -> fold_left dmax l a = NaN.
Proof.
  induction l as [|y l IH]; intros a H; [contradiction|].
  cbn [fold_left]. destruct H as [->|H].
  - rewrite dmax_NaN_r. apply fold_dmax_NaN.
  - apply IH, H.
Qed.

Lemma np_max_value_NaN (l : list dbl) : In NaN l -> np_max_value l = NaN.
Proof.
  destruct l as [|x l]; [contradiction|]. intros [->|H]; cbn [np_max_value].
  - apply fold_dmax_NaN.
  - apply fold_dmax_In_NaN, H.
Qed.

Lemma margin_NaN (maxerr : dbl) (new old : list dbl) :
  length new = length old -> In NaN new \/ In NaN old ->
  In NaN (convergence_margin maxerr new old).
Proof.
  revert old. induction new as [|n new IH]; intros [|o old] Hl H;
    try discriminate.
  - destruct H as [[]|[]].
  - rewrite convergence_margin_cons.
    assert (Hn : n = NaN \/ o = NaN \/ (In NaN new \/ In NaN old)).
    { destruct H as [[->|H]|[->|H]]; auto. }
    destruct Hn as [->|[->|Hn]].
    + left. reflexivity.
    + left. destruct n; reflexivity.
    + right. apply IH; [cbn in Hl; lia|exact Hn].
Qed.

Lemma dabs_not_negative x : not_negative (dabs x).
Proof.
  destruct x as [| | |r]; cbn; unfold not_negative; auto.
  right. right. exists (Rabs r). split; [reflexivity|apply Rabs_pos].
Qed.

Lemma margin_entry_zero_tolerance (d n : dbl) :
  not_negative (dsub (dabs d) (dmul (Fin 0) (dabs n))).
Proof.
  assert (H00 : Rltb 0 0 = false) by (apply Rltb_false; lra).
  destruct (dabs_not_negative d) as [->|[->|(r & -> & Hr)]];
    destruct (dabs_not_negative n) as [->|[->|(s & -> & Hs)]];
    unfold dsub; cbn [dmul]; unfold signed_inf; rewrite ?H00;
    cbn [dneg dadd]; unfold not_negative; auto.
  right. right. eexists. split; [reflexivity|]. lra.
Qed.

Lemma dmax_not_negative x y :
  not_negative x -> not_negative y -> not_negative (dmax x y).
Proof.
  intros Hx Hy.
  destruct Hx as [->|[->|(r & -> & Hr)]]; [left; reflexivity| |];
    (destruct Hy as [->|[->|(s & -> & Hs)]]; [left; reflexivity| |]);
    unfold dmax;
    match goal with
    | |- context [dltb ?a ?b] => destruct (dltb a b)
    end; unfold not_negative; eauto 6.
Qed.

Lemma fold_dmax_not_negative l : forall a,
  not_negative a -> Forall not_negative l -> not_negative (fold_left dmax l a).
Proof.
  induction l as [|y l IH]; intros a Ha Hl; [exact Ha|].
  inversion Hl; subst. cbn [fold_left]. apply IH; [|assumption].
  apply dmax_not_negative; assumption.
Qed.

Lemma margin_zero_tolerance (new old : list dbl) :
  Forall not_negative (convergence_margin (Fin 0) new old).
Proof.
  revert old. induction new as [|n new IH]; intros [|o old]; try constructor.
  - apply margin_entry_zero_tolerance.
  - apply IH.
Qed.

Lemma dltb_not_negative x : not_negative x -> dltb x (Fin 0) = false.
Proof.
  intros [->|[->|(r & -> & Hr)]]; cbn; try reflexivity.
  apply Rltb_false. lra.
Qed.

End ConvergenceTest.

(** X19.  On idealised doubles: when the new or the old weights contain a
    NaN, the convergence test of line 136 fails, whatever [maxerr] is. *)
Theorem converged_never_with_nan (maxerr : dbl) (new old : list dbl) :
  length new = length old -> In NaN new \/ In NaN old ->
  converged maxerr new old = false.
Proof.
  intros Hl H. unfold converged.
  rewrite (np_max_value_NaN _ (margin_NaN maxerr new old Hl H)).
  reflexivity.
Qed.

Lemma converged_never_with_nan_witness :
  converged sample_maxerr [Fin 1; NaN] [Fin 1; Fin 1] = false.
Proof.
  apply (converged_never_with_nan sample_maxerr [Fin 1; NaN] [Fin 1; Fin 1]).
  - reflexivity.
  - left. right. left. reflexivity.
Defined.

(** X20.  On idealised doubles: with [maxerr = 0] the convergence test of
    line 136 fails for all weights, a fixed point included, since the
    comparison with zero is strict. *)
Theorem converged_never_with_zero_tolerance (new old : list dbl) :
  converged (Fin 0) new old = false.
Proof.
  unfold converged. apply dltb_not_negative.
  assert (H := margin_zero_tolerance new old).
  change (@fzero dbl dbl_ops) with (Fin 0).
  destruct (convergence_margin (Fin 0) new old) as [|x l]; cbn [np_max_value].
  - right. right. exists 0%R. split; [reflexivity|lra].
  - inversion H; subst. apply fold_dmax_not_negative; assumption.
Qed.

(* ================================================================== *)
(** * More on the driver: the exceptions that leave it *)

Section Exceptions.
Context {D : Type} {ops : FloatOps D} {srv : Services D}.
Variable P : exn -> Prop.

Lemma raises_only_ret {A : Type} (a : A) : raises_only (D := D) P (ret a).
Proof. intros h. exact I. Qed.

Lemma raises_only_raise {A : Type} e :
  P e -> raises_only (D := D) (A := A) P (raise e).
Proof. intros H h. exact H. Qed.

Lemma raises_only_bind {A B : Type} (m : M D A) (k : A -> M D B) :
  raises_only P m -> (forall a, raises_only P (k a)) ->
  raises_only P (bind m k).
Proof.
  intros Hm Hk h. unfold bind. specialize (Hm h).
  destruct (m h) as [a h1|e h1|]; [apply Hk|exact Hm|exact I].
Qed.

Lemma raises_only_get_int l : raises_only (D := D) P (get_int l).
Proof.
  intros h. unfold get_int. destruct (lookup h l) as [[d|sh d]|]; exact I.
Qed.

Lemma raises_only_get_float l : raises_only (D := D) P (get_float l).
Proof.
  intros h. unfold get_float. destruct (lookup h l) as [[d|sh d]|]; exact I.
Qed.

Lemma raises_only_set_data l (new : list D) : raises_only P (set_data l new).
Proof.
  intros h. unfold set_data. destruct (lookup h l) as [[d|sh d]|]; exact I.
Qed.

Lemma raises_only_new_array (a : ndarray D) : raises_only P (new_array a).
Proof. intros h. exact I. Qed.

Hypothesis value_error : P ValueError.

Lemma raises_only_get_buffer n l : raises_only (D := D) P (get_buffer n l).
Proof.
  unfold get_buffer. apply raises_only_bind; [apply raises_only_get_float|].
  intros a. destruct (length (fst a) =? n);
    [apply raises_only_ret|apply raises_only_raise, value_error].
Qed.

Lemma raises_only_np_max (v : list D) : raises_only P (np_max v).
Proof.
  destruct v; [apply raises_only_raise, value_error|apply raises_only_ret].
Qed.

Lemma raises_only_np_max_int (v : list Z) :
  raises_only (D := D) P (np_max_int v).
Proof.
  destruct v; [apply raises_only_raise, value_error|apply raises_only_ret].
Qed.

Lemma raises_only_np_zeros n : raises_only P (np_zeros n).
Proof.
  unfold np_zeros. destruct (n <? 0)%Z;
    [apply raises_only_raise, value_error|apply raises_only_new_array].
Qed.

Lemma raises_only_np_ones n : raises_only P (np_ones n).
Proof. apply raises_only_new_array. Qed.

Lemma raises_only_for_range {St : Type}
    (body : nat -> St -> M D (St * bool)) n :
  (forall i st, raises_only P (body i st)) ->
  forall start st, raises_only P (for_range n start body st).
Proof.
  intros Hb. induction n as [|n IH]; intros start st; cbn [for_range].
  - apply raises_only_ret.
  - apply raises_only_bind; [apply Hb|]. intros r.
    destruct (snd r); [apply raises_only_ret|apply IH].
Qed.

End Exceptions.

Section EstimateExceptions.
Context {D : Type} {ops : FloatOps D} {srv : Services D}.

(** One more primitive step of a computation that raises little. *)
Ltac raises_step V :=
  lazymatch goal with
  | |- @raises_only _ _ _ (@ret _ _ _) => apply raises_only_ret
  | |- @raises_only _ _ _ (@bind _ _ _ (@get_int _ _) _) =>
      apply raises_only_bind; [apply raises_only_get_int|intros ?]
  | |- @raises_only _ _ _ (@bind _ _ _ (@get_float _ _) _) =>
      apply raises_only_bind; [apply raises_only_get_float|intros ?]
  | |- @raises_only _ _ _ (@bind _ _ _ (@get_buffer _ _ _) _) =>
      apply raises_only_bind; [apply raises_only_get_buffer, V|intros ?]
  | |- @raises_only _ _ _ (@bind _ _ _ (@np_max _ _ _) _) =>
      apply raises_only_bind; [apply raises_only_np_max, V|intros ?]
  | |- @raises_only _ _ _ (@bind _ _ _ (@np_max_int _ _) _) =>
      apply raises_only_bind; [apply raises_only_np_max_int, V|intros ?]
  | |- @raises_only _ _ _ (@bind _ _ _ (@set_data _ _ _) _) =>
      apply raises_only_bind; [apply raises_only_set_data|intros ?]
  | |- @raises_only _ _ _ (@bind _ _ _ (@new_array _ _) _) =>
      apply raises_only_bind; [apply raises_only_new_array|intros ?]
  | |- @raises_only _ _ _ (@bind _ _ _ (@np_zeros _ _ _) _) =>
      apply raises_only_bind; [apply raises_only_np_zeros, V|intros ?]
  | |- @raises_only _ _ _ (@bind _ _ _ (@np_ones _ _ _) _) =>
      apply raises_only_bind; [apply raises_only_np_ones|intros ?]
  end.

Lemma passed_on_value_error : passed_on ValueError.
Proof. reflexivity. Qed.

(** Lines 125-135 let through what the observer raised, except
    [CallbackInterrupt]. *)
Lemma raises_only_notify (cb : option (@callback D)) args stop_ :
  raises_only passed_on (notify cb args stop_).
Proof.
  unfold notify. destruct cb as [f|]; [|apply raises_only_ret].
  destruct (f args) as [|e] eqn:E; [apply raises_only_ret|].
  destruct (is_interrupt e) eqn:Ei; [apply raises_only_ret|].
  apply raises_only_raise. exact Ei.
Qed.

Lemma raises_only_estimate_setup (P : exn -> Prop) tsc bes css te :
  P ValueError -> raises_only (D := D) P (estimate_setup tsc bes css te).
Proof.
  intros V. unfold estimate_setup. cbv zeta. do 6 raises_step V.
  apply raises_only_bind.
  { destruct te as [e|]; do 2 raises_step V; apply raises_only_ret. }
  intros ew_. do 8 raises_step V. apply raises_only_ret.
Qed.

Lemma raises_only_estimate_iteration fr maxiter maxerr err_out cb i st :
  raises_only passed_on
    (estimate_iteration fr maxiter maxerr err_out cb i st).
Proof.
  assert (V := passed_on_value_error).
  unfold estimate_iteration. cbv zeta.
  apply raises_only_bind.
  { unfold update_therm_weights. cbv zeta. do 6 raises_step V.
    apply raises_only_set_data. }
  intros _. do 4 raises_step V.
  apply raises_only_bind; [apply raises_only_notify|intros stop1].
  apply raises_only_bind; [|intros ?; apply raises_only_ret].
  unfold convergence_check. do 3 raises_step V.
  destruct (fltb _ fzero); [apply raises_only_ret|].
  raises_step V. apply raises_only_ret.
Qed.

Lemma raises_only_estimate_finish (P : exn -> Prop) fr bes css err_out st :
  P ValueError -> raises_only (D := D) P (estimate_finish fr bes css err_out st).
Proof.
  intros V. unfold estimate_finish. cbv zeta. do 18 raises_step V.
  apply raises_only_bind.
  { destruct (err_out =? 0)%Z; [apply raises_only_ret|].
    raises_step V. apply raises_only_ret. }
  intros traj. apply raises_only_ret.
Qed.

End EstimateExceptions.

(** X23.  [CallbackInterrupt] never leaves [estimate]: when a call ends with
    an exception, whatever the observer raised and in whichever pass, that
    exception is not [CallbackInterrupt]. *)
Theorem estimate_raises {D : Type} {ops : FloatOps D} {srv : Services D}
    tsc bes css maxiter maxerr te err_out cb (h : heap D) e h' :
  estimate tsc bes css maxiter maxerr te err_out cb h = Raise e h' ->
  e <> CallbackInterrupt.
Proof.
  intros H.
  assert (R : raises_only passed_on
                (estimate tsc bes css maxiter maxerr te err_out cb)).
  { unfold estimate. apply raises_only_bind.
    - apply raises_only_estimate_setup, passed_on_value_error.
    - intros fr. apply raises_only_bind.
      + apply raises_only_for_range. intros i st.
        apply raises_only_estimate_iteration.
      + intros st. apply raises_only_estimate_finish, passed_on_value_error. }
  specialize (R h). rewrite H in R. intros ->. discriminate.
Qed.

Lemma estimate_raises_witness :
  exists h',
    estimate (Caller 0) (Caller 1) (Caller 2) 3 sample_maxerr None 0
      (Some (always_raises (OtherException 7))) sample_heap
    = Raise (OtherException 7) h' /\
    OtherException 7 <> CallbackInterrupt.
Proof.
  destruct (sample_first_pass 3 0 (Some (always_raises (OtherException 7)))
              ltac:(lia)) as [h' E].
  exists h'. split; [exact E|].
  exact (estimate_raises _ _ _ _ _ _ _ _ _ _ _ E).
Defined.

(* ================================================================== *)
(** * More on the driver: the stride has no influence *)

Section Stride.
Context {D : Type} {ops : FloatOps D} {srv : Services D}.

Lemma outcome_rel_bind_same {A B1 B2 : Type} (m : M D A)
    (k1 : A -> M D B1) (k2 : A -> M D B2) h
    (Q : B1 -> heap D -> B2 -> heap D -> Prop) :
  (forall a h', m h = Return a h' -> outcome_rel Q (k1 a h') (k2 a h')) ->
  outcome_rel Q (bind m k1 h) (bind m k2 h).
Proof.
  intros Hk. unfold bind. destruct (m h) as [a h'|e h'|]; cbn.
  - apply Hk. reflexivity.
  - split; reflexivity.
  - exact I.
Qed.

Lemma outcome_rel_bind {A1 A2 B1 B2 : Type} (m1 : M D A1) (m2 : M D A2)
    (k1 : A1 -> M D B1) (k2 : A2 -> M D B2) h h0
    (Q0 : A1 -> heap D -> A2 -> heap D -> Prop)
    (Q : B1 -> heap D -> B2 -> heap D -> Prop) :
  outcome_rel Q0 (m1 h) (m2 h0) ->
  (forall a h1 b h2, Q0 a h1 b h2 -> outcome_rel Q (k1 a h1) (k2 b h2)) ->
  outcome_rel Q (bind m1 k1 h) (bind m2 k2 h0).
Proof.
  intros Hm Hk. unfold bind.
  destruct (m1 h) as [a h1|e1 h1|], (m2 h0) as [b h2|e2 h2|]; cbn in *;
    try contradiction; auto.
Qed.

(** One pass under two strides. *)
Lemma estimate_iteration_stride fr maxiter maxerr k1 k2 cb i st1 st2 (h : heap D) :
  stop st1 = stop st2 ->
  outcome_rel (fun r1 h1 r2 h2 => same_stop (fst r1) h1 (fst r2) h2 /\
                                  snd r1 = snd r2)
    (estimate_iteration fr maxiter maxerr k1 cb i st1 h)
    (estimate_iteration fr maxiter maxerr k2 cb i st2 h).
Proof.
  intros Hs. unfold estimate_iteration. cbv zeta. rewrite Hs.
  do 7 (apply outcome_rel_bind_same; intros ? ? _).
  cbn. repeat split.
Qed.

Lemma for_range_stride fr maxiter maxerr k1 k2 cb n :
  forall i st1 st2 (h : heap D),
  stop st1 = stop st2 ->
  outcome_rel same_stop
    (for_range n i (estimate_iteration fr maxiter maxerr k1 cb) st1 h)
    (for_range n i (estimate_iteration fr maxiter maxerr k2 cb) st2 h).
Proof.
  induction n as [|n IH]; intros i st1 st2 h Hs; cbn [for_range].
  - cbn. split; [reflexivity|exact Hs].
  - eapply outcome_rel_bind.
    + apply (estimate_iteration_stride fr maxiter maxerr k1 k2 cb i st1 st2 h Hs).
    + intros [s1 b1] h1 [s2 b2] h2 [[<- Hs'] Hb]. cbn [fst snd] in *. subst b2.
      destruct b1.
      * cbn. split; [reflexivity|exact Hs'].
      * apply IH. exact Hs'.
Qed.

Lemma set_data_returned l (new : list D) h u h' :
  set_data l new h = Return u h' -> is_float h' l /\ stable h h'.
Proof.
  unfold set_data. destruct (lookup h l) as [[d|sh d]|] eqn:E; try discriminate.
  intros H. injection H as _ <-. split.
  - exists sh, (blit d new). apply (lookup_update_eq _ _ _ _ E).
  - apply (stable_update _ _ _ _ _ E).
Qed.

Lemma estimate_finish_stride fr bes css k1 k2 st1 st2 (h : heap D) :
  outcome_rel same_energies
    (estimate_finish fr bes css k1 st1 h)
    (estimate_finish fr bes css k2 st2 h).
Proof.
  unfold estimate_finish. cbv zeta.
  do 15 (apply outcome_rel_bind_same; intros ? ? _).
  apply outcome_rel_bind_same. intros ? hte Ete.
  apply outcome_rel_bind_same. intros ? hce Ece.
  apply outcome_rel_bind_same. intros ? hf Ebce.
  destruct (set_data_returned _ _ _ _ _ Ete) as [Fte _].
  destruct (set_data_returned _ _ _ _ _ Ece) as [Fce Sce].
  destruct (set_data_returned _ _ _ _ _ Ebce) as [Fbce Sbce].
  apply (proj2 Sce), (proj2 Sbce) in Fte. apply (proj2 Sbce) in Fce.
  assert (Hx : forall (arr : ndarray D) l, is_float hf l ->
                 is_float (extend hf arr) l /\
                 lookup (extend hf arr) l = lookup hf l).
  { intros arr l (sh & d & E). split.
    - exists sh, d. apply lookup_extend, E.
    - rewrite E. apply lookup_extend, E. }
  assert (Hin : forall l x y z, In l [x; y; z] ->
                  is_float hf x -> is_float hf y -> is_float hf z ->
                  is_float hf l).
  { intros l x y z [<-|[<-|[<-|[]]]]; auto. }
  destruct (k1 =? 0)%Z, (k2 =? 0)%Z; cbn; (split; [reflexivity|]);
    intros l Hl; specialize (Hin l _ _ _ Hl Fte Fce Fbce).
  - split; [exact Hin|reflexivity].
  - split; [exact Hin|]. symmetry. apply Hx, Hin.
  - destruct (Hx (FloatArray [length (err_traj st1)] (err_traj st1)) l Hin).
    split; assumption.
  - destruct (Hx (FloatArray [length (err_traj st1)] (err_traj st1)) l Hin)
      as [F1 E1].
    destruct (Hx (FloatArray [length (err_traj st2)] (err_traj st2)) l Hin)
      as [F2 E2].
    split; [exact F1|congruence].
Qed.

End Stride.

(** X24.  The stride [err_out] decides what goes into the error trajectory
    and nothing else: two calls that differ in [err_out] only end in the
    same way, raise the same exception in the same store, or return the
    same three arrays of free energies with the same contents. *)
Theorem estimate_stride_independence
    {D : Type} {ops : FloatOps D} {srv : Services D}
    tsc bes css maxiter maxerr te err_out1 err_out2 cb (h : heap D) :
  outcome_rel same_energies
    (estimate tsc bes css maxiter maxerr te err_out1 cb h)
    (estimate tsc bes css maxiter maxerr te err_out2 cb h).
Proof.
  unfold estimate. apply outcome_rel_bind_same. intros fr h1 _.
  eapply outcome_rel_bind.
  - apply (for_range_stride fr maxiter maxerr err_out1 err_out2 cb
             (Z.to_nat maxiter) 0 loop_entry loop_entry h1 eq_refl).
  - intros st1 h2 st2 h3 [<- _]. apply estimate_finish_stride.
Qed.

(* ================================================================== *)
(** * More on the driver: shapes *)

Section Shapes.
Context {D : Type} {ops : FloatOps D} {srv : Services D}.

Lemma same_shapes_refl (h : heap D) : same_shapes h h.
Proof. intros l sh d E. exists d. auto. Qed.

Lemma same_shapes_trans (h1 h2 h3 : heap D) :
  same_shapes h1 h2 -> same_shapes h2 h3 -> same_shapes h1 h3.
Proof.
  intros H12 H23 l sh d E. destruct (H12 _ _ _ E) as (d2 & E2 & L2).
  destruct (H23 _ _ _ E2) as (d3 & E3 & L3). exists d3. split; [exact E3|lia].
Qed.

Lemma same_shapes_extend (h : heap D) a : same_shapes h (extend h a).
Proof. intros l sh d E. exists d. split; [apply lookup_extend, E|reflexivity]. Qed.

Lemma same_shapes_update (h : heap D) l sh d new :
  lookup h l = Some (FloatArray sh d) ->
  same_shapes h (update h l (FloatArray sh (blit d new))).
Proof.
  intros E l' sh' d' E'. destruct (loc_eq_dec l l') as [<-|Hne].
  - rewrite E in E'. injection E' as <- <-.
    exists (blit d new). split; [apply (lookup_update_eq _ _ _ _ E)|].
    apply blit_length.
  - exists d'. rewrite (lookup_update_neq _ _ _ _ _ E Hne). auto.
Qed.

Lemma keeps_shapes_bind {A B : Type} (m : M D A) (k : A -> M D B)
    (Q : A -> heap D -> Prop) (R : B -> heap D -> Prop) :
  keeps_shapes m Q ->
  (forall a h1, Q a h1 ->
     forall h, same_shapes h h1 ->
     match k a h1 with
     | Return b h2 => same_shapes h1 h2 /\ R b h2
     | _ => True
     end) ->
  keeps_shapes (bind m k) R.
Proof.
  intros Hm Hk h. unfold bind. specialize (Hm h).
  destruct (m h) as [a h1|e h1|]; [|exact I|exact I].
  destruct Hm as [S1 Ha]. specialize (Hk a h1 Ha h S1).
  destruct (k a h1) as [b h2|e h2|]; [|exact I|exact I].
  destruct Hk as [S2 Hb]. split; [exact (same_shapes_trans _ _ _ S1 S2)|exact Hb].
Qed.

Lemma keeps_shapes_any {A : Type} (m : M D A) :
  (forall h a h', m h = Return a h' -> same_shapes h h') ->
  keeps_shapes m (fun _ _ => True).
Proof.
  intros H h. destruct (m h) as [a h'|e h'|] eqn:E; auto.
  split; [exact (H _ _ _ E)|exact I].
Qed.

Lemma get_int_shapes l : keeps_shapes (D := D) (get_int l) (fun _ _ => True).
Proof.
  apply keeps_shapes_any. intros h a h'. unfold get_int.
  destruct (lookup h l) as [[d|sh d]|]; try discriminate.
  intros E. injection E as _ <-. apply same_shapes_refl.
Qed.

Lemma get_float_shapes l :
  keeps_shapes (D := D) (get_float l)
    (fun a h => lookup h l = Some (FloatArray (fst a) (snd a))).
Proof.
  intros h. unfold get_float.
  destruct (lookup h l) as [[d|sh d]|] eqn:E; try exact I.
  split; [apply same_shapes_refl|exact E].
Qed.

Lemma get_buffer_shapes n l :
  keeps_shapes (D := D) (get_buffer n l) (fun _ _ => True).
Proof.
  apply keeps_shapes_any. intros h a h'. unfold get_buffer, bind, get_float.
  destruct (lookup h l) as [[d|sh d]|]; try discriminate. cbn [fst].
  destruct (length sh =? n); try discriminate.
  intros E. injection E as _ <-. apply same_shapes_refl.
Qed.

Lemma set_data_shapes l (new : list D) :
  keeps_shapes (set_data l new) (fun _ _ => True).
Proof.
  apply keeps_shapes_any. intros h a h'. unfold set_data.
  destruct (lookup h l) as [[d|sh d]|] eqn:E; try discriminate.
  intros H. injection H as _ <-. apply same_shapes_update, E.
Qed.

Lemma new_array_shapes (a : ndarray D) :
  keeps_shapes (new_array a) (fun l h => lookup h l = Some a).
Proof.
  intros h. split; [apply same_shapes_extend|apply lookup_extend_fresh].
Qed.

Lemma np_max_shapes (v : list D) : keeps_shapes (np_max v) (fun _ _ => True).
Proof.
  apply keeps_shapes_any. intros h a h'. destruct v; try discriminate.
  intros E. injection E as _ <-. apply same_shapes_refl.
Qed.

Lemma notify_shapes (cb : option (@callback D)) args stop_ :
  keeps_shapes (notify cb args stop_) (fun _ _ => True).
Proof.
  apply keeps_shapes_any. intros h a h'. rewrite run_notify.
  destruct (aborts cb args); try discriminate.
  intros E. injection E as _ <-. apply same_shapes_refl.
Qed.

(** Dropping what a step is known to return. *)
Lemma keeps_shapes_then {A B : Type} (m : M D A) (k : A -> M D B)
    (Q : A -> heap D -> Prop) (R : B -> heap D -> Prop) :
  keeps_shapes m Q -> (forall a, keeps_shapes (k a) R) ->
  keeps_shapes (bind m k) R.
Proof.
  intros Hm Hk. apply (keeps_shapes_bind m k Q R Hm).
  intros a h1 _ h _. apply Hk.
Qed.

Ltac shapes_step :=
  lazymatch goal with
  | |- @keeps_shapes _ _ (@ret _ _ _) _ =>
      intros ?; split; [apply same_shapes_refl|exact I]
  | |- @keeps_shapes _ _ (@bind _ _ _ (@get_int _ _) _) _ =>
      eapply keeps_shapes_then; [apply get_int_shapes|intros ?]
  | |- @keeps_shapes _ _ (@bind _ _ _ (@get_float _ _) _) _ =>
      eapply keeps_shapes_then; [apply get_float_shapes|intros ?]
  | |- @keeps_shapes _ _ (@bind _ _ _ (@get_buffer _ _ _) _) _ =>
      eapply keeps_shapes_then; [apply get_buffer_shapes|intros ?]
  | |- @keeps_shapes _ _ (@bind _ _ _ (@set_data _ _ _) _) _ =>
      eapply keeps_shapes_then; [apply set_data_shapes|intros ?]
  | |- @keeps_shapes _ _ (@bind _ _ _ (@new_array _ _) _) _ =>
      eapply keeps_shapes_then; [apply new_array_shapes|intros ?]
  | |- @keeps_shapes _ _ (@bind _ _ _ (@np_max _ _ _) _) _ =>
      eapply keeps_shapes_then; [apply np_max_shapes|intros ?]
  | |- @keeps_shapes _ _ (@bind _ _ _ (@notify _ _ _ _) _) _ =>
      eapply keeps_shapes_then; [apply notify_shapes|intros ?]
  end.

Lemma estimate_iteration_shapes fr maxiter maxerr err_out cb i st :
  keeps_shapes (estimate_iteration fr maxiter maxerr err_out cb i st)
    (fun _ _ => True).
Proof.
  unfold estimate_iteration. cbv zeta.
  eapply keeps_shapes_then with (Q := fun _ _ => True).
  { unfold update_therm_weights. cbv zeta. do 6 shapes_step.
    apply set_data_shapes. }
  intros _. do 5 shapes_step.
  eapply keeps_shapes_then with (Q := fun _ _ => True).
  { unfold convergence_check. do 3 shapes_step.
    destruct (fltb _ fzero); [shapes_step|]. do 2 shapes_step. }
  intros ?. shapes_step.
Qed.

Lemma for_range_shapes {St : Type} (body : nat -> St -> M D (St * bool)) n :
  (forall i st, keeps_shapes (body i st) (fun _ _ => True)) ->
  forall start st, keeps_shapes (for_range n start body st) (fun _ _ => True).
Proof.
  intros Hb. induction n as [|n IH]; intros start st; cbn [for_range].
  - shapes_step.
  - eapply keeps_shapes_then; [apply Hb|]. intros r.
    destruct (snd r); [shapes_step|apply IH].
Qed.

(** The last lines: the array of thermodynamic free energies is made with
    the shape of the weights, and only written in place after that. *)
Lemma estimate_finish_shapes fr bes css err_out st (h : heap D) shw w r h' :
  lookup h (therm_weights fr) = Some (FloatArray shw w) ->
  estimate_finish fr bes css err_out st h = Return r h' ->
  exists d, lookup h' (fst (fst (fst r))) = Some (FloatArray shw d) /\
            length d = length w.
Proof.
  intros Hw. unfold estimate_finish. cbv zeta.
  rewrite (bind_run _ _ _ _ _ (run_get_float _ _ _ _ Hw)).
  rewrite (bind_run _ _ _ _ _ (run_new_array _ _)). cbn [fst snd].
  set (te := fresh h). set (h1 := extend h _).
  assert (Hte : lookup h1 te
                = Some (FloatArray shw (map (fun x => fneg (flog x)) w)))
    by apply lookup_extend_fresh.
  intros H.
  match type of H with ?m h1 = _ =>
    assert (K : keeps_shapes m (fun r _ => fst (fst (fst r)) = te))
  end.
  { do 16 shapes_step.
    eapply keeps_shapes_then with (Q := fun _ _ => True).
    { destruct (err_out =? 0)%Z; [shapes_step|]. do 2 shapes_step. }
    intros traj h2. split; [apply same_shapes_refl|reflexivity]. }
  specialize (K h1). rewrite H in K. destruct K as [S E]. rewrite E.
  destruct (S _ _ _ Hte) as (d & Hd & Hl). exists d. split; [exact Hd|].
  rewrite Hl. apply length_map.
Qed.

End Shapes.

(** X25.  For inputs of the expected shapes: when [estimate] returns, the
    array of thermodynamic free energies it returns has the shape of the
    initial weights, with as many entries: [T] for a cold start, whatever
    number of passes ran and whatever the compiled collaborators wrote. *)
Theorem estimate_energies_shape
    {D : Type} {ops : FloatOps D} {srv : Services D}
    (C : list (ndarray D)) a b c c0 shb bd x cs te shw w0
    maxiter maxerr err_out cb r h' :
  nth_error C a = Some (IntArray c0) ->
  nth_error C b = Some (FloatArray shb bd) ->
  nth_error C c = Some (IntArray (x :: cs)) ->
  (0 <= 1 + fold_left Z.max cs x)%Z ->
  starts_from C (length c0) te shw w0 ->
  estimate (Caller a) (Caller b) (Caller c) maxiter maxerr te err_out cb
    (Build_heap C []) = Return r h' ->
  exists d, lookup h' (fst (fst (fst r))) = Some (FloatArray shw d) /\
            length d = length w0.
Proof.
  intros Ha Hb Hc HM Hte H. unfold estimate in H.
  assert (Es : exists fr h1,
             estimate_setup (Caller a) (Caller b) (Caller c) te (Build_heap C [])
               = Return fr h1 /\
             lookup h1 (therm_weights fr) = Some (FloatArray shw w0)).
  { destruct te as [l|].
    - destruct Hte as (k & ed & -> & Hk & ->).
      eexists. eexists. split;
        [exact (run_estimate_setup_warm C a b c k c0 shb bd x cs shw ed
                  Ha Hb Hc Hk HM)|reflexivity].
    - destruct Hte as [-> ->].
      eexists. eexists. split;
        [exact (run_estimate_setup_cold C a b c c0 shb bd x cs Ha Hb Hc HM)
        |reflexivity]. }
  destruct Es as (fr & h1 & Es & Hw).
  rewrite (bind_run _ _ _ _ _ Es) in H.
  apply bind_return_inv in H. destruct H as (st & h2 & El & H).
  assert (K := for_range_shapes _ (Z.to_nat maxiter)
                 (estimate_iteration_shapes fr maxiter maxerr err_out cb)
                 0 loop_entry h1).
  rewrite El in K. destruct K as [S _].
  destruct (S _ _ _ Hw) as (w2 & Hw2 & Hl2).
  destruct (estimate_finish_shapes _ _ _ _ _ _ _ _ _ _ Hw2 H) as (d & Hd & Hl).
  exists d. split; [exact Hd|lia].
Qed.

Lemma estimate_energies_shape_witness :
  exists r h' d,
    estimate (Caller 0) (Caller 1) (Caller 2) 3 sample_maxerr None 0
      (Some (always_raises CallbackInterrupt)) sample_heap = Return r h' /\
    lookup h' (fst (fst (fst r))) = Some (FloatArray [1] d) /\
    length d = 1.
Proof.
  destruct (sample_first_pass 3 0 (Some (always_raises CallbackInterrupt))
              ltac:(lia) (orb_true_r _)) as (r & h' & E & _).
  destruct (estimate_energies_shape sample_caller 0 1 2 [2%Z] [1; 2]
              [Fin 0; Fin 0] 0%Z [1%Z] None [1] [Fin 1] 3 sample_maxerr 0
              (Some (always_raises CallbackInterrupt)) r h'
              eq_refl eq_refl eq_refl ltac:(cbn; lia)
              ltac:(split; reflexivity) E) as (d & Hd & Hl).
  exists r, h', d. split; [exact E|]. split; [exact Hd|exact Hl].
Defined.
